(** * ISDB-Benchmark: CRC64 engine, XOR accumulator and the asynchronous
      block pipeline of [read_file.c], embedded and verified.

    Sources embedded here:
    - [crc64_simple.c]: [crc64_init], [crc64_update], [crc64_compute];
    - [read_file.c]: [process_block_xor], [process_buffer_data],
      [init_buffer_queue], [enqueue_buffer], [dequeue_buffer],
      [get_file_size], [async_sequential_read], [reader_thread],
      [process_buffers].

    Conventions.  [uint64_t] and [size_t] values are integers of [Z] with the
    wrap-around modulo [2^64] written out where the C arithmetic can wrap;
    [int] fields are plain [Z]; a buffer together with its length is a
    [list byte]; the two POSIX semaphores are their counters; a critical
    section under a mutex is one atomic step. *)

From Stdlib Require Import ZArith List Lia Bool Permutation Btauto Sorted.
From Stdlib.Strings Require Import Byte String Ascii.
From stdpp Require Import base tactics option list.

Local Open Scope Z_scope.

(** ** Machine integers *)

Definition u64 (x : Z) : Z := x mod 2 ^ 64.

Definition byte_to_Z (b : byte) : Z := Z.of_N (Byte.to_N b).

(** ** crc64_simple.c *)

Module Crc64.

(** [#define CRC64_POLY_ECMA 0x42F0E1EBA9EA3693ULL] (crc64_simple.h). *)
Definition CRC64_POLY_ECMA : Z := 0x42F0E1EBA9EA3693.

(** The two statics of the translation unit:
    [static uint64_t crc64_table[256]; static int crc64_initialized = 0;] *)
Record crc_state := mk_crc_state {
  crc64_table : list Z;
  crc64_initialized : Z
}.

(** The statics as the loader leaves them. *)
Definition crc_static : crc_state :=
  {| crc64_table := List.repeat 0 256; crc64_initialized := 0 |}.

(** Body of the inner loop of [crc64_init]:
    [if (crc & 1) crc = (crc >> 1) ^ poly; else crc >>= 1;] *)
Definition crc64_shift (poly crc : Z) : Z :=
  if negb (Z.land crc 1 =? 0)
  then Z.lxor (Z.shiftr crc 1) poly
  else Z.shiftr crc 1.

(** [for (int j = 0; j < 8; j++) ...], [n] iterations left. *)
Fixpoint crc64_shift_loop (n : nat) (poly crc : Z) : Z :=
  match n with
  | O => crc
  | S n' => crc64_shift_loop n' poly (crc64_shift poly crc)
  end.

(** [for (int i = 0; i < 256; i++) { crc = i; ...; crc64_table[i] = crc; }]
    with [n] iterations left and the loop counter at [i]. *)
Fixpoint crc64_init_loop (n i : nat) (poly : Z) (table : list Z) : list Z :=
  match n with
  | O => table
  | S n' =>
      let crc := crc64_shift_loop 8 poly (Z.of_nat i) in
      crc64_init_loop n' (S i) poly (<[i := crc]> table)
  end.

Definition crc64_init (st : crc_state) : crc_state :=
  if negb (crc64_initialized st =? 0) then st
  else
    let poly := CRC64_POLY_ECMA in
    {| crc64_table := crc64_init_loop 256 0 poly (crc64_table st);
       crc64_initialized := 1 |}.

(** [data[i]] and [crc64_table[k]]: reads of C arrays.  A read past the end
    is undefined in C; the model yields 0 there and the theorems stay within
    bounds. *)
Definition read_byte (data : list byte) (i : nat) : Z :=
  byte_to_Z (default Byte.x00 (data !! i)).

Definition read_table (table : list Z) (k : Z) : Z :=
  default 0 (table !! Z.to_nat k).

(** Body of the loop of [crc64_update]:
    [crc = crc64_table[(crc ^ data[i]) & 0xFF] ^ (crc >> 8);] *)
Definition crc64_byte (table : list Z) (crc b : Z) : Z :=
  Z.lxor (read_table table (Z.land (Z.lxor crc b) 0xFF)) (Z.shiftr crc 8).

(** [for (size_t i = 0; i < len; i++) ...], [n] iterations left. *)
Fixpoint crc64_update_loop (table : list Z) (data : list byte)
    (n i : nat) (crc : Z) : Z :=
  match n with
  | O => crc
  | S n' =>
      crc64_update_loop table data n' (S i)
        (crc64_byte table crc (read_byte data i))
  end.

(** [crc64_update] first calls [crc64_init], so it returns the new statics
    next to the checksum. *)
Definition crc64_update (st : crc_state) (crc : Z) (data : list byte)
    (len : Z) : Z * crc_state :=
  let st' := crc64_init st in
  (crc64_update_loop (crc64_table st') data (Z.to_nat len) 0 crc, st').

Definition crc64_compute (st : crc_state) (data : list byte) (len : Z)
    : Z * crc_state :=
  crc64_update st 0 data len.

(** *** The recurrence in the words of the specification

    The table entry for [i] by "the standard 8-iteration shift/XOR
    construction", and the digest as a fold over the bytes "starting from an
    initial value of zero". *)
Definition spec_table_entry (i : Z) : Z :=
  Nat.iter 8
    (fun c => if Z.odd c then Z.lxor (Z.shiftr c 1) CRC64_POLY_ECMA
              else Z.shiftr c 1) i.

Definition spec_table : list Z :=
  List.map (fun i => spec_table_entry (Z.of_nat i)) (seq 0 256).

Definition spec_digest (data : list byte) : Z :=
  fold_left
    (fun crc b =>
       Z.lxor (spec_table_entry (Z.land (Z.lxor crc (byte_to_Z b)) 0xFF))
              (Z.shiftr crc 8))
    data 0.

(** The table as [crc64_init] leaves it in the statics of a fresh process. *)
Definition built_table : list Z :=
  crc64_init_loop 256 0 CRC64_POLY_ECMA (crc64_table crc_static).

(** The statics are well formed when the array has its 256 cells and, once
    the flag is set, holds the table built by [crc64_init]. *)
Definition crc_wf (st : crc_state) : Prop :=
  length (crc64_table st) = 256%nat /\
  (crc64_initialized st <> 0 -> crc64_table st = built_table).

End Crc64.

(** ** read_file.c: the asynchronous pipeline *)

Module Pipeline.
Import Crc64.

(** The [#define] constants of read_file.c, grouped so that statements can
    also be evaluated at small sizes; [source_config] holds the values of the
    source. *)
Record Config := mk_config {
  BLOCK_SIZE : Z;
  MAX_QUEUE_SIZE : Z;
  NUM_READERS : nat;
  NUM_CONSUMERS : nat
}.

Definition source_config : Config :=
  {| BLOCK_SIZE := 16 * 1024 * 1024;
     MAX_QUEUE_SIZE := 16;
     NUM_READERS := 4;
     NUM_CONSUMERS := 4 |}.

(** *** What a run prints, and what it does *)

(** The lines written by the [printf] calls of the pipeline, with the
    values they format (the file name is left out). *)
Inductive Line :=
| L_async_banner (readers consumers : nat)
| L_cannot_open
| L_file_empty
| L_file_size (n : Z)
| L_consumer_failed (i : nat)
| L_consumer_created (i : nat)
| L_reader_failed (i : nat)
| L_reader_created (i : nat)
| L_readers_completed
| L_consumers_completed
| L_hash (h : Z)
| L_total_file_size (n : Z)
| L_timing
| L_reader_open_error (id : nat)
| L_reader_alloc_error (id : nat)
| L_reader_enqueued (id : nat) (block_index offset size : Z)
| L_reader_completed (id : nat) (total_bytes : Z)
| L_processed (size block_hash : Z).

(** A trace records the printed lines and, as observations that are not
    printed, the result of every block-index reservation and every digest
    folded into the accumulator. *)
Inductive Event :=
| Print (l : Line)
| Reserved (reader : nat) (block_index : option Z)
| Folded (consumer : nat) (block_hash : Z).

(** [if (verbosity >= level) printf(...)]. *)
Definition say (verbosity level : Z) (l : Line) : list Event :=
  if level <=? verbosity then [Print l] else [].

(** *** The environment

    What the C library may answer at one step: whether [fopen], the (first
    and second) [malloc], [fseek] and [pthread_create] succeed, and after
    how many bytes [fread] stops ([None]: only at the end of the file). *)
Record Env := mk_env {
  fopen_ok : bool;
  malloc_ok : bool;
  malloc2_ok : bool;
  fseek_ok : bool;
  fread_stop : option Z;
  create_ok : bool
}.

Definition env_ok : Env :=
  {| fopen_ok := true; malloc_ok := true; malloc2_ok := true;
     fseek_ok := true; fread_stop := None; create_ok := true |}.

Definition no_failure (e : Env) : Prop := e = env_ok.

(** [fread(read_buffer, 1, bytes_to_read, file)] after
    [fseek(file, offset, SEEK_SET)]: the bytes delivered. *)
Definition fread (e : Env) (file : list byte) (offset bytes_to_read : Z)
    : list byte :=
  let n := match fread_stop e with
           | None => bytes_to_read
           | Some k => Z.min k bytes_to_read
           end in
  take (Z.to_nat n) (drop (Z.to_nat offset) file).

(** *** Queue *)

Record BufferNode := mk_node {
  data : list byte;
  size : Z
}.

(** [BufferQueue]: the chain of nodes from [head] to [tail] is the list
    [nodes]; the mutex is not a field, its critical sections are the atomic
    steps below. *)
Record BufferQueue := mk_queue {
  nodes : list BufferNode;
  count : Z;
  empty_slots : Z;
  full_slots : Z;
  reading_done : Z;
  active_readers : Z;
  total_blocks : Z;
  next_block : Z;
  file_size : Z
}.

Definition head (q : BufferQueue) : option BufferNode := List.head (nodes q).
Definition tail (q : BufferQueue) : option BufferNode := last (nodes q).

Definition with_chain (q : BufferQueue) (ns : list BufferNode) (c : Z) :=
  mk_queue ns c (empty_slots q) (full_slots q) (reading_done q)
    (active_readers q) (total_blocks q) (next_block q) (file_size q).

Definition with_empty_slots (q : BufferQueue) (v : Z) :=
  mk_queue (nodes q) (count q) v (full_slots q) (reading_done q)
    (active_readers q) (total_blocks q) (next_block q) (file_size q).

Definition with_full_slots (q : BufferQueue) (v : Z) :=
  mk_queue (nodes q) (count q) (empty_slots q) v (reading_done q)
    (active_readers q) (total_blocks q) (next_block q) (file_size q).

Definition with_reading_done (q : BufferQueue) (v : Z) :=
  mk_queue (nodes q) (count q) (empty_slots q) (full_slots q) v
    (active_readers q) (total_blocks q) (next_block q) (file_size q).

Definition with_active_readers (q : BufferQueue) (v : Z) :=
  mk_queue (nodes q) (count q) (empty_slots q) (full_slots q)
    (reading_done q) v (total_blocks q) (next_block q) (file_size q).

Definition with_next_block (q : BufferQueue) (v : Z) :=
  mk_queue (nodes q) (count q) (empty_slots q) (full_slots q)
    (reading_done q) (active_readers q) (total_blocks q) v (file_size q).

Definition with_partition (q : BufferQueue) (fsize total next : Z) :=
  mk_queue (nodes q) (count q) (empty_slots q) (full_slots q)
    (reading_done q) (active_readers q) total next fsize.

Definition init_buffer_queue (cfg : Config) : BufferQueue :=
  {| nodes := []; count := 0;
     empty_slots := MAX_QUEUE_SIZE cfg; full_slots := 0;
     reading_done := 0; active_readers := 0;
     total_blocks := 0; next_block := 0; file_size := 0 |}.

(** [sem_wait]: [None] while the caller has to stay suspended. *)
Definition sem_wait (v : Z) : option Z :=
  if 0 <? v then Some (v - 1) else None.

Definition sem_post (v : Z) : Z := v + 1.

(** The critical section of [enqueue_buffer]; the flag tells whether both
    allocations succeeded and the node was linked. *)
Definition enqueue_locked (e : Env) (q : BufferQueue) (buf : list byte)
    (sz : Z) : BufferQueue * bool :=
  if negb (malloc_ok e) then (q, false)
  else if negb (malloc2_ok e) then (q, false)
  else
    let node := {| data := take (Z.to_nat sz) buf; size := sz |} in
    (with_chain q (nodes q ++ [node]) (count q + 1), true).

(** What [enqueue_buffer] does after its critical section. *)
Definition enqueue_post (q : BufferQueue) (linked : bool) : BufferQueue * Z :=
  if linked then (with_full_slots q (sem_post (full_slots q)), 1)
  else (with_empty_slots q (sem_post (empty_slots q)), 0).

(** [enqueue_buffer] run without interruption. *)
Definition enqueue_buffer (e : Env) (q : BufferQueue) (buf : list byte)
    (sz : Z) : option (BufferQueue * Z) :=
  match sem_wait (empty_slots q) with
  | None => None
  | Some v =>
      let '(q', linked) := enqueue_locked e (with_empty_slots q v) buf sz in
      Some (enqueue_post q' linked)
  end.

(** Outcome of the critical section of [dequeue_buffer]: the queue was
    empty (with the value of the local [done]), or a node was unlinked. *)
Inductive Dequeued :=
| DeqEmpty (done : bool)
| DeqNode (node : BufferNode).

(** The critical section of [dequeue_buffer].  With [count] nonzero and no
    node the C code dereferences NULL: no result. *)
Definition dequeue_locked (q : BufferQueue) : option (BufferQueue * Dequeued) :=
  if count q =? 0 then
    let done := negb (reading_done q =? 0) && (active_readers q =? 0) in
    Some (q, DeqEmpty done)
  else
    match nodes q with
    | [] => None
    | node :: rest => Some (with_chain q rest (count q - 1), DeqNode node)
    end.

(** What [dequeue_buffer] does after its critical section: the semaphore it
    posts, and its result ([None] for the return value 0). *)
Definition dequeue_post (q : BufferQueue) (r : Dequeued)
    : BufferQueue * option BufferNode :=
  match r with
  | DeqEmpty done =>
      if negb done then (with_full_slots q (sem_post (full_slots q)), None)
      else (q, None)
  | DeqNode node =>
      (with_empty_slots q (sem_post (empty_slots q)), Some node)
  end.

(** [dequeue_buffer] run without interruption. *)
Definition dequeue_buffer (q : BufferQueue)
    : option (BufferQueue * option BufferNode) :=
  match sem_wait (full_slots q) with
  | None => None
  | Some v =>
      match dequeue_locked (with_full_slots q v) with
      | None => None
      | Some (q', r) => Some (dequeue_post q' r)
      end
  end.

(** The mutex-protected reservation at the top of the loop of
    [reader_thread]. *)
Definition reserve_next_block (q : BufferQueue) : BufferQueue * option Z :=
  if total_blocks q <=? next_block q then (q, None)
  else (with_next_block q (u64 (next_block q + 1)), Some (next_block q)).

(** The last critical section of [reader_thread] ("Mark reader as done"). *)
Definition mark_reader_done (q : BufferQueue) : BufferQueue :=
  let q' := with_active_readers q (active_readers q - 1) in
  if active_readers q' =? 0 then with_reading_done q' 1 else q'.

(** The critical section on the two early-exit paths of [reader_thread]
    and on the spawn-failure path of [async_sequential_read]. *)
Definition drop_reader (q : BufferQueue) : BufferQueue :=
  with_active_readers q (active_readers q - 1).

(** *** Hashing *)

(** [process_block_xor]: [*hash_xor ^= crc64_compute(data, size)]. *)
Definition process_block_xor (c : crc_state) (hash_xor : Z)
    (buf : list byte) (sz : Z) : Z * crc_state :=
  let '(block_hash, c') := crc64_compute c buf sz in
  (Z.lxor hash_xor block_hash, c').

(** The single-threaded readers ([sequential_read], [sequential_mmap], ...)
    call [process_block_xor] once per block, in the order they visit the
    blocks. *)
Definition hash_blocks (c : crc_state) (hash_xor : Z)
    (blocks : list (list byte)) : Z * crc_state :=
  fold_left
    (fun acc buf =>
       process_block_xor (snd acc) (fst acc) buf (Z.of_nat (length buf)))
    blocks (hash_xor, c).

(** [process_buffer_data] as run by consumer [cid]: the new value of
    [global_hash_xor], the statics of the checksum and the trace. *)
Definition process_buffer_data (verbosity : Z) (cid : nat) (c : crc_state)
    (global_hash_xor : Z) (buf : list byte) (sz : Z)
    : Z * crc_state * list Event :=
  let '(block_hash, c') := crc64_compute c buf sz in
  (Z.lxor global_hash_xor block_hash, c',
   Folded cid block_hash :: say verbosity 2 (L_processed sz block_hash)).

(** The accumulator after [process_buffer_data] was called on the buffers
    [bufs], in that order. *)
Definition fold_buffers (verbosity : Z) (cid : nat) (c : crc_state)
    (global_hash_xor : Z) (bufs : list (list byte)) : Z * crc_state :=
  fold_left
    (fun acc buf =>
       let '(h, c', _) :=
         process_buffer_data verbosity cid (snd acc) (fst acc) buf
           (Z.of_nat (length buf)) in
       (h, c'))
    bufs (global_hash_xor, c).

(** *** Blocks of the file *)

(** The digest of a buffer, computed by [crc64_compute] in a fresh process. *)
Definition digest (buf : list byte) : Z :=
  fst (crc64_compute crc_static buf (Z.of_nat (length buf))).

(** Block [k] of the file: at most [BLOCK_SIZE] bytes from offset
    [k * BLOCK_SIZE]. *)
Definition file_block (cfg : Config) (file : list byte) (k : nat)
    : list byte :=
  take (Z.to_nat (BLOCK_SIZE cfg))
    (drop (k * Z.to_nat (BLOCK_SIZE cfg))%nat file).

(** The number of blocks computed by [async_sequential_read]:
    [(file_size + BLOCK_SIZE - 1) / BLOCK_SIZE] in [size_t]. *)
Definition block_count (cfg : Config) (fsize : Z) : Z :=
  u64 (fsize + BLOCK_SIZE cfg - 1) / BLOCK_SIZE cfg.

(** XOR of the digests of the first [n] blocks. *)
Definition blocks_xor (cfg : Config) (file : list byte) (n : nat) : Z :=
  foldr Z.lxor 0 (List.map (fun k => digest (file_block cfg file k)) (seq 0 n)).

(** *** Reader threads *)

(** A block read from the file and not yet handed to the queue, with the
    locals [block_index] and [offset] that the trace line needs;
    [bytes_read] is the length of [p_buf]. *)
Record Pending := mk_pending {
  p_index : Z;
  p_offset : Z;
  p_buf : list byte
}.

Definition bytes_read (p : Pending) : Z := Z.of_nat (length (p_buf p)).

(** Where a reader thread stands.  Each constructor is the point just
    before one atomic action on the shared queue. *)
Inductive ReaderPc :=
| RStart                                  (* created, before fopen *)
| RClaim                                  (* top of while (1) *)
| REnqueueWait (p : Pending)              (* before sem_wait(&empty_slots) *)
| REnqueueLocked (p : Pending)            (* slot taken, before the lock *)
| REnqueuePost (p : Pending) (linked : bool)  (* unlocked, before sem_post *)
| RMarkDone                               (* left the loop *)
| RExited
| RAbsent.                                (* pthread_create failed *)

Record Reader := mk_reader {
  r_pc : ReaderPc;
  total_bytes : Z
}.

(** [offset] and [bytes_to_read] of a claimed block. *)
Definition block_offset (cfg : Config) (block_index : Z) : Z :=
  u64 (block_index * BLOCK_SIZE cfg).

Definition block_bytes_to_read (cfg : Config) (q : BufferQueue) (offset : Z)
    : Z :=
  if file_size q <? u64 (offset + BLOCK_SIZE cfg)
  then u64 (file_size q - offset)
  else BLOCK_SIZE cfg.

(** One atomic step of [reader_thread] for reader [rid]. *)
Definition reader_step (cfg : Config) (verbosity : Z) (file : list byte)
    (rid : nat) (e : Env) (r : Reader) (q : BufferQueue)
    : option (Reader * BufferQueue * list Event) :=
  match r_pc r with
  | RStart =>
      if negb (fopen_ok e) then
        Some (mk_reader RExited (total_bytes r), drop_reader q,
              say verbosity 2 (L_reader_open_error rid))
      else if negb (malloc_ok e) then
        Some (mk_reader RExited (total_bytes r), drop_reader q,
              say verbosity 2 (L_reader_alloc_error rid))
      else Some (mk_reader RClaim 0, q, [])
  | RClaim =>
      match reserve_next_block q with
      | (q', None) =>
          Some (mk_reader RMarkDone (total_bytes r), q', [Reserved rid None])
      | (q', Some block_index) =>
          let offset := block_offset cfg block_index in
          let bytes_to_read := block_bytes_to_read cfg q' offset in
          if negb (fseek_ok e) then
            Some (mk_reader RMarkDone (total_bytes r), q',
                  [Reserved rid (Some block_index)])
          else
            let buf := fread e file offset bytes_to_read in
            if Z.of_nat (length buf) =? 0 then
              Some (mk_reader RMarkDone (total_bytes r), q',
                    [Reserved rid (Some block_index)])
            else
              Some (mk_reader (REnqueueWait (mk_pending block_index offset buf))
                      (total_bytes r), q',
                    [Reserved rid (Some block_index)])
      end
  | REnqueueWait p =>
      match sem_wait (empty_slots q) with
      | None => None
      | Some v =>
          Some (mk_reader (REnqueueLocked p) (total_bytes r),
                with_empty_slots q v, [])
      end
  | REnqueueLocked p =>
      let '(q', linked) := enqueue_locked e q (p_buf p) (bytes_read p) in
      Some (mk_reader (REnqueuePost p linked) (total_bytes r), q', [])
  | REnqueuePost p linked =>
      (* the value returned by enqueue_buffer is not looked at *)
      let '(q', _) := enqueue_post q linked in
      Some (mk_reader RClaim (u64 (total_bytes r + bytes_read p)), q',
            say verbosity 2
              (L_reader_enqueued rid (p_index p) (p_offset p) (bytes_read p)))
  | RMarkDone =>
      Some (mk_reader RExited (total_bytes r), mark_reader_done q,
            say verbosity 2 (L_reader_completed rid (total_bytes r)))
  | RExited => None
  | RAbsent => None
  end.

(** *** Consumer threads *)

Inductive ConsumerPc :=
| CCheck                      (* top of while (1) *)
| CWait                       (* before sem_wait(&full_slots) *)
| CLocked                     (* signal taken, before the lock *)
| CRepost                     (* queue empty, not done: before sem_post *)
| CRelease (node : BufferNode)    (* node unlinked, before sem_post *)
| CProcess (node : BufferNode)    (* dequeue_buffer returned 1 *)
| CExited.

(** The test at the top of the loop of [process_buffers]. *)
Definition drained (q : BufferQueue) : bool :=
  negb (reading_done q =? 0) && (active_readers q =? 0) && (count q =? 0).

(** One atomic step of [process_buffers] for consumer [cid], on the queue,
    [global_hash_xor] and the statics of the checksum. *)
Definition consumer_step (verbosity : Z) (cid : nat) (c : ConsumerPc)
    (q : BufferQueue) (global_hash_xor : Z) (cs : crc_state)
    : option (ConsumerPc * BufferQueue * Z * crc_state * list Event) :=
  match c with
  | CCheck =>
      if drained q then Some (CExited, q, global_hash_xor, cs, [])
      else Some (CWait, q, global_hash_xor, cs, [])
  | CWait =>
      match sem_wait (full_slots q) with
      | None => None
      | Some v => Some (CLocked, with_full_slots q v, global_hash_xor, cs, [])
      end
  | CLocked =>
      match dequeue_locked q with
      | None => None
      | Some (q', DeqEmpty done) =>
          Some (if negb done then CRepost else CCheck,
                q', global_hash_xor, cs, [])
      | Some (q', DeqNode node) =>
          Some (CRelease node, q', global_hash_xor, cs, [])
      end
  | CRepost =>
      Some (CCheck, fst (dequeue_post q (DeqEmpty false)),
            global_hash_xor, cs, [])
  | CRelease node =>
      Some (CProcess node, fst (dequeue_post q (DeqNode node)),
            global_hash_xor, cs, [])
  | CProcess node =>
      let '(h, cs', evs) :=
        process_buffer_data verbosity cid cs global_hash_xor
          (data node) (size node) in
      Some (CCheck, q, h, cs', evs)
  | CExited => None
  end.

(** *** The orchestrator: async_sequential_read *)

(** The three [return]s of [async_sequential_read]: after [get_file_size]
    answered 0, after a consumer could not be created, and at the end. *)
Inductive Return :=
| NoFile
| NoConsumer
| Reported.

Inductive MainPc :=
| MStart
| MCreateConsumers (i : nat)            (* consumer loop, i created *)
| MCreateReaders (i : nat)              (* reader loop, i handled *)
| MJoinReaders
| MWake (i : nat)                       (* wake-up loop, i posted *)
| MJoinConsumers
| MReturned (how : Return).

Record State := mk_state {
  main_pc : MainPc;
  queue : BufferQueue;
  global_hash_xor : Z;
  crc : crc_state;
  readers : list Reader;
  consumers : list ConsumerPc
}.

(** [get_file_size]: [None] for the return value 0. *)
Definition get_file_size (verbosity : Z) (e : Env) (file : list byte)
    : option Z * list Event :=
  if negb (fopen_ok e) then (None, say verbosity 2 L_cannot_open)
  else
    let fsize := u64 (Z.of_nat (length file)) in
    if fsize =? 0 then (None, say verbosity 2 L_file_empty)
    else (Some fsize, say verbosity 2 (L_file_size fsize)).

Definition reader_gone (r : Reader) : bool :=
  match r_pc r with
  | RExited | RAbsent => true
  | _ => false
  end.

Definition consumer_gone (c : ConsumerPc) : bool :=
  match c with
  | CExited => true
  | _ => false
  end.

(** One atomic step of [async_sequential_read] itself. *)
Definition main_step (cfg : Config) (verbosity : Z) (file : list byte)
    (e : Env) (s : State) : option (State * list Event) :=
  match main_pc s with
  | MStart =>
      let banner :=
        say verbosity 2
          (L_async_banner (NUM_READERS cfg) (NUM_CONSUMERS cfg)) in
      match get_file_size verbosity e file with
      | (None, evs) =>
          Some (mk_state (MReturned NoFile) (queue s) (global_hash_xor s) (crc s)
                  (readers s) (consumers s),
                banner ++ evs)
      | (Some fsize, evs) =>
          let q :=
            with_partition (init_buffer_queue cfg) fsize
              (block_count cfg fsize) 0 in
          Some (mk_state (MCreateConsumers 0) q 0 (crc64_init (crc s))
                  (readers s) (consumers s),
                banner ++ evs)
      end
  | MCreateConsumers i =>
      if (i <? NUM_CONSUMERS cfg)%nat then
        if create_ok e then
          Some (mk_state (MCreateConsumers (S i)) (queue s)
                  (global_hash_xor s) (crc s) (readers s)
                  (consumers s ++ [CCheck]),
                say verbosity 2 (L_consumer_created i))
        else
          Some (mk_state (MReturned NoConsumer) (queue s) (global_hash_xor s)
                  (crc s) (readers s) (consumers s),
                say verbosity 2 (L_consumer_failed i))
      else
        Some (mk_state (MCreateReaders 0)
                (with_active_readers (queue s) (Z.of_nat (NUM_READERS cfg)))
                (global_hash_xor s) (crc s) (readers s) (consumers s),
              [])
  | MCreateReaders i =>
      if (i <? NUM_READERS cfg)%nat then
        if create_ok e then
          Some (mk_state (MCreateReaders (S i)) (queue s)
                  (global_hash_xor s) (crc s)
                  (readers s ++ [mk_reader RStart 0]) (consumers s),
                say verbosity 2 (L_reader_created i))
        else
          Some (mk_state (MCreateReaders (S i)) (drop_reader (queue s))
                  (global_hash_xor s) (crc s)
                  (readers s ++ [mk_reader RAbsent 0]) (consumers s),
                say verbosity 2 (L_reader_failed i))
      else
        Some (mk_state MJoinReaders (queue s) (global_hash_xor s) (crc s)
                (readers s) (consumers s),
              [])
  | MJoinReaders =>
      if forallb reader_gone (readers s) then
        Some (mk_state (MWake 0) (queue s) (global_hash_xor s) (crc s)
                (readers s) (consumers s),
              say verbosity 2 L_readers_completed)
      else None
  | MWake i =>
      if (i <? NUM_CONSUMERS cfg)%nat then
        Some (mk_state (MWake (S i))
                (with_full_slots (queue s) (sem_post (full_slots (queue s))))
                (global_hash_xor s) (crc s) (readers s) (consumers s),
              [])
      else
        Some (mk_state MJoinConsumers (queue s) (global_hash_xor s) (crc s)
                (readers s) (consumers s),
              [])
  | MJoinConsumers =>
      if forallb consumer_gone (consumers s) then
        let final_hash := global_hash_xor s in
        Some (mk_state (MReturned Reported) (queue s) (global_hash_xor s)
                (crc s) (readers s) (consumers s),
              say verbosity 2 L_consumers_completed
              ++ say verbosity 1 (L_hash final_hash)
              ++ say verbosity 2 (L_total_file_size (file_size (queue s)))
              ++ [Print L_timing])
      else None
  | MReturned _ => None
  end.

(** *** Interleaving *)

Inductive Tid :=
| Main
| ReaderT (rid : nat)
| ConsumerT (cid : nat).

(** The scheduler picks a thread, the environment answers its calls. *)
Definition Action : Type := Tid * Env.

Definition step (cfg : Config) (verbosity : Z) (file : list byte)
    (a : Action) (s : State) : option (State * list Event) :=
  match a with
  | (Main, e) => main_step cfg verbosity file e s
  | (ReaderT rid, e) =>
      match readers s !! rid with
      | None => None
      | Some r =>
          match reader_step cfg verbosity file rid e r (queue s) with
          | None => None
          | Some (r', q', evs) =>
              Some (mk_state (main_pc s) q' (global_hash_xor s) (crc s)
                      (<[rid := r']> (readers s)) (consumers s),
                    evs)
          end
      end
  | (ConsumerT cid, e) =>
      match consumers s !! cid with
      | None => None
      | Some c =>
          match consumer_step verbosity cid c (queue s) (global_hash_xor s)
                  (crc s) with
          | None => None
          | Some (c', q', h', cs', evs) =>
              Some (mk_state (main_pc s) q' h' cs' (readers s)
                      (<[cid := c']> (consumers s)),
                    evs)
          end
      end
  end.

(** A schedule runs from left to right; [None] when one of its actions is
    not enabled (thread suspended, finished or not created). *)
Fixpoint exec (cfg : Config) (verbosity : Z) (file : list byte)
    (sched : list Action) (s : State) : option (State * list Event) :=
  match sched with
  | [] => Some (s, [])
  | a :: rest =>
      match step cfg verbosity file a s with
      | None => None
      | Some (s', evs) =>
          match exec cfg verbosity file rest s' with
          | None => None
          | Some (s'', evs') => Some (s'', evs ++ evs')
          end
      end
  end.

(** The process when [async_sequential_read] is entered: no thread of the
    pipeline exists; the queue is an uninitialised local, the accumulator
    and the statics of the checksum hold what earlier code left. *)
Definition entry_state (q0 : BufferQueue) (h0 : Z) (c0 : crc_state) : State :=
  {| main_pc := MStart; queue := q0; global_hash_xor := h0; crc := c0;
     readers := []; consumers := [] |}.

(** The process image at program start: [global_hash_xor = 0], table not
    built. *)
Definition fresh_state (cfg : Config) : State :=
  entry_state (init_buffer_queue cfg) 0 crc_static.

(** Observations read off a trace. *)
Definition printed (tr : list Event) : list Line :=
  omap (fun ev => match ev with Print l => Some l | _ => None end) tr.

Definition reported_hashes (tr : list Event) : list Z :=
  omap (fun ev => match ev with Print (L_hash h) => Some h | _ => None end) tr.

Definition reservations (tr : list Event) : list (option Z) :=
  omap (fun ev => match ev with Reserved _ r => Some r | _ => None end) tr.

Definition claimed_indices (tr : list Event) : list Z :=
  omap (fun ev => match ev with
                  | Reserved _ (Some i) => Some i
                  | _ => None
                  end) tr.

Definition folded_digests (tr : list Event) : list Z :=
  omap (fun ev => match ev with Folded _ h => Some h | _ => None end) tr.

Definition is_print (ev : Event) : bool :=
  match ev with
  | Print _ => true
  | _ => false
  end.

Definition unprinted (tr : list Event) : list Event :=
  List.filter (fun ev => negb (is_print ev)) tr.

(** A result with the printed lines erased from its trace. *)
Definition silent {A} (r : option (A * list Event)) : option (A * list Event) :=
  match r with
  | Some (x, tr) => Some (x, unprinted tr)
  | None => None
  end.

End Pipeline.

(** ** What holds of every reachable state *)

Module Invariants.
Import Crc64 Pipeline.

(** The integers [0, ..., n-1]. *)
Definition zseq (n : Z) : list Z := Z.of_nat <$> seq 0 (Z.to_nat n).

(** A run counts as started once [get_file_size] has succeeded. *)
Definition started (s : State) : Prop :=
  match main_pc s with
  | MStart | MReturned NoFile => False
  | _ => True
  end.

(** How many consumers and readers the creation loops of the orchestrator
    have handled so far ([None] before the loop is reached). *)
Definition consumers_handled (cfg : Config) (pc : MainPc) : option nat :=
  match pc with
  | MStart | MReturned NoFile | MReturned NoConsumer => None
  | MCreateConsumers i => Some i
  | _ => Some (NUM_CONSUMERS cfg)
  end.

Definition readers_handled (cfg : Config) (pc : MainPc) : option nat :=
  match pc with
  | MStart | MReturned NoFile | MReturned NoConsumer
  | MCreateConsumers _ => None
  | MCreateReaders i => Some i
  | _ => Some (NUM_READERS cfg)
  end.

(** All readers have been joined. *)
Definition readers_joined (pc : MainPc) : Prop :=
  match pc with
  | MWake _ | MJoinConsumers | MReturned Reported => True
  | _ => False
  end.

Definition sum_with {A} (f : A -> Z) (l : list A) : Z :=
  foldr (fun x acc => f x + acc) 0 l.

Definition xor_with {A} (f : A -> Z) (l : list A) : Z :=
  foldr (fun x acc => Z.lxor (f x) acc) 0 l.

(** 1 for a reader that still counts in [active_readers]. *)
Definition alive (r : Reader) : Z := if reader_gone r then 0 else 1.

(** Digests that are on their way to the accumulator: of the queued nodes,
    of the buffers a reader has read and not yet linked, of the nodes a
    consumer has unlinked and not yet folded. *)
Definition node_digest (n : BufferNode) : Z := spec_digest (data n).

Definition reader_held (r : Reader) : Z :=
  match r_pc r with
  | REnqueueWait p | REnqueueLocked p => spec_digest (p_buf p)
  | _ => 0
  end.

Definition consumer_held (c : ConsumerPc) : Z :=
  match c with
  | CRelease n | CProcess n => node_digest n
  | _ => 0
  end.

(** A node in the hands of a consumer carries its length. *)
Definition consumer_node_ok (c : ConsumerPc) : Prop :=
  match c with
  | CRelease n | CProcess n => size n = Z.of_nat (length (data n))
  | _ => True
  end.

Definition in_flight (s : State) : Z :=
  Z.lxor (xor_with node_digest (nodes (queue s)))
    (Z.lxor (xor_with reader_held (readers s))
            (xor_with consumer_held (consumers s))).

(** XOR of the digests of the first [n] blocks of the file, through the
    fold of the specification. *)
Definition blocks_digest (cfg : Config) (file : list byte) (n : nat) : Z :=
  xor_with (fun k => spec_digest (file_block cfg file k)) (seq 0 n).

Section Defs.
Context (cfg : Config) (verbosity : Z) (file : list byte).
Context (q0 : BufferQueue) (h0 : Z) (c0 : crc_state).

(** File size and number of blocks as the orchestrator computes them. *)
Definition F : Z := u64 (Z.of_nat (length file)).
Definition T : Z := block_count cfg F.

(** Invariant of all runs, whatever the environment answers. *)
Record Inv (s : State) (tr : list Event) : Prop := mk_inv {
  inv_idle :
    ~ started s ->
    readers s = [] /\ consumers s = [] /\ queue s = q0
    /\ global_hash_xor s = h0 /\ crc s = c0
    /\ unprinted tr = [] /\ reported_hashes tr = [];
  inv_entry : main_pc s = MStart -> tr = [];
  inv_crc :
    started s -> crc_wf (crc s) /\ crc64_initialized (crc s) <> 0;
  inv_chain :
    started s ->
    count (queue s) = Z.of_nat (length (nodes (queue s)))
    /\ Forall (fun n => size n = Z.of_nat (length (data n)))
         (nodes (queue s));
  inv_held : Forall consumer_node_ok (consumers s);
  inv_partition :
    started s ->
    file_size (queue s) = F /\ total_blocks (queue s) = T
    /\ 0 <= next_block (queue s) <= T;
  inv_reservations :
    started s ->
    exists k : nat,
      reservations tr
      = (Some <$> zseq (next_block (queue s))) ++ replicate k None
      /\ (k <> 0%nat -> next_block (queue s) = T);
  inv_consumers :
    forall i, consumers_handled cfg (main_pc s) = Some i ->
              length (consumers s) = i /\ (i <= NUM_CONSUMERS cfg)%nat;
  inv_no_readers :
    started s -> readers_handled cfg (main_pc s) = None ->
    readers s = [] /\ reading_done (queue s) = 0;
  inv_readers :
    forall i, readers_handled cfg (main_pc s) = Some i ->
      length (readers s) = i /\ (i <= NUM_READERS cfg)%nat
      /\ active_readers (queue s)
         = Z.of_nat (NUM_READERS cfg - i) + sum_with alive (readers s)
      /\ (reading_done (queue s) = 0
          \/ reading_done (queue s) = 1 /\ active_readers (queue s) = 0);
  inv_exited :
    started s ->
    (exists cid, consumers s !! cid = Some CExited) ->
    reading_done (queue s) = 1 /\ count (queue s) = 0;
  inv_joined_readers :
    readers_joined (main_pc s) ->
    Forall (fun r => reader_gone r = true) (readers s);
  inv_joined_consumers :
    main_pc s = MReturned Reported ->
    Forall (fun c => c = CExited) (consumers s);
  inv_report :
    started s ->
    reported_hashes tr =
    match main_pc s with
    | MReturned Reported =>
        if 1 <=? verbosity then [global_hash_xor s] else []
    | _ => []
    end
}.

(** A buffer read without failure is the block it was claimed for. *)
Definition pending_ok (p : Pending) : Prop :=
  exists k : nat,
    p_index p = Z.of_nat k /\ p_buf p = file_block cfg file k
    /\ p_buf p <> [].

Definition reader_ok (q : BufferQueue) (r : Reader) : Prop :=
  match r_pc r with
  | RStart | RClaim => True
  | REnqueueWait p | REnqueueLocked p => pending_ok p
  | REnqueuePost p linked => pending_ok p /\ linked = true
  | RMarkDone | RExited => next_block q = T
  | RAbsent => False
  end.

(** Invariant of the runs in which no call fails. *)
Record Clean (s : State) : Prop := mk_clean {
  clean_readers :
    started s -> Forall (reader_ok (queue s)) (readers s);
  clean_done :
    started s -> reading_done (queue s) = 1 -> next_block (queue s) = T;
  clean_account :
    started s ->
    Z.lxor (global_hash_xor s) (in_flight s)
    = blocks_digest cfg file (Z.to_nat (next_block (queue s)))
}.

End Defs.

(** All readers are gone, [reading_done] is still 0, and the orchestrator
    is between the join of the readers and the join of the consumers. *)
Definition stalled (s : State) : Prop :=
  reading_done (queue s) = 0
  /\ active_readers (queue s) = 0
  /\ Forall (fun r => reader_gone r = true) (readers s)
  /\ Forall (fun c => c <> CExited) (consumers s)
  /\ consumers s <> []
  /\ match main_pc s with
     | MJoinReaders | MWake _ | MJoinConsumers => True
     | _ => False
     end.

(** A schedule in which no call fails. *)
Definition failure_free (sched : list Action) : Prop :=
  Forall (fun a => snd a = env_ok) sched.

End Invariants.

(** ** A schedule that runs the pipeline to its end *)

Module Schedules.
Import Crc64 Pipeline Invariants.

(** A step of thread [t] in which no call fails. *)
Definition ok (t : Tid) : Action := (t, env_ok).

(** One block taken through the pipeline: reader 0 claims and reads it and
    goes through [enqueue_buffer]; consumer 0 passes its test, goes through
    [dequeue_buffer] and folds the digest. *)
Definition one_block : list Action :=
  replicate 4 (ok (ReaderT 0)) ++ replicate 5 (ok (ConsumerT 0)).

(** The orchestrator creates all threads; every reader opens the file;
    reader 0 and consumer 0 handle the blocks one after the other; every
    reader finds no block left and exits; the orchestrator joins the readers
    and posts its wake-ups; every consumer sees the drain and exits; the
    orchestrator joins the consumers and reports. *)
Definition sequential_schedule (cfg : Config) (nblocks : nat) : list Action :=
  replicate (NUM_CONSUMERS cfg + NUM_READERS cfg + 3) (ok Main)
  ++ List.map (fun i => ok (ReaderT i)) (seq 0 (NUM_READERS cfg))
  ++ concat (replicate nblocks one_block)
  ++ flat_map (fun i => [ok (ReaderT i); ok (ReaderT i)])
       (seq 0 (NUM_READERS cfg))
  ++ replicate (NUM_CONSUMERS cfg + 2) (ok Main)
  ++ List.map (fun j => ok (ConsumerT j)) (seq 0 (NUM_CONSUMERS cfg))
  ++ [ok Main].

(** States that the schedule passes through.  The queue with nothing
    queued: [k] blocks claimed, [active] readers counted, [full] signals
    on [full_slots]. *)
Definition idle_queue (cfg : Config) (file : list byte)
    (k active done full : Z) : BufferQueue :=
  {| nodes := []; count := 0;
     empty_slots := MAX_QUEUE_SIZE cfg; full_slots := full;
     reading_done := done; active_readers := active;
     total_blocks := T cfg file; next_block := k; file_size := F file |}.

(** All threads exist and the orchestrator waits for the readers. *)
Definition running_state (cfg : Config) (file : list byte) (c0 : crc_state)
    (k active done : Z) (rs : list Reader) (cs : list ConsumerPc) : State :=
  {| main_pc := MJoinReaders;
     queue := idle_queue cfg file k active done 0;
     global_hash_xor := blocks_digest cfg file (Z.to_nat k);
     crc := crc64_init c0;
     readers := rs;
     consumers := cs |}.

(** A reader that has left. *)
Definition exited (r : Reader) : Reader := mk_reader RExited (total_bytes r).

End Schedules.

(** ** Inputs used in the examples *)

(** The bytes of the ASCII string 123456789, the usual check input. *)
Definition check_bytes : list byte :=
  [x31; x32; x33; x34; x35; x36; x37; x38; x39].

Module Inputs.
Import Crc64 Pipeline Schedules.

(** A queue that is permanently drained: all readers have exited, nothing
    is queued, and one signal is left on [full_slots]. *)
Definition drained_queue : BufferQueue :=
  {| nodes := []; count := 0; empty_slots := 16; full_slots := 1;
     reading_done := 1; active_readers := 0;
     total_blocks := 1; next_block := 1; file_size := 1 |}.

(** A file of one block and one byte, all zero: 16 MiB + 1 bytes. *)
Definition two_block_file : list byte :=
  replicate (Z.to_nat (BLOCK_SIZE source_config + 1)) x00.

(** The pipeline on [two_block_file] once all threads are created: the
    four consumers wait for a block, reader 0 is at the top of its loop. *)
Definition two_block_state : State :=
  {| main_pc := MJoinReaders;
     queue :=
       {| nodes := []; count := 0; empty_slots := 16; full_slots := 0;
          reading_done := 0; active_readers := 4;
          total_blocks := 2; next_block := 0; file_size := 16777217 |};
     global_hash_xor := 0;
     crc := crc64_init crc_static;
     readers := [mk_reader RClaim 0; mk_reader RStart 0; mk_reader RStart 0;
                 mk_reader RStart 0];
     consumers := [CWait; CWait; CWait; CWait] |}.

(** An [fread] that delivers three bytes and stops. *)
Definition short_read : Env :=
  {| fopen_ok := true; malloc_ok := true; malloc2_ok := true;
     fseek_ok := true; fread_stop := Some 3; create_ok := true |}.

(** The file cannot be opened. *)
Definition open_fails : Env :=
  {| fopen_ok := false; malloc_ok := true; malloc2_ok := true;
     fseek_ok := true; fread_stop := None; create_ok := true |}.

(** The orchestrator creates all threads, then every reader in turn finds
    that the file cannot be opened. *)
Definition open_failure_schedule (cfg : Config) : list Action :=
  replicate (NUM_CONSUMERS cfg + NUM_READERS cfg + 3) (ok Main)
  ++ List.map (fun i => (ReaderT i, open_fails)) (seq 0 (NUM_READERS cfg)).

(** A small configuration: blocks of four bytes, a queue of two, two
    readers and two consumers. *)
Definition small_config : Config :=
  {| BLOCK_SIZE := 4; MAX_QUEUE_SIZE := 2; NUM_READERS := 2;
     NUM_CONSUMERS := 2 |}.

(** The node cannot be allocated. *)
Definition node_alloc_fails : Env :=
  {| fopen_ok := true; malloc_ok := false; malloc2_ok := true;
     fseek_ok := true; fread_stop := None; create_ok := true |}.

End Inputs.

(** ** read_file.c: the single-threaded strategies *)

Module Strategies.
Import Crc64 Pipeline Invariants.

(** The four functions that read the file in one thread. *)
Inductive Method :=
| SequentialRead
| RandomRead
| SequentialMmap
| RandomMmap.

(** The lines of their own that these functions and [map_file] print. *)
Inductive SLine :=
| S_banner (m : Method)
| S_cannot_alloc
| S_cannot_stat
| S_cannot_map
| S_num_blocks (n : Z)
| S_read (bytes total : Z)
| S_read_block (index offset size : Z)
| S_processed (bytes total : Z)
| S_processed_block (index offset size : Z)
| S_total_bytes (n : Z)
| S_timing (m : Method).

(** What they print: lines they share with the pipeline (the messages of
    [get_file_size] and the hash line), or lines of their own. *)
Inductive Out :=
| Shared (l : Line)
| Own (l : SLine).

(** [if (verbosity >= level) printf(...)]. *)
Definition out (verbosity level : Z) (o : Out) : list Out :=
  if level <=? verbosity then [o] else [].

(** The lines printed by a call of [get_file_size]. *)
Definition shared_lines (evs : list Event) : list Out :=
  Shared <$> printed evs.

(** [print_results]; the time that [timer_end_print] prints is left out. *)
Definition print_results (verbosity : Z) (m : Method) (hash total_bytes : Z)
    : list Out :=
  out verbosity 1 (Shared (L_hash hash))
  ++ out verbosity 2 (Own (S_total_bytes total_bytes))
  ++ [Own (S_timing m)].

(** [(offset + BLOCK_SIZE > file_size) ? (file_size - offset) : BLOCK_SIZE] *)
Definition clamp_block (cfg : Config) (fsize offset : Z) : Z :=
  if fsize <? u64 (offset + BLOCK_SIZE cfg) then u64 (fsize - offset)
  else BLOCK_SIZE cfg.

(** The locals of a reading loop, with the statics of the checksum, the
    position of the stream, the number of [fread] calls made (the index into
    the answers of the C library) and the lines printed so far. *)
Record Scan := mk_scan {
  hash_xor : Z;
  total_bytes : Z;
  statics : crc_state;
  position : Z;
  calls : nat;
  lines : list Out
}.

(** *** sequential_read *)

(** [while ((bytes_read = fread(buffer, 1, BLOCK_SIZE, file)) > 0) ...];
    [None] when the fuel does not suffice. *)
Fixpoint sequential_read_loop (fuel : nat) (cfg : Config) (verbosity : Z)
    (reads : nat -> Env) (file : list byte) (st : Scan) : option Scan :=
  match fuel with
  | O => None
  | S fuel' =>
      let buf := fread (reads (calls st)) file (position st) (BLOCK_SIZE cfg) in
      let bytes_read := Z.of_nat (length buf) in
      if 0 <? bytes_read then
        let '(h, c) :=
          process_block_xor (statics st) (hash_xor st) buf bytes_read in
        let total := u64 (total_bytes st + bytes_read) in
        sequential_read_loop fuel' cfg verbosity reads file
          (mk_scan h total c (position st + bytes_read) (S (calls st))
             (lines st ++ out verbosity 2 (Own (S_read bytes_read total))))
      else
        Some (mk_scan (hash_xor st) (total_bytes st) (statics st)
                (position st) (S (calls st)) (lines st))
  end.

(** [sequential_read]: [e0] answers the calls of [get_file_size], [e1] the
    [fopen] and the [malloc] of the function itself, [reads] the successive
    calls of [fread].  The result is the statics of the checksum and the
    lines printed; [None] if the loop does not end. *)
Definition sequential_read (cfg : Config) (verbosity : Z) (e0 e1 : Env)
    (reads : nat -> Env) (file : list byte) (c : crc_state)
    : option (crc_state * list Out) :=
  let banner := out verbosity 2 (Own (S_banner SequentialRead)) in
  match get_file_size verbosity e0 file with
  | (None, evs) => Some (c, banner ++ shared_lines evs)
  | (Some fsize, evs) =>
      let pre := banner ++ shared_lines evs in
      if negb (fopen_ok e1) then
        Some (c, pre ++ out verbosity 2 (Shared L_cannot_open))
      else
        let c1 := crc64_init c in
        if negb (malloc_ok e1) then
          Some (c1, pre ++ out verbosity 2 (Own S_cannot_alloc))
        else
          match sequential_read_loop (S (length file)) cfg verbosity reads
                  file (mk_scan 0 0 c1 0 0 pre) with
          | None => None
          | Some st =>
              Some (statics st,
                    lines st
                    ++ print_results verbosity SequentialRead
                         (hash_xor st) (total_bytes st))
          end
  end.

(** *** random_read *)

(** One of the two blocks of an iteration of [random_read]: [fseek] (its
    result is not looked at; when it fails the position stays), [fread],
    and the fold of the block when bytes were read. *)
Definition read_block (cfg : Config) (verbosity : Z) (reads : nat -> Env)
    (file : list byte) (fsize : Z) (block : Z) (st : Scan) : Scan :=
  let offset := u64 (block * BLOCK_SIZE cfg) in
  let block_size := clamp_block cfg fsize offset in
  let e := reads (calls st) in
  let pos := if fseek_ok e then offset else position st in
  let buf := fread e file pos block_size in
  let bytes_read := Z.of_nat (length buf) in
  if 0 <? bytes_read then
    let '(h, c) :=
      process_block_xor (statics st) (hash_xor st) buf bytes_read in
    mk_scan h (u64 (total_bytes st + bytes_read)) c (pos + bytes_read)
      (S (calls st))
      (lines st
       ++ out verbosity 2 (Own (S_read_block block offset bytes_read)))
  else
    mk_scan (hash_xor st) (total_bytes st) (statics st) pos (S (calls st))
      (lines st).

(** The blocks of iteration [i]: [first_block = i] and
    [last_block = num_blocks - 1 - i], with the two tests of the source. *)
Definition first_block_due (num_blocks i : Z) : bool := i <? num_blocks.

Definition last_block (num_blocks i : Z) : Z := u64 (num_blocks - 1 - i).

Definition last_block_due (num_blocks i : Z) : bool :=
  negb (last_block num_blocks i =? i) && (last_block num_blocks i <? num_blocks).

(** [for (size_t i = 0; i < (num_blocks + 1) / 2; i++)], [n] iterations
    left, for a loop body [visit]. *)
Fixpoint alternate_loop {St : Type} (visit : Z -> St -> St) (num_blocks : Z)
    (n : nat) (i : Z) (st : St) : St :=
  match n with
  | O => st
  | S n' =>
      let st1 := if first_block_due num_blocks i then visit i st else st in
      let st2 :=
        if last_block_due num_blocks i
        then visit (last_block num_blocks i) st1 else st1 in
      alternate_loop visit num_blocks n' (i + 1) st2
  end.

Definition alternate_iterations (num_blocks : Z) : nat :=
  Z.to_nat (u64 (num_blocks + 1) / 2).

Definition random_read (cfg : Config) (verbosity : Z) (e0 e1 : Env)
    (reads : nat -> Env) (file : list byte) (c : crc_state)
    : crc_state * list Out :=
  let banner := out verbosity 2 (Own (S_banner RandomRead)) in
  match get_file_size verbosity e0 file with
  | (None, evs) => (c, banner ++ shared_lines evs)
  | (Some fsize, evs) =>
      let pre := banner ++ shared_lines evs in
      if negb (fopen_ok e1) then
        (c, pre ++ out verbosity 2 (Shared L_cannot_open))
      else
        let num_blocks := block_count cfg fsize in
        let pre := pre ++ out verbosity 2 (Own (S_num_blocks num_blocks)) in
        let c1 := crc64_init c in
        if negb (malloc_ok e1) then
          (c1, pre ++ out verbosity 2 (Own S_cannot_alloc))
        else
          let st :=
            alternate_loop (read_block cfg verbosity reads file fsize)
              num_blocks (alternate_iterations num_blocks) 0
              (mk_scan 0 0 c1 0 0 pre) in
          (statics st,
           lines st
           ++ print_results verbosity RandomRead (hash_xor st)
                (total_bytes st))
  end.

(** *** map_file and the two mmap strategies *)

(** What [open], [fstat] and [mmap] answer. *)
Record MapEnv := mk_map_env {
  open_ok : bool;
  fstat_ok : bool;
  mmap_ok : bool
}.

Definition map_ok : MapEnv :=
  {| open_ok := true; fstat_ok := true; mmap_ok := true |}.

(** [map_file]: the size written to [*file_size] when the mapping is
    returned, [None] for [NULL]. *)
Definition map_file (verbosity : Z) (me : MapEnv) (file : list byte)
    : option Z * list Out :=
  if negb (open_ok me) then (None, out verbosity 2 (Shared L_cannot_open))
  else if negb (fstat_ok me) then (None, out verbosity 2 (Own S_cannot_stat))
  else
    let fsize := u64 (Z.of_nat (length file)) in
    if fsize =? 0 then (None, out verbosity 2 (Shared L_file_empty))
    else
      let o := out verbosity 2 (Shared (L_file_size fsize)) in
      if negb (mmap_ok me) then (None, o ++ out verbosity 2 (Own S_cannot_map))
      else (Some fsize, o).

(** [process_block_xor(file_ptr + offset, block_size, &hash_xor)] on the
    mapping, as both mmap strategies call it. *)
Definition fold_mapped (file : list byte) (offset block_size : Z) (st : Scan)
    : Z * crc_state :=
  process_block_xor (statics st) (hash_xor st)
    (drop (Z.to_nat offset) file) block_size.

(** [while (offset < file_size) ...] of [sequential_mmap]; [None] when the
    fuel does not suffice.  [position] holds [offset]. *)
Fixpoint sequential_mmap_loop (fuel : nat) (cfg : Config) (verbosity : Z)
    (file : list byte) (fsize : Z) (st : Scan) : option Scan :=
  match fuel with
  | O => None
  | S fuel' =>
      let offset := position st in
      if offset <? fsize then
        let block_size := clamp_block cfg fsize offset in
        let '(h, c) := fold_mapped file offset block_size st in
        let total := u64 (total_bytes st + block_size) in
        sequential_mmap_loop fuel' cfg verbosity file fsize
          (mk_scan h total c (u64 (offset + block_size)) (calls st)
             (lines st ++ out verbosity 2 (Own (S_processed block_size total))))
      else Some st
  end.

Definition sequential_mmap (cfg : Config) (verbosity : Z) (me : MapEnv)
    (file : list byte) (c : crc_state) : option (crc_state * list Out) :=
  let banner := out verbosity 2 (Own (S_banner SequentialMmap)) in
  match map_file verbosity me file with
  | (None, o) => Some (c, banner ++ o)
  | (Some fsize, o) =>
      match sequential_mmap_loop (S (length file)) cfg verbosity file fsize
              (mk_scan 0 0 (crc64_init c) 0 0 (banner ++ o)) with
      | None => None
      | Some st =>
          Some (statics st,
                lines st
                ++ print_results verbosity SequentialMmap (hash_xor st)
                     (total_bytes st))
      end
  end.

(** One of the two blocks of an iteration of [random_mmap]. *)
Definition map_block (cfg : Config) (verbosity : Z) (file : list byte)
    (fsize : Z) (block : Z) (st : Scan) : Scan :=
  let offset := u64 (block * BLOCK_SIZE cfg) in
  let block_size := clamp_block cfg fsize offset in
  let '(h, c) := fold_mapped file offset block_size st in
  mk_scan h (u64 (total_bytes st + block_size)) c (position st) (calls st)
    (lines st
     ++ out verbosity 2 (Own (S_processed_block block offset block_size))).

Definition random_mmap (cfg : Config) (verbosity : Z) (me : MapEnv)
    (file : list byte) (c : crc_state) : crc_state * list Out :=
  let banner := out verbosity 2 (Own (S_banner RandomMmap)) in
  match map_file verbosity me file with
  | (None, o) => (c, banner ++ o)
  | (Some fsize, o) =>
      let num_blocks := block_count cfg fsize in
      let pre := banner ++ o ++ out verbosity 2 (Own (S_num_blocks num_blocks)) in
      let st :=
        alternate_loop (map_block cfg verbosity file fsize) num_blocks
          (alternate_iterations num_blocks) 0
          (mk_scan 0 0 (crc64_init c) 0 0 pre) in
      (statics st,
       lines st
       ++ print_results verbosity RandomMmap (hash_xor st) (total_bytes st))
  end.

(** Observations on the output. *)
Definition hash_lines (o : list Out) : list Z :=
  omap (fun x => match x with Shared (L_hash h) => Some h | _ => None end) o.

(** The lines of [print_results], as opposed to banners, error messages
    and progress lines. *)
Definition is_result (o : Out) : bool :=
  match o with
  | Shared (L_hash _) | Own (S_total_bytes _) | Own (S_timing _) => true
  | _ => false
  end.

Definition results (o : list Out) : list Out := List.filter is_result o.

(** The blocks that the alternating strategies report to have read or
    processed, in order. *)
Definition blocks_visited (o : list Out) : list Z :=
  omap (fun x => match x with
                 | Own (S_read_block i _ _) => Some i
                 | Own (S_processed_block i _ _) => Some i
                 | _ => None
                 end) o.

(** The order in which the two alternating strategies are meant to visit
    [num_blocks] blocks: first, last, second, second to last, ... *)
Definition alternate_order (num_blocks : Z) : list Z :=
  zseq ((num_blocks + 1) / 2) ≫=
    (fun i => if num_blocks - 1 - i =? i then [i]
              else [i; num_blocks - 1 - i]).

(** *** read_file: the four strategies in a row

    The answers of the C library to the four calls. *)
Record SyncEnv := mk_sync_env {
  seq_size : Env;
  seq_open : Env;
  seq_reads : nat -> Env;
  rnd_size : Env;
  rnd_open : Env;
  rnd_reads : nat -> Env;
  seq_map : MapEnv;
  rnd_map : MapEnv
}.

(** [read_file] up to its last call, [async_sequential_read], which runs
    next on the statics returned here. *)
Definition read_file_sync (cfg : Config) (verbosity : Z) (e : SyncEnv)
    (file : list byte) (c : crc_state) : option (crc_state * list Out) :=
  match sequential_read cfg verbosity (seq_size e) (seq_open e) (seq_reads e)
          file c with
  | None => None
  | Some (c1, o1) =>
      let '(c2, o2) :=
        random_read cfg verbosity (rnd_size e) (rnd_open e) (rnd_reads e)
          file c1 in
      match sequential_mmap cfg verbosity (seq_map e) file c2 with
      | None => None
      | Some (c3, o3) =>
          let '(c4, o4) := random_mmap cfg verbosity (rnd_map e) file c3 in
          Some (c4, o1 ++ o2 ++ o3 ++ o4)
      end
  end.

(** No call fails and no read is short. *)
Definition reads_ok (reads : nat -> Env) : Prop :=
  forall i, fseek_ok (reads i) = true /\ fread_stop (reads i) = None.

Definition sync_ok (e : SyncEnv) : Prop :=
  fopen_ok (seq_size e) = true
  /\ fopen_ok (seq_open e) = true /\ malloc_ok (seq_open e) = true
  /\ reads_ok (seq_reads e)
  /\ fopen_ok (rnd_size e) = true
  /\ fopen_ok (rnd_open e) = true /\ malloc_ok (rnd_open e) = true
  /\ reads_ok (rnd_reads e)
  /\ seq_map e = map_ok /\ rnd_map e = map_ok.

(** The answers when nothing fails. *)
Definition sync_env_ok : SyncEnv :=
  {| seq_size := env_ok; seq_open := env_ok; seq_reads := fun _ => env_ok;
     rnd_size := env_ok; rnd_open := env_ok; rnd_reads := fun _ => env_ok;
     seq_map := map_ok; rnd_map := map_ok |}.

End Strategies.

(** ** read_file.c: the command line *)

Module CommandLine.

(** The lines that [main] prints. *)
Inductive MLine :=
| M_bad_level                  (* Error: Verbosity level must be 0, 1, or 2 *)
| M_needs_level                (* Error: -v/--verbose requires a level *)
| M_unknown (option : string)  (* Unknown option: %s *)
| M_missing_file               (* Error: Missing <file> argument *)
| M_usage (prog : string)      (* Usage: %s [options] <file> *)
| M_usage_verbose              (*   -v, --verbose LEVEL ... *)
| M_usage_help                 (*   -h, --help ... *)
| M_levels                     (* Verbosity levels: *)
| M_level (n : Z)              (*   n: ... *)
| M_verbosity (v : Z)          (* Verbosity level: %d *)
| M_input_file (name : string). (* Input file: %s *)

(** How [main] ends: with a [return] before any file is read, or by calling
    [read_file] (after which it returns 0). *)
Inductive Outcome :=
| Exit (code : Z)
| Run (verbosity : Z) (filename : string).

(** [argv[i][0] == '-'] *)
Definition is_option (arg : string) : bool :=
  match arg with
  | String c _ => Ascii.eqb c "-"%char
  | EmptyString => false
  end.

(** The loop over the options and what follows it, on the arguments from
    [argv[i]] on; [atoi] is the function of the C library. *)
Fixpoint parse (atoi : string -> Z) (prog : string) (args : list string)
    (verbosity : Z) : list MLine * Outcome :=
  match args with
  | [] => ([M_missing_file; M_usage prog], Exit 1)
  | arg :: rest =>
      if is_option arg then
        if String.eqb arg "-v" || String.eqb arg "--verbose" then
          match rest with
          | level :: rest' =>
              let verbosity := atoi level in
              if (verbosity <? 0) || (2 <? verbosity) then
                ([M_bad_level; M_usage prog; M_usage_verbose; M_usage_help],
                 Exit 1)
              else parse atoi prog rest' verbosity
          | [] => ([M_needs_level; M_usage prog], Exit 1)
          end
        else if String.eqb arg "-h" || String.eqb arg "--help" then
          ([M_usage prog; M_usage_verbose; M_usage_help; M_levels;
            M_level 0; M_level 1; M_level 2],
           Exit 0)
        else ([M_unknown arg; M_usage prog], Exit 1)
      else
        ((if 2 <=? verbosity
          then [M_verbosity verbosity; M_input_file arg] else []),
         Run verbosity arg)
  end.

(** [main] on [argv = prog :: args]; the global [verbosity] starts at 1. *)
Definition main (atoi : string -> Z) (prog : string) (args : list string)
    : list MLine * Outcome :=
  parse atoi prog args 1.

(** The arguments of well-formed verbosity options: flag and level. *)
Definition option_words (pairs : list (string * string)) : list string :=
  pairs ≫= (fun p => [fst p; snd p]).

(** An [atoi] for the examples: the value of a string of one decimal
    digit, 0 for anything else. *)
Definition atoi_digit (s : string) : Z :=
  match s with
  | String c EmptyString =>
      if Ascii.eqb c "1"%char then 1
      else if Ascii.eqb c "2"%char then 2
      else if Ascii.eqb c "3"%char then 3
      else 0
  | _ => 0
  end.

End CommandLine.

(** ** Accounting of the two semaphores *)

Module Accounting.
Import Crc64 Pipeline Invariants.

(** A slot taken from [empty_slots] that is neither a queued node nor given
    back yet: held by a reader between its [sem_wait] and the link (or, when
    the allocation failed, the [sem_post] that returns it), or by a consumer
    between the unlink and its [sem_post]. *)
Definition reader_slot (r : Reader) : Z :=
  match r_pc r with
  | REnqueueLocked _ | REnqueuePost _ false => 1
  | _ => 0
  end.

Definition consumer_slot (c : ConsumerPc) : Z :=
  match c with
  | CRelease _ => 1
  | _ => 0
  end.

(** A signal of [full_slots] in the hands of a thread: owed by a reader that
    has linked its node and not posted yet, or taken by a consumer that has
    not looked at the queue yet or is about to post it back. *)
Definition reader_signal (r : Reader) : Z :=
  match r_pc r with
  | REnqueuePost _ true => 1
  | _ => 0
  end.

Definition consumer_signal (c : ConsumerPc) : Z :=
  match c with
  | CLocked | CRepost => 1
  | _ => 0
  end.

(** The wake-up signals the orchestrator has posted. *)
Definition wakeups (cfg : Config) (pc : MainPc) : Z :=
  match pc with
  | MWake i => Z.of_nat i
  | MJoinConsumers | MReturned Reported => Z.of_nat (NUM_CONSUMERS cfg)
  | _ => 0
  end.

(** Consumers that may have kept a signal for good: once the queue is
    drained, those at the top of their loop or gone. *)
Definition leaving (c : ConsumerPc) : Z :=
  match c with
  | CCheck | CExited => 1
  | _ => 0
  end.

Definition kept_signals (s : State) : Z :=
  if drained (queue s) then sum_with leaving (consumers s) else 0.

Record Acct (cfg : Config) (s : State) : Prop := mk_acct {
  acct_empty : started s -> 0 <= empty_slots (queue s);
  acct_full : started s -> 0 <= full_slots (queue s);
  acct_slots :
    started s ->
    empty_slots (queue s) + count (queue s)
    + sum_with reader_slot (readers s) + sum_with consumer_slot (consumers s)
    = MAX_QUEUE_SIZE cfg;
  acct_signals :
    started s ->
    count (queue s) + wakeups cfg (main_pc s)
    <= full_slots (queue s)
       + sum_with consumer_signal (consumers s)
       + sum_with reader_signal (readers s)
       + kept_signals s
}.

(** Thread [t] is not suspended: it can take a step in which no call
    fails. *)
Definition runnable (cfg : Config) (verbosity : Z) (file : list byte)
    (t : Tid) (s : State) : Prop :=
  is_Some (step cfg verbosity file (t, env_ok) s).

(** *** A measure of the work that is left

    In a run without failures every step other than the repost of a signal
    on an empty queue lowers the following measure. *)

(** Steps a reader still has to take when no block is left to claim; a
    claimed block costs four more. *)
Definition reader_rank (r : Reader) : Z :=
  match r_pc r with
  | RStart => 3
  | RClaim => 2
  | REnqueueWait _ => 5
  | REnqueueLocked _ => 4
  | REnqueuePost _ _ => 3
  | RMarkDone => 1
  | RExited | RAbsent => 0
  end.

(** A consumer while blocks may still come: how far it is from taking the
    next node, or from having folded the one it holds. *)
Definition busy_rank (c : ConsumerPc) : Z :=
  match c with
  | CLocked => 1
  | CWait => 2
  | CCheck => 3
  | CRepost => 4
  | CProcess _ => 6
  | CRelease _ => 7
  | CExited => 0
  end.

(** A consumer once the queue is drained: how far it is from leaving. *)
Definition drained_rank (c : ConsumerPc) : Z :=
  match c with
  | CExited => 0
  | CCheck => 1
  | CLocked | CRepost | CProcess _ => 2
  | CWait | CRelease _ => 3
  end.

(** The steps of the orchestrator that are left, weighted so as to pay for
    the threads it creates. *)
Definition main_rank (cfg : Config) (pc : MainPc) : Z :=
  let nc := Z.of_nat (NUM_CONSUMERS cfg) in
  let nr := Z.of_nat (NUM_READERS cfg) in
  match pc with
  | MStart => 4 * nc + 28 * nr + nc + 6
  | MCreateConsumers i => 4 * Z.max 0 (nc - Z.of_nat i) + 28 * nr + nc + 5
  | MCreateReaders i => 28 * Z.max 0 (nr - Z.of_nat i) + nc + 4
  | MJoinReaders => nc + 3
  | MWake i => Z.max 0 (nc - Z.of_nat i) + 2
  | MJoinConsumers => 1
  | MReturned _ => 0
  end.

Definition backlog (cfg : Config) (file : list byte) (s : State) : Z :=
  9 * (4 * (T cfg file - next_block (queue s))
       + sum_with reader_rank (readers s))
  + 8 * count (queue s)
  + sum_with busy_rank (consumers s).

Definition measure (cfg : Config) (file : list byte) (s : State) : Z :=
  main_rank cfg (main_pc s)
  + if drained (queue s) then sum_with drained_rank (consumers s)
    else 3 * Z.of_nat (NUM_CONSUMERS cfg) + 1 + backlog cfg file s.

(** The one step that does not lower the measure: a consumer that finds
    the queue empty and not drained will post its signal back. *)
Definition reposting (t : Tid) (s : State) : Prop :=
  match t with
  | ConsumerT cid =>
      consumers s !! cid = Some CLocked
      /\ count (queue s) = 0 /\ drained (queue s) = false
  | _ => False
  end.

(** In a run without failures the orchestrator does not take an error
    return on a non-empty file, and [reading_done] is set as soon as no
    reader is counted any more. *)
Record Live (cfg : Config) (file : list byte) (s : State) : Prop := mk_live {
  live_consumers : main_pc s <> MReturned NoConsumer;
  live_file : main_pc s = MReturned NoFile -> file = [];
  live_done :
    started s -> readers_handled cfg (main_pc s) <> None ->
    reading_done (queue s) = 1 \/ 0 < active_readers (queue s)
}.

End Accounting.

(** ** The byte totals of the readers *)

Module Totals.
Import Crc64 Pipeline Invariants.

(** The bytes a reader has read and not yet added to its [total_bytes]:
    those of the buffer it is handing to [enqueue_buffer]. *)
Definition pending_bytes (r : Reader) : Z :=
  match r_pc r with
  | REnqueueWait p | REnqueueLocked p | REnqueuePost p _ => bytes_read p
  | _ => 0
  end.

(** The local [total_bytes] of [reader_thread], which is declared, as 0,
    once the file is open and the buffer allocated. *)
Definition counted_bytes (r : Reader) : Z :=
  match r_pc r with
  | RStart => 0
  | _ => total_bytes r
  end.

Definition read_so_far (r : Reader) : Z := counted_bytes r + pending_bytes r.

(** The bytes of the blocks that have been claimed. *)
Definition claimed_bytes (cfg : Config) (file : list byte) (q : BufferQueue)
    : Z :=
  Z.min (next_block q * BLOCK_SIZE cfg) (Z.of_nat (length file)).

(** The totals of the lines "Reader %d: Completed, read %zu bytes". *)
Definition completed_totals (tr : list Event) : list Z :=
  omap (fun e => match e with
                 | Print (L_reader_completed _ t) => Some t
                 | _ => None
                 end) tr.

(** A reader that has printed that line, and the total it printed. *)
Definition has_completed (r : Reader) : Z :=
  match r_pc r with
  | RExited => 1
  | _ => 0
  end.

Definition completed_total (r : Reader) : Z :=
  match r_pc r with
  | RExited => total_bytes r
  | _ => 0
  end.

(** In a run without failures the readers have read the claimed blocks in
    full, and the lines of the readers that are done carry their totals. *)
Record Bytes (cfg : Config) (verbosity : Z) (file : list byte) (s : State)
    (tr : list Event) : Prop := mk_bytes {
  bytes_nonneg : Forall (fun r => 0 <= total_bytes r) (readers s);
  bytes_claimed :
    started s ->
    sum_with read_so_far (readers s) = claimed_bytes cfg file (queue s);
  bytes_printed :
    2 <= verbosity ->
    sum_with id (completed_totals tr) = sum_with completed_total (readers s)
    /\ Z.of_nat (length (completed_totals tr))
       = sum_with has_completed (readers s)
}.

End Totals.

(** ** The digests on their way to the accumulator *)

Module Tally.
Import Crc64 Pipeline Invariants.

(** A tally over the buffers that are between a reader's [fread] and a
    consumer's fold, each counted with the weight [w] of its digest: the
    buffer a reader is about to link, the queued nodes, and the node a
    consumer has unlinked. *)
Definition weigh_reader (w : Z -> Z) (r : Reader) : Z :=
  match r_pc r with
  | REnqueueWait p | REnqueueLocked p => w (spec_digest (p_buf p))
  | _ => 0
  end.

Definition weigh_consumer (w : Z -> Z) (c : ConsumerPc) : Z :=
  match c with
  | CRelease n | CProcess n => w (node_digest n)
  | _ => 0
  end.

Definition weigh_in_flight (w : Z -> Z) (s : State) : Z :=
  sum_with (fun n => w (node_digest n)) (nodes (queue s))
  + sum_with (weigh_reader w) (readers s)
  + sum_with (weigh_consumer w) (consumers s).

(** The digests of the first [n] blocks of the file. *)
Definition block_digests (cfg : Config) (file : list byte) (n : nat)
    : list Z :=
  (fun k => spec_digest (file_block cfg file k)) <$> seq 0 n.

(** In a run without failures, whatever the weight, the digests folded so
    far and those in flight weigh as much as the blocks claimed. *)
Definition Tallied (cfg : Config) (file : list byte) (s : State)
    (tr : list Event) : Prop :=
  forall w : Z -> Z,
    started s ->
    sum_with w (folded_digests tr) + weigh_in_flight w s
    = sum_with w (block_digests cfg file (Z.to_nat (next_block (queue s)))).

End Tally.

(** * Properties *)

(** ** Machine integers and XOR *)

Lemma byte_to_Z_range b : 0 <= byte_to_Z b < 256.
Proof.
  unfold byte_to_Z. pose proof (Byte.to_N_bounded b). lia.
Qed.

Lemma u64_small x : 0 <= x < 2 ^ 64 -> u64 x = x.
Proof. intros. unfold u64. by apply Z.mod_small. Qed.

Lemma u64_range x : 0 <= u64 x < 2 ^ 64.
Proof. unfold u64. apply Z.mod_pos_bound. lia. Qed.

Lemma lxor_u64_range a b :
  0 <= a < 2 ^ 64 -> 0 <= b < 2 ^ 64 -> 0 <= Z.lxor a b < 2 ^ 64.
Proof.
  intros [Ha Ha'] [Hb Hb'].
  assert (Hnn : 0 <= Z.lxor a b) by (apply Z.lxor_nonneg; lia).
  split; [done|].
  destruct (Z.eq_dec (Z.lxor a b) 0) as [->|Hne]; [lia|].
  apply Z.log2_lt_pow2; [lia|].
  eapply Z.le_lt_trans; [apply Z.log2_lxor; lia|].
  apply Z.max_lub_lt.
  - destruct (Z.eq_dec a 0) as [->|]; [simpl; lia|].
    apply Z.log2_lt_pow2; lia.
  - destruct (Z.eq_dec b 0) as [->|]; [simpl; lia|].
    apply Z.log2_lt_pow2; lia.
Qed.

Lemma shiftr_u64_range a n :
  0 <= n -> 0 <= a < 2 ^ 64 -> 0 <= Z.shiftr a n < 2 ^ 64.
Proof.
  intros Hn [Ha Ha']. rewrite Z.shiftr_div_pow2 by done.
  assert (0 < 2 ^ n) by (apply Z.pow_pos_nonneg; lia).
  split; [apply Z.div_pos; lia|].
  eapply Z.le_lt_trans; [|exact Ha'].
  apply Z.div_le_upper_bound; [lia|]. nia.
Qed.

Lemma fold_left_pointwise {A B} (f g : A -> B -> A) l a :
  (forall x y, f x y = g x y) -> fold_left f l a = fold_left g l a.
Proof.
  intros Hfg. revert a. induction l as [|y l IH]; intros a; [done|].
  cbn [fold_left]. by rewrite Hfg, IH.
Qed.

(** ** crc64_simple.c *)

Section Crc64Facts.
Import Crc64.

Lemma crc64_shift_odd poly c :
  crc64_shift poly c =
  if Z.odd c then Z.lxor (Z.shiftr c 1) poly else Z.shiftr c 1.
Proof.
  unfold crc64_shift.
  change 1 with (Z.ones 1) at 1. rewrite Z.land_ones by lia.
  change (2 ^ 1) with 2. rewrite Zmod_odd.
  by destruct (Z.odd c).
Qed.

Lemma crc64_shift_loop_iter n poly c :
  crc64_shift_loop n poly c = Nat.iter n (crc64_shift poly) c.
Proof.
  revert c. induction n as [|n IH]; intros c; [done|].
  cbn [crc64_shift_loop]. rewrite IH. by rewrite Nat.iter_succ_r.
Qed.

Lemma crc64_shift_loop_spec i :
  crc64_shift_loop 8 CRC64_POLY_ECMA i = spec_table_entry i.
Proof.
  rewrite crc64_shift_loop_iter. unfold spec_table_entry.
  generalize 8%nat. intros n. induction n as [|n IH]; [done|].
  rewrite !Nat.iter_succ, IH. apply crc64_shift_odd.
Qed.

Lemma crc64_init_loop_length n i poly t :
  length (crc64_init_loop n i poly t) = length t.
Proof.
  revert i t. induction n as [|n IH]; intros i t; [done|].
  cbn [crc64_init_loop]. by rewrite IH, length_insert.
Qed.

Lemma crc64_init_loop_lookup n i poly t (k : nat) :
  (i + n <= length t)%nat ->
  crc64_init_loop n i poly t !! k =
  if decide (i <= k < i + n)%nat
  then Some (crc64_shift_loop 8 poly (Z.of_nat k))
  else t !! k.
Proof.
  revert i t. induction n as [|n IH]; intros i t Hlen.
  - cbn [crc64_init_loop]. case_decide; [lia|done].
  - cbn [crc64_init_loop]. rewrite IH by (rewrite length_insert; lia).
    repeat case_decide; try lia; try done.
    + assert (k = i) as -> by lia.
      by rewrite list_lookup_insert_eq by lia.
    + by rewrite list_lookup_insert_ne by lia.
Qed.

(** Whatever the 256 cells held, the loop leaves the table of the
    specification in them. *)
Lemma crc64_init_loop_table t :
  length t = 256%nat ->
  crc64_init_loop 256 0 CRC64_POLY_ECMA t = spec_table.
Proof.
  intros Hlen. apply list_eq. intros k.
  rewrite crc64_init_loop_lookup by lia.
  unfold spec_table. rewrite list_lookup_fmap.
  case_decide as Hk.
  - rewrite lookup_seq_lt by lia. by rewrite crc64_shift_loop_spec.
  - rewrite lookup_seq_ge by lia.
    apply lookup_ge_None. lia.
Qed.

Lemma built_table_spec : built_table = spec_table.
Proof. by apply crc64_init_loop_table. Qed.

Lemma crc64_init_wf st : crc_wf st -> crc_wf (crc64_init st).
Proof.
  intros [Hlen Htab]. unfold crc64_init.
  destruct (crc64_initialized st =? 0) eqn:E; cbn [negb].
  - split; cbn [crc64_table crc64_initialized].
    + by rewrite crc64_init_loop_length.
    + intros _. rewrite crc64_init_loop_table by done.
      by rewrite built_table_spec.
  - by split.
Qed.

Lemma crc64_init_table st :
  crc_wf st -> crc64_table (crc64_init st) = spec_table.
Proof.
  intros [Hlen Htab]. unfold crc64_init.
  destruct (crc64_initialized st =? 0) eqn:E; cbn [negb].
  - cbn [crc64_table]. by apply crc64_init_loop_table.
  - rewrite <- built_table_spec. apply Htab. lia.
Qed.

Lemma crc64_init_flag st : crc64_initialized (crc64_init st) <> 0.
Proof.
  unfold crc64_init.
  destruct (crc64_initialized st =? 0) eqn:E; cbn [negb crc64_initialized];
    lia.
Qed.

(** [crc64_init] is idempotent: a second call is a no-op. *)
Lemma crc64_init_idem st : crc64_init (crc64_init st) = crc64_init st.
Proof.
  unfold crc64_init at 1.
  pose proof (crc64_init_flag st) as H.
  destruct (crc64_initialized (crc64_init st) =? 0) eqn:E; [lia|done].
Qed.

Lemma read_table_spec k :
  0 <= k < 256 -> read_table spec_table k = spec_table_entry k.
Proof.
  intros Hk. unfold read_table, spec_table.
  rewrite list_lookup_fmap, lookup_seq_lt by lia.
  rewrite Nat.add_0_l. rewrite <- (Z2Nat.id k) at 2 by lia. reflexivity.
Qed.

Lemma land_255_range x : 0 <= Z.land x 0xFF < 256.
Proof.
  change 0xFF with (Z.ones 8). rewrite Z.land_ones by lia.
  apply Z.mod_pos_bound. lia.
Qed.

Lemma crc64_byte_spec crc b :
  crc64_byte spec_table crc b =
  Z.lxor (spec_table_entry (Z.land (Z.lxor crc b) 0xFF)) (Z.shiftr crc 8).
Proof.
  unfold crc64_byte. by rewrite read_table_spec by apply land_255_range.
Qed.

Lemma crc64_update_loop_fold tbl buf n i crc :
  (i + n <= length buf)%nat ->
  crc64_update_loop tbl buf n i crc =
  fold_left (fun c b => crc64_byte tbl c (byte_to_Z b))
    (take n (drop i buf)) crc.
Proof.
  revert i crc. induction n as [|n IH]; intros i crc Hlen; [done|].
  cbn [crc64_update_loop].
  destruct (lookup_lt_is_Some_2 buf i) as [x Hx]; [lia|].
  rewrite (drop_S _ _ _ Hx). cbn [take fold_left].
  rewrite IH by lia. unfold read_byte. by rewrite Hx.
Qed.

Lemma spec_table_entry_range k :
  0 <= k < 256 -> 0 <= spec_table_entry k < 2 ^ 64.
Proof.
  intros Hk.
  assert (Hall : forallb (fun x => (0 <=? x) && (x <? 2 ^ 64)) spec_table
                 = true) by (vm_compute; reflexivity).
  rewrite forallb_forall in Hall.
  specialize (Hall (spec_table_entry k)).
  assert (Hin : In (spec_table_entry k) spec_table).
  { unfold spec_table. apply in_map_iff. exists (Z.to_nat k).
    split; [f_equal; lia|]. apply in_seq. lia. }
  apply Hall in Hin. lia.
Qed.

Lemma spec_digest_step_range crc b :
  0 <= crc < 2 ^ 64 ->
  0 <= Z.lxor (spec_table_entry (Z.land (Z.lxor crc b) 0xFF))
         (Z.shiftr crc 8) < 2 ^ 64.
Proof.
  intros Hc. apply lxor_u64_range.
  - apply spec_table_entry_range, land_255_range.
  - apply shiftr_u64_range; lia.
Qed.

Lemma spec_digest_fold_range buf c :
  0 <= c < 2 ^ 64 ->
  0 <= fold_left
         (fun crc b =>
            Z.lxor (spec_table_entry (Z.land (Z.lxor crc (byte_to_Z b)) 0xFF))
                   (Z.shiftr crc 8))
         buf c < 2 ^ 64.
Proof.
  revert c. induction buf as [|b buf IH]; intros c Hc; [done|].
  cbn [fold_left]. apply IH. by apply spec_digest_step_range.
Qed.

Lemma spec_digest_range buf : 0 <= spec_digest buf < 2 ^ 64.
Proof. apply spec_digest_fold_range. lia. Qed.

(** The checksum computed from well-formed statics is the fold of the
    specification, and the statics come back initialised. *)
Lemma crc64_compute_wf st buf len :
  crc_wf st -> 0 <= len <= Z.of_nat (length buf) ->
  crc64_compute st buf len = (spec_digest (take (Z.to_nat len) buf), crc64_init st).
Proof.
  intros Hwf Hlen. unfold crc64_compute, crc64_update. f_equal.
  rewrite crc64_init_table by done.
  rewrite crc64_update_loop_fold by lia.
  rewrite drop_0. unfold spec_digest.
  apply fold_left_pointwise. intros c b. apply crc64_byte_spec.
Qed.

End Crc64Facts.

(** ** The accumulator *)

Section Accumulator.
Import Crc64 Pipeline.

Lemma fold_lxor_perm (l l' : list Z) h :
  Permutation l l' -> fold_left Z.lxor l h = fold_left Z.lxor l' h.
Proof.
  intros Hp. revert h.
  induction Hp as [|x l l' _ IH|x y l|l l' l'' _ IH1 _ IH2]; intros h.
  - done.
  - cbn [fold_left]. apply IH.
  - cbn [fold_left]. f_equal.
    rewrite !Z.lxor_assoc. f_equal. apply Z.lxor_comm.
  - by rewrite IH1.
Qed.

Lemma process_block_xor_wf c h buf :
  crc_wf c ->
  process_block_xor c h buf (Z.of_nat (length buf)) =
  (Z.lxor h (spec_digest buf), crc64_init c).
Proof.
  intros Hwf. unfold process_block_xor.
  rewrite crc64_compute_wf by (done || lia).
  by rewrite Nat2Z.id, firstn_all.
Qed.

Lemma process_buffer_data_wf v cid c h buf :
  crc_wf c ->
  process_buffer_data v cid c h buf (Z.of_nat (length buf)) =
  (Z.lxor h (spec_digest buf), crc64_init c,
   Folded cid (spec_digest buf)
   :: say v 2 (L_processed (Z.of_nat (length buf)) (spec_digest buf))).
Proof.
  intros Hwf. unfold process_buffer_data.
  rewrite crc64_compute_wf by (done || lia).
  by rewrite Nat2Z.id, firstn_all.
Qed.

Lemma hash_blocks_fold c h blocks :
  crc_wf c ->
  fst (hash_blocks c h blocks) =
  fold_left Z.lxor (List.map spec_digest blocks) h.
Proof.
  unfold hash_blocks. revert c h.
  induction blocks as [|b blocks IH]; intros c h Hwf; [done|].
  cbn [fold_left List.map fst snd].
  rewrite process_block_xor_wf by done.
  apply IH. by apply crc64_init_wf.
Qed.

Lemma fold_buffers_fold v cid c h bufs :
  crc_wf c ->
  fst (fold_buffers v cid c h bufs) =
  fold_left Z.lxor (List.map spec_digest bufs) h.
Proof.
  unfold fold_buffers. revert c h.
  induction bufs as [|b bufs IH]; intros c h Hwf; [done|].
  cbn [fold_left List.map fst snd].
  rewrite process_buffer_data_wf by done.
  apply IH. by apply crc64_init_wf.
Qed.

End Accumulator.

(** ** Claims on the checksum and the accumulator *)

Section ChecksumClaims.
Import Crc64 Pipeline.

Example crc64_compute_check_value :
  fst (crc64_compute crc_static check_bytes 9) = 0x4DB9A9F87EC10C59.
Proof. vm_compute. reflexivity. Qed.

Example crc_static_wf : crc_wf crc_static.
Proof. split; [reflexivity|]. intros H. exfalso. apply H. reflexivity. Qed.

(** C6.  From well-formed statics (fresh, or already initialised by an
    earlier call), [crc64_compute data len] is the fold of the bytes
    [data[0..len)], in order and from 0, through
    [crc = table[(crc ^ byte) & 0xFF] ^ (crc >> 8)], where [table] is the
    256-entry table built from the polynomial 0x42F0E1EBA9EA3693 by eight
    shift/XOR rounds per entry; the call leaves that table in the statics.
    So the digest depends on the byte content only: not on the statics it
    started from (the call history), nor on bytes past [len]; it is 0 for
    [len = 0] and always fits 64 bits. *)
Theorem crc64_compute_table_fold (st : crc_state) (buf : list byte) (len : Z) :
  crc_wf st ->
  0 <= len <= Z.of_nat (length buf) ->
  fst (crc64_compute st buf len) = spec_digest (take (Z.to_nat len) buf)
  /\ crc64_table (snd (crc64_compute st buf len)) = spec_table
  /\ length spec_table = 256%nat
  /\ CRC64_POLY_ECMA = 0x42F0E1EBA9EA3693
  /\ (forall st' buf',
        crc_wf st' ->
        0 <= len <= Z.of_nat (length buf') ->
        take (Z.to_nat len) buf' = take (Z.to_nat len) buf ->
        fst (crc64_compute st' buf' len) = fst (crc64_compute st buf len))
  /\ (len = 0 -> fst (crc64_compute st buf len) = 0)
  /\ 0 <= fst (crc64_compute st buf len) < 2 ^ 64.
Proof.
  intros Hwf Hlen. rewrite crc64_compute_wf by done. cbn [fst snd].
  split; [done|]. split; [by apply crc64_init_table|].
  split; [reflexivity|]. split; [reflexivity|]. split; [|split].
  - intros st' buf' Hwf' Hlen' Heq.
    rewrite crc64_compute_wf by done. cbn [fst]. by rewrite Heq.
  - intros ->. reflexivity.
  - apply spec_digest_range.
Qed.

Lemma crc64_compute_table_fold_witness :
  fst (crc64_compute crc_static check_bytes 9)
  = spec_digest (take (Z.to_nat 9) check_bytes).
Proof.
  refine (proj1 (crc64_compute_table_fold crc_static check_bytes 9 _ _)).
  - split; [reflexivity|]. intros H. exfalso. apply H. reflexivity.
  - simpl. lia.
Defined.

(** C1.  Folding the CRC64 digests of a collection of blocks into the
    accumulator by XOR, starting from 0, gives the same value for every
    order of the blocks, whether the fold is the one of the consumers
    ([process_buffer_data]) or the one of the single-threaded readers
    ([process_block_xor]); XOR on digests is commutative, associative, has
    identity 0, is its own inverse and stays within 64 bits. *)
Theorem xor_fold_order_independent (v : Z) (cid : nat) (c : crc_state)
    (blocks blocks' : list (list byte)) :
  crc_wf c ->
  Permutation blocks blocks' ->
  fst (fold_buffers v cid c 0 blocks) = fst (fold_buffers v cid c 0 blocks')
  /\ fst (hash_blocks c 0 blocks) = fst (hash_blocks c 0 blocks')
  /\ fst (fold_buffers v cid c 0 blocks) = fst (hash_blocks c 0 blocks')
  /\ (forall h b, fst (hash_blocks c h [b; b]) = h)
  /\ (forall d1 d2, Z.lxor d1 d2 = Z.lxor d2 d1)
  /\ (forall d1 d2 d3, Z.lxor (Z.lxor d1 d2) d3 = Z.lxor d1 (Z.lxor d2 d3))
  /\ (forall d, Z.lxor d d = 0)
  /\ (forall d, Z.lxor 0 d = d)
  /\ (forall d1 d2,
        0 <= d1 < 2 ^ 64 -> 0 <= d2 < 2 ^ 64 -> 0 <= Z.lxor d1 d2 < 2 ^ 64).
Proof.
  intros Hwf Hp.
  assert (Hm : Permutation (List.map spec_digest blocks)
                 (List.map spec_digest blocks'))
    by (by apply Permutation_map).
  rewrite !fold_buffers_fold, !hash_blocks_fold by done.
  repeat apply conj.
  - by apply fold_lxor_perm.
  - by apply fold_lxor_perm.
  - by apply fold_lxor_perm.
  - intros h b. rewrite hash_blocks_fold by done. cbn [List.map fold_left].
    by rewrite Z.lxor_assoc, Z.lxor_nilpotent, Z.lxor_0_r.
  - apply Z.lxor_comm.
  - apply Z.lxor_assoc.
  - apply Z.lxor_nilpotent.
  - apply Z.lxor_0_l.
  - intros d1 d2 H1 H2. by apply lxor_u64_range.
Qed.

Lemma xor_fold_order_independent_witness :
  fst (fold_buffers 1 0 crc_static 0 [[x31; x32]; [x33]; [x34; x35; x36]])
  = fst (fold_buffers 1 0 crc_static 0 [[x34; x35; x36]; [x31; x32]; [x33]]).
Proof.
  refine (proj1 (xor_fold_order_independent 1 0 crc_static
                   [[x31; x32]; [x33]; [x34; x35; x36]]
                   [[x34; x35; x36]; [x31; x32]; [x33]] _ _)).
  - split; [reflexivity|]. intros H. exfalso. apply H. reflexivity.
  - apply Permutation_sym.
    apply (@Permutation_cons_app _ [[x31; x32]; [x33]] [[x31; x32]; [x33]] []
             [x34; x35; x36]).
    apply Permutation_refl.
Defined.

End ChecksumClaims.

(** ** The queue operations *)

Section QueueFacts.
Import Crc64 Pipeline.

Lemma with_empty_slots_same q : with_empty_slots q (empty_slots q) = q.
Proof. by destruct q. Qed.

Lemma with_full_slots_same q : with_full_slots q (full_slots q) = q.
Proof. by destruct q. Qed.

Lemma sem_wait_pos v : 0 < v -> sem_wait v = Some (v - 1).
Proof. intros H. unfold sem_wait. by rewrite (proj2 (Z.ltb_lt 0 v)). Qed.

Lemma sem_wait_Some v w : sem_wait v = Some w -> 0 < v /\ w = v - 1.
Proof.
  unfold sem_wait. destruct (0 <? v) eqn:E; [|done].
  intros [= <-]. apply Z.ltb_lt in E. done.
Qed.

Lemma enqueue_locked_fails e q buf sz :
  malloc_ok e = false \/ malloc2_ok e = false ->
  enqueue_locked e q buf sz = (q, false).
Proof.
  unfold enqueue_locked. intros [-> | ->]; [done|].
  by destruct (malloc_ok e).
Qed.

Lemma enqueue_locked_ok e q buf sz :
  malloc_ok e = true -> malloc2_ok e = true ->
  enqueue_locked e q buf sz =
  (with_chain q (nodes q ++ [mk_node (take (Z.to_nat sz) buf) sz])
     (count q + 1), true).
Proof. unfold enqueue_locked. by intros -> ->. Qed.

Lemma dequeue_buffer_empty q :
  count q = 0 -> 0 < full_slots q ->
  dequeue_buffer q =
  Some (if negb (reading_done q =? 0) && (active_readers q =? 0)
        then with_full_slots q (full_slots q - 1)
        else q, None).
Proof.
  intros Hc Hf. unfold dequeue_buffer, dequeue_locked.
  rewrite sem_wait_pos by done.
  destruct q as [ns c es fs rd ar tb nb fsz]. simpl in *. subst c. simpl.
  destruct (negb (rd =? 0) && (ar =? 0)); simpl; [done|].
  unfold with_full_slots, sem_post. simpl. do 3 f_equal. lia.
Qed.

End QueueFacts.

(** ** Schedules *)

Section ExecFacts.
Import Crc64 Pipeline.
Context (cfg : Config) (v : Z) (file : list byte).

Lemma exec_app sched1 sched2 s :
  exec cfg v file (sched1 ++ sched2) s =
  match exec cfg v file sched1 s with
  | None => None
  | Some (s', tr) =>
      match exec cfg v file sched2 s' with
      | None => None
      | Some (s'', tr') => Some (s'', tr ++ tr')
      end
  end.
Proof.
  revert s. induction sched1 as [|a sched1 IH]; intros s.
  - cbn [app exec]. destruct (exec cfg v file sched2 s) as [[s' tr]|]; done.
  - cbn [app exec]. destruct (step cfg v file a s) as [[s1 tr1]|]; [|done].
    rewrite IH. destruct (exec cfg v file sched1 s1) as [[s2 tr2]|]; [|done].
    destruct (exec cfg v file sched2 s2) as [[s3 tr3]|]; [|done].
    by rewrite app_assoc.
Qed.

Lemma exec_snoc sched a s s' tr :
  exec cfg v file (sched ++ [a]) s = Some (s', tr) ->
  exists s1 tr1 tr2,
    exec cfg v file sched s = Some (s1, tr1)
    /\ step cfg v file a s1 = Some (s', tr2)
    /\ tr = tr1 ++ tr2.
Proof.
  rewrite exec_app. destruct (exec cfg v file sched s) as [[s1 tr1]|]; [|done].
  cbn [exec]. destruct (step cfg v file a s1) as [[s2 tr2]|] eqn:Hstep;
    [|done].
  intros [= <- <-]. exists s1, tr1, tr2. rewrite app_nil_r. auto.
Qed.

Lemma exec_one a s :
  exec cfg v file [a] s =
  match step cfg v file a s with
  | None => None
  | Some (s', tr) => Some (s', tr)
  end.
Proof.
  cbn [exec]. destruct (step cfg v file a s) as [[s' tr]|]; [|done].
  by rewrite app_nil_r.
Qed.

(** The wake-up loop of the orchestrator: [k] more iterations post [k]
    signals on [full_slots] and touch nothing else. *)
Lemma wake_loop e s i k :
  main_pc s = MWake i ->
  (i + k <= NUM_CONSUMERS cfg)%nat ->
  exec cfg v file (replicate k (Main, e)) s =
  Some (mk_state (MWake (i + k))
          (with_full_slots (queue s) (full_slots (queue s) + Z.of_nat k))
          (global_hash_xor s) (crc s) (readers s) (consumers s), []).
Proof.
  revert s i. induction k as [|k IH]; intros s i Hpc Hik.
  - cbn [replicate exec]. rewrite Nat.add_0_r, Z.add_0_r.
    rewrite with_full_slots_same. destruct s; simpl in *. by subst.
  - cbn [replicate exec step]. unfold main_step. rewrite Hpc.
    rewrite (proj2 (Nat.ltb_lt i (NUM_CONSUMERS cfg))) by lia.
    rewrite (IH _ (S i)) by (done || (cbn [main_pc]; lia)).
    cbn [queue global_hash_xor crc readers consumers app].
    replace (S i + k)%nat with (i + S k)%nat by lia.
    do 3 f_equal.
    destruct (queue s); unfold with_full_slots, sem_post; simpl.
    f_equal. lia.
Qed.

End ExecFacts.

(** ** Claims on the queue operations *)

Section QueueClaims.
Import Crc64 Pipeline Inputs.

(** C9.  When the allocation of the node or of its data buffer fails,
    [enqueue_buffer] has taken an empty slot ([sem_wait]), links nothing in
    its critical section, gives the slot back ([sem_post] on [empty_slots])
    and returns 0; the queue is then exactly as before the call: [head],
    [tail], [count], the chain and both semaphores are unchanged. *)
Theorem enqueue_buffer_allocation_failure (e : Env) (q : BufferQueue)
    (buf : list byte) (sz : Z) :
  0 < empty_slots q ->
  malloc_ok e = false \/ malloc2_ok e = false ->
  sem_wait (empty_slots q) = Some (empty_slots q - 1)
  /\ enqueue_locked e (with_empty_slots q (empty_slots q - 1)) buf sz
     = (with_empty_slots q (empty_slots q - 1), false)
  /\ enqueue_post (with_empty_slots q (empty_slots q - 1)) false = (q, 0)
  /\ enqueue_buffer e q buf sz = Some (q, 0)
  /\ (forall q' r,
        enqueue_buffer e q buf sz = Some (q', r) ->
        r = 0 /\ head q' = head q /\ tail q' = tail q /\ count q' = count q
        /\ nodes q' = nodes q /\ empty_slots q' = empty_slots q
        /\ full_slots q' = full_slots q).
Proof.
  intros Hslot Hfail.
  assert (Hpost : enqueue_post (with_empty_slots q (empty_slots q - 1)) false
                  = (q, 0)).
  { unfold enqueue_post, sem_post. destruct q; unfold with_empty_slots; simpl.
    do 2 f_equal. lia. }
  assert (Hwhole : enqueue_buffer e q buf sz = Some (q, 0)).
  { unfold enqueue_buffer. rewrite sem_wait_pos by done.
    rewrite enqueue_locked_fails by done. by rewrite Hpost. }
  split; [by apply sem_wait_pos|].
  split; [by apply enqueue_locked_fails|].
  split; [done|]. split; [done|].
  intros q' r. rewrite Hwhole. by intros [= <- <-].
Qed.

Lemma enqueue_buffer_allocation_failure_witness :
  enqueue_buffer node_alloc_fails drained_queue [x31; x32] 2
  = Some (drained_queue, 0).
Proof.
  refine (proj1 (proj2 (proj2 (proj2
    (enqueue_buffer_allocation_failure node_alloc_fails drained_queue
       [x31; x32] 2 _ _))))).
  - simpl. lia.
  - left. reflexivity.
Defined.

(** C2, as stated, fails: on a permanently drained queue
    ([reading_done] set, no active reader, [count = 0]) [dequeue_buffer]
    returns the empty result and does not post [full_slots] again.  It took
    the one signal that was left, so a further [sem_wait] on [full_slots]
    suspends its caller. *)
Lemma dequeue_buffer_drained_takes_signal :
  drained drained_queue = true
  /\ dequeue_buffer drained_queue = Some (with_full_slots drained_queue 0, None)
  /\ full_slots (with_full_slots drained_queue 0) <> full_slots drained_queue
  /\ sem_wait (full_slots (with_full_slots drained_queue 0)) = None.
Proof. repeat apply conj; try reflexivity. discriminate. Qed.

(** C2, amended.  Woken on an empty queue, [dequeue_buffer] returns the
    empty result.  If the queue is permanently drained it keeps the signal
    that woke it: [full_slots] ends one lower and nothing else changes.  If
    the drain is not confirmed yet ([reading_done] clear or a reader still
    active) it posts the signal back and the queue is as before.  The
    wake-up of the other consumers is the orchestrator's: after joining the
    readers it posts [full_slots] once per consumer. *)
Theorem dequeue_buffer_empty_signal_rule (cfg : Config) (v : Z)
    (file : list byte) (e : Env) (q : BufferQueue) (s : State) :
  count q = 0 ->
  0 < full_slots q ->
  main_pc s = MWake 0 ->
  (drained q = true ->
   dequeue_buffer q = Some (with_full_slots q (full_slots q - 1), None))
  /\ (drained q = false -> dequeue_buffer q = Some (q, None))
  /\ exec cfg v file (replicate (NUM_CONSUMERS cfg) (Main, e)) s
     = Some (mk_state (MWake (NUM_CONSUMERS cfg))
               (with_full_slots (queue s)
                  (full_slots (queue s) + Z.of_nat (NUM_CONSUMERS cfg)))
               (global_hash_xor s) (crc s) (readers s) (consumers s), []).
Proof.
  intros Hc Hf Hpc. rewrite dequeue_buffer_empty by done.
  unfold drained. rewrite Hc. cbn [Z.eqb]. rewrite andb_true_r.
  split; [by intros ->|]. split; [by intros ->|].
  by rewrite (wake_loop cfg v file e s 0).
Qed.

Lemma dequeue_buffer_empty_signal_rule_witness :
  dequeue_buffer drained_queue = Some (with_full_slots drained_queue 0, None).
Proof.
  refine (proj1 (dequeue_buffer_empty_signal_rule source_config 1 [x31] env_ok
                   drained_queue
                   (mk_state (MWake 0) drained_queue 0 crc_static [] [])
                   _ _ _) _);
    reflexivity.
Defined.

End QueueClaims.

(** ** Claims on the reader loop *)

Section ReaderClaims.
Import Crc64 Pipeline Inputs.

(** C4, as stated, fails.  On the file of 16 MiB + 1 bytes, reader 0 claims
    block 0 and asks for 16777216 bytes; [fread] delivers three.  The reader
    does not leave its loop: it enqueues the three bytes and is back at the
    top of the loop, where the reservation hands it block 1. *)
Lemma short_read_does_not_end_loop :
  block_bytes_to_read source_config (queue two_block_state) 0 = 16777216
  /\ fread short_read two_block_file 0 16777216 = [x00; x00; x00]
  /\ option_map
       (fun '(s, tr) =>
          (r_pc <$> readers s !! 0%nat, nodes (queue s), claimed_indices tr,
           snd (reserve_next_block (queue s))))
       (exec source_config 1 two_block_file
          [(ReaderT 0, short_read); (ReaderT 0, env_ok); (ReaderT 0, env_ok);
           (ReaderT 0, env_ok)]
          two_block_state)
     = Some (Some RClaim, [mk_node [x00; x00; x00] 3], [0], Some 1).
Proof. repeat apply conj; reflexivity. Qed.

(** C4, amended.  After a successful reservation the reader leaves its
    claiming loop exactly when the seek fails or the read delivers no byte
    at all.  A read that delivers some bytes, even fewer than requested, is
    handed to [enqueue_buffer] with the bytes actually read, and once
    [enqueue_buffer] has returned (whatever it returned) the reader is back
    at the top of the loop for the next reservation.  No read is tried a
    second time. *)
Theorem reader_leaves_loop_on_empty_read (cfg : Config) (v : Z)
    (file : list byte) (rid : nat) (e : Env) (r : Reader) (q q1 : BufferQueue)
    (idx : Z) :
  r_pc r = RClaim ->
  reserve_next_block q = (q1, Some idx) ->
  let offset := block_offset cfg idx in
  let buf := fread e file offset (block_bytes_to_read cfg q1 offset) in
  (exists r',
     reader_step cfg v file rid e r q
     = Some (r', q1, [Reserved rid (Some idx)])
     /\ (r_pc r' = RMarkDone <-> fseek_ok e = false \/ buf = [])
     /\ (fseek_ok e = true -> buf <> [] ->
         r_pc r' = REnqueueWait (mk_pending idx offset buf)))
  /\ (forall e2 r2 q2 p linked,
        r_pc r2 = REnqueuePost p linked ->
        exists r3 q3 evs,
          reader_step cfg v file rid e2 r2 q2 = Some (r3, q3, evs)
          /\ r_pc r3 = RClaim).
Proof.
  intros Hpc Hres offset buf. split.
  - unfold reader_step. rewrite Hpc, Hres. fold offset. fold buf.
    destruct (fseek_ok e) eqn:Hseek; cbn [negb].
    + destruct buf as [|b buf'] eqn:Hbuf.
      * cbn [length Z.of_nat Z.eqb]. eexists. split; [done|].
        cbn [r_pc]. split; [|done]. split; auto.
      * replace (Z.of_nat (length (b :: buf')) =? 0) with false
          by (symmetry; apply Z.eqb_neq; cbn [length]; lia).
        eexists. split; [done|]. cbn [r_pc]. split; [|done].
        split; [done|]. intros [?|?]; done.
    + eexists. split; [done|]. cbn [r_pc]. split; [|done]. split; auto.
  - intros e2 r2 q2 p linked Hpc2. unfold reader_step. rewrite Hpc2.
    destruct (enqueue_post q2 linked) as [q3 ret]. by eexists _, _, _.
Qed.

Lemma reader_leaves_loop_on_empty_read_witness :
  exists r',
    reader_step source_config 1 two_block_file 0 short_read
      (mk_reader RClaim 0) (queue two_block_state)
    = Some (r', with_next_block (queue two_block_state) 1,
            [Reserved 0 (Some 0)])
    /\ (r_pc r' = RMarkDone <->
        fseek_ok short_read = false
        \/ fread short_read two_block_file (block_offset source_config 0)
             (block_bytes_to_read source_config
                (with_next_block (queue two_block_state) 1)
                (block_offset source_config 0)) = [])
    /\ (fseek_ok short_read = true ->
        fread short_read two_block_file (block_offset source_config 0)
          (block_bytes_to_read source_config
             (with_next_block (queue two_block_state) 1)
             (block_offset source_config 0)) <> [] ->
        r_pc r' =
        REnqueueWait
          (mk_pending 0 (block_offset source_config 0)
             (fread short_read two_block_file (block_offset source_config 0)
                (block_bytes_to_read source_config
                   (with_next_block (queue two_block_state) 1)
                   (block_offset source_config 0))))).
Proof.
  refine (proj1 (reader_leaves_loop_on_empty_read source_config 1
                   two_block_file 0 short_read (mk_reader RClaim 0)
                   (queue two_block_state)
                   (with_next_block (queue two_block_state) 1) 0 _ _));
    reflexivity.
Defined.

End ReaderClaims.

Import Crc64 Pipeline Schedules Invariants Inputs.

(** ** Sums and XOR over the thread tables *)

Ltac xor_solve :=
  apply Z.bits_inj'; intros ?n _;
  rewrite ?Z.lxor_spec, ?Z.bits_0; btauto.

Section Sums.
Context {A : Type}.
Implicit Types (f : A -> Z) (l : list A).

Lemma sum_with_cons f x l : sum_with f (x :: l) = f x + sum_with f l.
Proof. reflexivity. Qed.

Lemma xor_with_cons f x l :
  xor_with f (x :: l) = Z.lxor (f x) (xor_with f l).
Proof. reflexivity. Qed.

Lemma sum_with_app f l1 l2 :
  sum_with f (l1 ++ l2) = sum_with f l1 + sum_with f l2.
Proof.
  induction l1 as [|x l1 IH]; [done|].
  rewrite <- app_comm_cons, !sum_with_cons, IH. lia.
Qed.

Lemma xor_with_app f l1 l2 :
  xor_with f (l1 ++ l2) = Z.lxor (xor_with f l1) (xor_with f l2).
Proof.
  induction l1 as [|x l1 IH]; [done|].
  rewrite <- app_comm_cons, !xor_with_cons, IH. xor_solve.
Qed.

Lemma sum_with_nonneg f l : (forall x, 0 <= f x) -> 0 <= sum_with f l.
Proof.
  intros Hf. induction l as [|x l IH]; [done|].
  rewrite sum_with_cons. specialize (Hf x). lia.
Qed.

Lemma sum_with_insert f l i x y :
  l !! i = Some x ->
  sum_with f (<[i:=y]> l) = sum_with f l - f x + f y.
Proof.
  revert i. induction l as [|z l IH]; intros i Hi; [done|].
  destruct i as [|i]; cbn in Hi.
  - simplify_eq. change (<[0%nat:=y]> (x :: l)) with (y :: l).
    rewrite !sum_with_cons. lia.
  - change (<[S i:=y]> (z :: l)) with (z :: <[i:=y]> l).
    rewrite !sum_with_cons, (IH i Hi). lia.
Qed.

Lemma sum_with_lookup_le f l i x :
  (forall x, 0 <= f x) -> l !! i = Some x -> f x <= sum_with f l.
Proof.
  intros Hf. revert i. induction l as [|z l IH]; intros i Hi; [done|].
  rewrite sum_with_cons. destruct i as [|i]; cbn in Hi.
  - simplify_eq. pose proof (sum_with_nonneg f l Hf). lia.
  - specialize (IH i Hi). specialize (Hf z). lia.
Qed.

Lemma sum_with_zero f l :
  (forall x, 0 <= f x) -> sum_with f l = 0 -> Forall (fun x => f x = 0) l.
Proof.
  intros Hf. induction l as [|z l IH]; [constructor|].
  rewrite sum_with_cons. intros Hs.
  pose proof (sum_with_nonneg f l Hf). pose proof (Hf z).
  constructor; [lia|]. apply IH. lia.
Qed.

Lemma xor_with_insert f l i x y :
  l !! i = Some x ->
  xor_with f (<[i:=y]> l) = Z.lxor (xor_with f l) (Z.lxor (f x) (f y)).
Proof.
  revert i. induction l as [|z l IH]; intros i Hi; [done|].
  destruct i as [|i]; cbn in Hi.
  - simplify_eq. change (<[0%nat:=y]> (x :: l)) with (y :: l).
    rewrite !xor_with_cons. xor_solve.
  - change (<[S i:=y]> (z :: l)) with (z :: <[i:=y]> l).
    rewrite !xor_with_cons, (IH i Hi). xor_solve.
Qed.

Lemma xor_with_zero f l : Forall (fun x => f x = 0) l -> xor_with f l = 0.
Proof.
  induction 1 as [|x l Hx _ IH]; [done|].
  by rewrite xor_with_cons, Hx, IH.
Qed.

End Sums.

(** ** The invariant of all runs *)

Section Traces.
Lemma reservations_app tr1 tr2 : reservations (tr1 ++ tr2) = reservations tr1 ++ reservations tr2.
Proof. apply omap_app. Qed.
Lemma reported_hashes_app tr1 tr2 : reported_hashes (tr1 ++ tr2) = reported_hashes tr1 ++ reported_hashes tr2.
Proof. apply omap_app. Qed.
Lemma unprinted_app tr1 tr2 : unprinted (tr1 ++ tr2) = unprinted tr1 ++ unprinted tr2.
Proof. apply List.filter_app. Qed.
Lemma unprinted_say v lvl l : unprinted (say v lvl l) = [].
Proof. unfold say. by destruct (lvl <=? v). Qed.
Lemma reservations_say v lvl l : reservations (say v lvl l) = [].
Proof. unfold say. by destruct (lvl <=? v). Qed.
Lemma reported_hashes_say v lvl l :
  reported_hashes (say v lvl l) =
  match l with L_hash h => if lvl <=? v then [h] else [] | _ => [] end.
Proof. unfold say. by destruct (lvl <=? v), l. Qed.
Lemma reservations_folded c h tr : reservations (Folded c h :: tr) = reservations tr.
Proof. reflexivity. Qed.
Lemma reported_hashes_folded c h tr : reported_hashes (Folded c h :: tr) = reported_hashes tr.
Proof. reflexivity. Qed.
End Traces.

Ltac trace_simpl :=
  rewrite ?reservations_app, ?reported_hashes_app, ?unprinted_app,
    ?reservations_folded, ?reported_hashes_folded,
    ?unprinted_say, ?reservations_say, ?reported_hashes_say, ?app_nil_r.

(** Tactics for the case analyses over the steps. *)

Ltac feed H :=
  match type of H with
  | True -> _ => specialize (H I)
  | ~ False -> _ => specialize (H (fun x => x))
  | ?x = ?x -> _ => specialize (H eq_refl)
  | False -> _ => clear H
  | ~ True -> _ => clear H
  | forall i, Some ?n = Some i -> _ => specialize (H n eq_refl)
  | forall i, None = Some i -> _ => clear H
  | None = None -> _ => specialize (H eq_refl)
  | MStart = MStart -> _ => specialize (H eq_refl)
  | MReturned _ = MReturned _ -> _ => first [specialize (H eq_refl) | clear H]
  | _ = MStart -> _ => clear H
  | _ = MReturned _ -> _ => clear H
  end.

Ltac feed_all :=
  repeat match goal with
         | H : _ |- _ => progress (feed H)
         end.

Ltac queue_simpl :=
  unfold with_chain, with_empty_slots, with_full_slots, with_reading_done,
    with_active_readers, with_next_block, with_partition, init_buffer_queue,
    drop_reader, sem_post in *;
  cbn [nodes count empty_slots full_slots reading_done active_readers
       total_blocks next_block file_size] in *.

Ltac state_simpl :=
  unfold started, readers_joined in *;
  cbn [main_pc queue global_hash_xor crc readers consumers
       consumers_handled readers_handled] in *;
  queue_simpl.

Lemma forallb_reader_gone rs :
  forallb reader_gone rs = true -> Forall (fun r => reader_gone r = true) rs.
Proof. intros H. apply Forall_forall. intros r Hr. apply list_elem_of_In in Hr. by eapply forallb_forall in H. Qed.

Lemma forallb_consumer_gone cs :
  forallb consumer_gone cs = true -> Forall (fun c => c = CExited) cs.
Proof.
  intros H. apply Forall_forall. intros c Hc. apply list_elem_of_In in Hc.
  eapply forallb_forall in H; [|done]. by destruct c.
Qed.

Lemma lookup_snoc_Some {A} (l : list A) x i y :
  (l ++ [x]) !! i = Some y -> l !! i = Some y \/ y = x.
Proof.
  intros H. apply lookup_app_Some in H as [H1|[_ H2]]; [by left|].
  right. apply list_lookup_singleton_Some in H2. naive_solver.
Qed.

Lemma alive_nonneg r : 0 <= alive r.
Proof. unfold alive. destruct (reader_gone r); lia. Qed.

Ltac reflect_bools :=
  repeat match goal with
         | H : (_ <? _)%nat = true |- _ => apply Nat.ltb_lt in H
         | H : (_ <? _)%nat = false |- _ => apply Nat.ltb_ge in H
         | H : (_ =? _) = true |- _ => apply Z.eqb_eq in H
         | H : (_ =? _) = false |- _ => apply Z.eqb_neq in H
         | H : (_ <=? _) = true |- _ => apply Z.leb_le in H
         | H : (_ <=? _) = false |- _ => apply Z.leb_gt in H
         | H : (_ <? _) = true |- _ => apply Z.ltb_lt in H
         | H : (_ <? _) = false |- _ => apply Z.ltb_ge in H
         | H : negb _ = true |- _ => apply negb_true_iff in H
         | H : negb _ = false |- _ => apply negb_false_iff in H
         | H : _ && _ = true |- _ => apply andb_true_iff in H as [? ?]
         end.

Ltac fin :=
  intros; simplify_eq; state_simpl; reflect_bools;
  repeat match goal with
         | |- _ /\ _ => split
         | H : _ /\ _ |- _ => destruct H
         | H : exists _, _ |- _ => destruct H
         | H : (_ ++ [_]) !! _ = Some _ |- _ =>
             apply lookup_snoc_Some in H as [H|H]
         end;
  simplify_eq;
  rewrite ?length_app, ?sum_with_app, ?sum_with_cons;
  cbn [length sum_with foldr alive reader_gone r_pc];
  try done; try lia; eauto using forallb_reader_gone, forallb_consumer_gone.


Ltac atomic_cond x :=
  lazymatch x with
  | context [if _ then _ else _] => fail
  | context [match _ with _ => _ end] => fail
  | _ => idtac
  end.

Ltac case_hyp H :=
  repeat match type of H with
         | context [if ?x then _ else _] =>
             atomic_cond x; destruct x eqn:?; cbn beta iota in H
         | context [match ?x with _ => _ end] =>
             atomic_cond x; destruct x eqn:?; cbn beta iota in H
         end.

Ltac case_goal :=
  repeat match goal with
         | |- context [if ?x then _ else _] =>
             atomic_cond x; destruct x eqn:?; cbn beta iota
         | |- context [match ?x with _ => _ end] =>
             atomic_cond x; destruct x eqn:?; cbn beta iota
         end.

Section Preservation.
Context (cfg : Config) (v : Z) (file : list byte).
Context (q0 : BufferQueue) (h0 : Z) (c0 : crc_state).
Hypothesis HBS : 0 < BLOCK_SIZE cfg.
Hypothesis Hfit : Z.of_nat (length file) + BLOCK_SIZE cfg <= 2 ^ 64.
Hypothesis Hc0 : crc_wf c0.

Local Abbreviation Inv := (Inv cfg v file q0 h0 c0).
Local Abbreviation F := (F file).
Local Abbreviation T := (T cfg file).

Lemma F_length : F = Z.of_nat (length file).
Proof. unfold Invariants.F. apply u64_small. lia. Qed.

Lemma T_div : T = (F + BLOCK_SIZE cfg - 1) / BLOCK_SIZE cfg.
Proof.
  unfold Invariants.T, block_count. rewrite u64_small; [done|].
  rewrite F_length. lia.
Qed.

Lemma T_nonneg : 0 <= T.
Proof. rewrite T_div. apply Z.div_pos; [rewrite F_length|]; lia. Qed.

Lemma T_block idx : 0 <= idx < T -> idx * BLOCK_SIZE cfg < F.
Proof.
  rewrite T_div. intros Hidx.
  pose proof (Z.div_mod (F + BLOCK_SIZE cfg - 1) (BLOCK_SIZE cfg)) as Hdm.
  pose proof (Z.mod_pos_bound (F + BLOCK_SIZE cfg - 1) (BLOCK_SIZE cfg)) as Hm.
  nia.
Qed.

Lemma T_le_F : T <= F.
Proof.
  destruct (Z.eq_dec T 0) as [->|Hne]; [rewrite F_length; lia|].
  pose proof T_nonneg. pose proof (T_block (T - 1)). nia.
Qed.


Lemma main_step_inv e s tr s' evs :
  Inv s tr -> main_step cfg v file e s = Some (s', evs) -> Inv s' (tr ++ evs).
Proof.
  intros [Hidle Hentry Hcrc Hchain Hheld Hpart Hres Hcons Hnor Hrd Hex Hjr Hjc Hrep]
    Hstep.
  destruct s as [pc q h c rs cs].
  pose proof T_nonneg as HT.
  pose proof (sum_with_nonneg alive rs alive_nonneg) as Hsum.
  unfold main_step, get_file_size in Hstep. 
  destruct pc; state_simpl; feed_all; destruct_and?.
  all: repeat case_match; simplify_eq.
  all: constructor; state_simpl; trace_simpl.
  all: try done.
  all: try (intros; done).
  all: try (intros; lia).
  all: try (by fin).
  all: try (fin; intuition (done || lia)).
  all: try (intros _; by exists 0%nat).
  all: try (apply Forall_app; split; [done|by repeat constructor]).
  all: try (intros _; split; [by apply crc64_init_wf|apply crc64_init_flag]).
  all: try (fin; match goal with H : (exists _, _) -> _ |- _ => apply H; eauto end).
  all: try (intros _; match goal with H : reported_hashes _ = [] |- _ => by rewrite H end).
Qed.

Lemma started_dec s : started s \/ ~ started s.
Proof. unfold started. destruct (main_pc s) as [| | | | | |[]]; tauto. Qed.

Lemma zseq_succ n : 0 <= n -> zseq (n + 1) = zseq n ++ [n].
Proof.
  intros Hn. unfold zseq.
  replace (Z.to_nat (n + 1)) with (S (Z.to_nat n)) by lia.
  rewrite seq_S, fmap_app. cbn. do 2 f_equal. lia.
Qed.

Lemma replicate_snoc {A} (x : A) k : replicate k x ++ [x] = replicate (S k) x.
Proof. induction k as [|k IH]; [done|]. cbn. by rewrite IH. Qed.

Lemma u64_next nb : 0 <= nb < T -> u64 (nb + 1) = nb + 1.
Proof.
  intros H. apply u64_small. pose proof T_le_F. pose proof F_length. lia.
Qed.

Lemma reservations_none tr nb (k : nat) rid :
  reservations tr = (Some <$> zseq nb) ++ replicate k None ->
  T <= nb <= T ->
  exists k' : nat,
    reservations tr ++ reservations [Reserved rid None]
    = (Some <$> zseq nb) ++ replicate k' None
    /\ (k' <> 0%nat -> nb = T).
Proof.
  intros -> Hnb. exists (S k). split; [|lia].
  change (reservations [Reserved rid None]) with [@None Z].
  by rewrite <- app_assoc, replicate_snoc.
Qed.

Lemma reservations_some tr nb (k : nat) rid :
  reservations tr = (Some <$> zseq nb) ++ replicate k None ->
  (k <> 0%nat -> nb = T) ->
  0 <= nb < T ->
  exists k' : nat,
    reservations tr ++ reservations [Reserved rid (Some nb)]
    = (Some <$> zseq (nb + 1)) ++ replicate k' None
    /\ (k' <> 0%nat -> nb + 1 = T).
Proof.
  intros -> Hk Hnb. exists 0%nat. split; [|done].
  destruct k as [|k]; [|lia].
  change (reservations [Reserved rid (Some nb)]) with [Some nb].
  cbn [replicate]. rewrite !app_nil_r, zseq_succ by lia.
  by rewrite fmap_app.
Qed.

Lemma reader_step_inv rid e s r r' q' tr evs :
  Inv s tr ->
  readers s !! rid = Some r ->
  reader_step cfg v file rid e r (queue s) = Some (r', q', evs) ->
  Inv (mk_state (main_pc s) q' (global_hash_xor s) (crc s)
         (<[rid := r']> (readers s)) (consumers s)) (tr ++ evs).
Proof.
  intros HI Hlook Hstep.
  assert (Hst : started s).
  { destruct (started_dec s) as [|Hn]; [done|].
    destruct (inv_idle _ _ _ _ _ _ _ _ HI Hn) as (Hr & _).
    by rewrite Hr in Hlook. }
  destruct HI as [Hidle Hentry Hcrc Hchain Hheld Hpart Hres Hcons Hnor Hrd Hex Hjr Hjc Hrep].
  destruct s as [pc q h c rs cs].
  pose proof T_nonneg as HT. pose proof T_le_F as HTF. pose proof F_length as HF.
  pose proof (sum_with_lookup_le alive rs rid r alive_nonneg Hlook) as Hsum.
  pose proof (sum_with_insert alive rs rid r r' Hlook) as Hins.
  cbn [main_pc queue global_hash_xor crc readers consumers] in *.
  specialize (Hcrc Hst). specialize (Hchain Hst). specialize (Hpart Hst).
  specialize (Hres Hst). specialize (Hnor Hst). specialize (Hex Hst). specialize (Hrep Hst).
  clear Hidle.
  unfold reader_step, reserve_next_block, enqueue_locked, enqueue_post, mark_reader_done, sem_wait in Hstep.
  destruct r as [rpc tb]. cbn [r_pc total_bytes] in *.
  unfold started in *. cbn [main_pc] in *.
  destruct rpc; case_hyp Hstep; simplify_eq; queue_simpl.
  all: constructor; unfold started; cbn [main_pc queue global_hash_xor crc readers consumers]; trace_simpl; queue_simpl.
  all: try done.
  all: try (intros; done).
  all: lazymatch goal with
       | |- _ = MStart -> _ => by intros ->
       | |- _ -> readers_handled _ _ = None -> _ =>
           intros _ Hn; destruct (Hnor Hn) as [-> _]; done
       | |- readers_joined _ -> _ =>
           intros Hj; specialize (Hjr Hj);
           eapply Forall_lookup_1 in Hjr; [|exact Hlook]; done
       | |- forall i, readers_handled _ _ = Some i -> _ =>
           intros i Hi; destruct (Hrd i Hi) as (?&?&?&?);
           rewrite length_insert, Hins; unfold alive in *;
           cbn [reader_gone r_pc] in *; reflect_bools;
           split_and!; try lia; intuition lia
       | |- _ -> (exists cid, _) -> _ =>
           intros _ Hc; destruct (Hex Hc);
           destruct (readers_handled cfg pc) as [i|] eqn:Hi;
           [destruct (Hrd i eq_refl) as (?&?&?&?); unfold alive in *;
            cbn [reader_gone r_pc] in *; lia
           |destruct (Hnor eq_refl) as [-> _]; done]
       | |- _ => idtac
       end.
  all: intros _; reflect_bools; destruct_and?.
  all: try rewrite u64_next by lia.
  all: try (split_and!; (done || lia)).
  all: try (destruct Hres as (k & Hk1 & Hk2);
            eapply reservations_some; [done|done|lia]).
  all: try (destruct Hres as (k & Hk1 & Hk2);
            eapply reservations_none; [done|lia]).
  split; [rewrite length_app; cbn [length]; lia|].
  apply Forall_app. split; [done|]. constructor; [|constructor].
  cbn [size data]. unfold bytes_read. by rewrite Nat2Z.id, firstn_all.
Qed.

Lemma consumer_step_inv cid s c c' q' h' cs' tr evs :
  Inv s tr ->
  consumers s !! cid = Some c ->
  consumer_step v cid c (queue s) (global_hash_xor s) (crc s)
  = Some (c', q', h', cs', evs) ->
  Inv (mk_state (main_pc s) q' h' cs' (readers s)
         (<[cid := c']> (consumers s))) (tr ++ evs).
Proof.
  intros HI Hlook Hstep.
  assert (Hst : started s).
  { destruct (started_dec s) as [|Hn]; [done|].
    destruct (inv_idle _ _ _ _ _ _ _ _ HI Hn) as (_ & Hr & _).
    by rewrite Hr in Hlook. }
  destruct HI as [Hidle Hentry Hcrc Hchain Hheld Hpart Hres Hcons Hnor Hrd Hex Hjr Hjc Hrep].
  destruct s as [pc q h cst rs cs].
  cbn [main_pc queue global_hash_xor crc readers consumers] in *.
  specialize (Hcrc Hst). specialize (Hchain Hst). specialize (Hpart Hst).
  specialize (Hres Hst). specialize (Hnor Hst). specialize (Hex Hst). specialize (Hrep Hst).
  clear Hidle.
  unfold consumer_step, dequeue_locked, dequeue_post, process_buffer_data,
    crc64_compute, crc64_update, sem_wait, drained in Hstep.
  unfold started in *. cbn [main_pc] in *.
  destruct c; case_hyp Hstep; simplify_eq; cbn [fst snd] in *; queue_simpl.
  all: constructor; unfold started; cbn [main_pc queue global_hash_xor crc readers consumers]; trace_simpl; queue_simpl.
  all: try done.
  all: try (intros; done).
  all: lazymatch goal with
       | |- _ = MStart -> _ => by intros ->
       | |- _ = MReturned Reported -> _ =>
           intros Hj; specialize (Hjc Hj);
           eapply Forall_lookup_1 in Hjc; [|exact Hlook]; done
       | |- forall i, consumers_handled _ _ = Some i -> _ =>
           intros i Hi; rewrite length_insert; by apply Hcons
       | |- Forall consumer_node_ok _ =>
           apply Forall_insert; [done|]; cbn [consumer_node_ok];
           try done;
           try (eapply Forall_lookup_1 in Hheld; [|exact Hlook]; done);
           try (destruct Hchain as [_ Hf]; by inversion Hf)
       | |- _ -> (exists _, _) -> _ =>
           intros _ (j & Hj); reflect_bools;
           apply list_lookup_insert_Some in Hj as [(_ & Heq & _)|(_ & Hj)];
           [try discriminate Heq
           |destruct (Hex (ex_intro _ j Hj)); split; (done || lia)]
       | |- _ => idtac
       end.
  - (* CCheck leaves the loop: the queue is drained *)
    destruct (readers_handled cfg pc) as [i|] eqn:Hi.
    + destruct (Hrd i eq_refl) as (_ & _ & _ & Hd). lia.
    + destruct (Hnor eq_refl) as [_ Hd]. lia.
  - (* a node is unlinked *)
    intros _. destruct Hchain as [Hc Hf].
    cbn [length] in Hc. split; [lia|]. by inversion Hf.
  - intros _. destruct Hcrc. split; [by apply crc64_init_wf|apply crc64_init_flag].
  - (* the accumulator changes only before the report *)
    intros _. destruct pc as [| | | | | |[]]; try done.
    specialize (Hjc eq_refl). eapply Forall_lookup_1 in Hjc; [|exact Hlook].
    done.
Qed.

End Preservation.

Section Reachable.
Context (cfg : Config) (v : Z) (file : list byte).
Context (q0 : BufferQueue) (h0 : Z) (c0 : crc_state).
Hypothesis HBS : 0 < BLOCK_SIZE cfg.
Hypothesis Hfit : Z.of_nat (length file) + BLOCK_SIZE cfg <= 2 ^ 64.
Hypothesis Hc0 : crc_wf c0.

Local Abbreviation Inv := (Inv cfg v file q0 h0 c0).

Lemma entry_inv : Inv (entry_state q0 h0 c0) [].
Proof.
  constructor; unfold started; cbn [entry_state main_pc readers consumers queue global_hash_xor crc consumers_handled readers_handled]; done.
Qed.

Lemma step_inv a s tr s' evs :
  Inv s tr -> step cfg v file a s = Some (s', evs) -> Inv s' (tr ++ evs).
Proof.
  intros HI Hstep. destruct a as [[|rid|cid] e]; cbn [step] in Hstep.
  - by eapply main_step_inv.
  - destruct (readers s !! rid) as [r|] eqn:Hr; [|done].
    destruct (reader_step cfg v file rid e r (queue s))
      as [[[r' q'] evs']|] eqn:Hrs; [|done].
    simplify_eq. by eapply reader_step_inv.
  - destruct (consumers s !! cid) as [c|] eqn:Hc; [|done].
    destruct (consumer_step v cid c (queue s) (global_hash_xor s) (crc s))
      as [[[[[c' q'] h'] cs'] evs']|] eqn:Hcs; [|done].
    simplify_eq. by eapply consumer_step_inv.
Qed.

(** Induction over the runs from a given state. *)
Lemma exec_induction (P : State -> list Event -> Prop) s0 :
  P s0 [] ->
  (forall sched s tr a s' evs,
     exec cfg v file sched s0 = Some (s, tr) ->
     P s tr ->
     step cfg v file a s = Some (s', evs) ->
     P s' (tr ++ evs)) ->
  forall sched s tr, exec cfg v file sched s0 = Some (s, tr) -> P s tr.
Proof.
  intros H0 Hstep sched. induction sched as [|a sched IH] using rev_ind;
    intros s tr Hex.
  - cbn in Hex. by simplify_eq.
  - apply exec_snoc in Hex as (s1 & tr1 & tr2 & Hex1 & Hs & ->).
    eapply Hstep; eauto.
Qed.

Lemma exec_inv sched s tr :
  exec cfg v file sched (entry_state q0 h0 c0) = Some (s, tr) -> Inv s tr.
Proof.
  apply (exec_induction Inv); [apply entry_inv|].
  intros ? ? ? ? ? ? _. apply step_inv.
Qed.

End Reachable.

(** ** The invariant of the runs without failure *)

Section CleanRuns.
Context (cfg : Config) (v : Z) (file : list byte).
Context (q0 : BufferQueue) (h0 : Z) (c0 : crc_state).
Hypothesis HBS : 0 < BLOCK_SIZE cfg.
Hypothesis Hfit : Z.of_nat (length file) + BLOCK_SIZE cfg <= 2 ^ 64.
Hypothesis Hc0 : crc_wf c0.

Local Abbreviation Inv := (Inv cfg v file q0 h0 c0).
Local Abbreviation Clean := (Clean cfg file).
Local Abbreviation F := (F file).
Local Abbreviation T := (T cfg file).

Lemma blocks_digest_S n :
  blocks_digest cfg file (S n)
  = Z.lxor (blocks_digest cfg file n) (spec_digest (file_block cfg file n)).
Proof.
  unfold blocks_digest. rewrite seq_S, xor_with_app.
  cbn [xor_with foldr Nat.add]. by rewrite Z.lxor_0_r.
Qed.

(** Without failure the read of a claimed block delivers that block, which
    is not empty. *)
Lemma fread_block q idx :
  file_size q = F -> 0 <= idx < T ->
  fread env_ok file (block_offset cfg idx)
    (block_bytes_to_read cfg q (block_offset cfg idx))
  = file_block cfg file (Z.to_nat idx)
  /\ file_block cfg file (Z.to_nat idx) <> [].
Proof.
  intros Hfs Hidx.
  pose proof (T_block cfg file HBS Hfit idx Hidx) as Hoff.
  pose proof (F_length cfg file HBS Hfit) as HF.
  assert (Hlen : (Z.to_nat (idx * BLOCK_SIZE cfg) < length file)%nat) by lia.
  assert (Hne : file_block cfg file (Z.to_nat idx) <> []).
  { unfold file_block. intros Hnil. apply (f_equal length) in Hnil.
    rewrite length_take, length_drop in Hnil. cbn [length] in Hnil.
    rewrite <- Z2Nat.inj_mul in Hnil by lia. lia. }
  split; [|done].
  unfold fread, block_offset, block_bytes_to_read, file_block.
  cbn [fread_stop env_ok]. rewrite Hfs.
  rewrite (u64_small (idx * BLOCK_SIZE cfg)) by lia.
  rewrite (u64_small (idx * BLOCK_SIZE cfg + BLOCK_SIZE cfg)) by lia.
  rewrite <- Z2Nat.inj_mul by lia.
  destruct (F <? idx * BLOCK_SIZE cfg + BLOCK_SIZE cfg) eqn:E; [|done].
  apply Z.ltb_lt in E. rewrite u64_small by lia.
  rewrite !take_ge; [done| |]; rewrite length_drop; lia.
Qed.

Lemma reader_ok_next q q' r :
  next_block q' = next_block q -> reader_ok cfg file q r -> reader_ok cfg file q' r.
Proof. unfold reader_ok. intros ->. done. Qed.

Lemma clean_main_step s tr s' evs :
  Inv s tr -> Clean s ->
  main_step cfg v file env_ok s = Some (s', evs) -> Clean s'.
Proof.
  intros HI [Hcr Hcd Hca] Hstep.
  pose proof (inv_idle _ _ _ _ _ _ _ _ HI) as Hidle.
  destruct s as [pc q h c rs cs].
  unfold main_step, get_file_size in Hstep.
  destruct pc; state_simpl; case_hyp Hstep; simplify_eq; feed_all.
  all: try (destruct Hidle as (-> & -> & _)).
  all: constructor; unfold in_flight in *; state_simpl; try done.
  all: try (intros; done).
  all: intros _.
  all: try (apply Forall_app; split; [done|by repeat constructor]).
  all: rewrite ?xor_with_app;
    cbn [xor_with foldr consumer_held reader_held r_pc];
    try (rewrite <- Hca; xor_solve).
Qed.

Lemma node_digest_taken buf :
  node_digest (mk_node (take (Z.to_nat (Z.of_nat (length buf))) buf)
                 (Z.of_nat (length buf)))
  = spec_digest buf.
Proof. unfold node_digest. cbn [data]. by rewrite Nat2Z.id, firstn_all. Qed.

Lemma clean_reader_step rid s r r' q' tr evs :
  Inv s tr -> Clean s ->
  readers s !! rid = Some r ->
  reader_step cfg v file rid env_ok r (queue s) = Some (r', q', evs) ->
  Clean (mk_state (main_pc s) q' (global_hash_xor s) (crc s)
           (<[rid := r']> (readers s)) (consumers s)).
Proof.
  intros HI [Hcr Hcd Hca] Hlook Hstep.
  assert (Hst : started s).
  { destruct (started_dec s) as [|Hn]; [done|].
    destruct (inv_idle _ _ _ _ _ _ _ _ HI Hn) as (Hr & _).
    by rewrite Hr in Hlook. }
  pose proof (inv_partition _ _ _ _ _ _ _ _ HI Hst) as (Hfs & Htb & Hnb).
  specialize (Hcr Hst). specialize (Hcd Hst). specialize (Hca Hst).
  pose proof (Forall_lookup_1 _ _ _ _ Hcr Hlook) as Hrok.
  pose proof (xor_with_insert reader_held _ _ _ r' Hlook) as Hins.
  clear HI.
  destruct s as [pc q h c rs cs].
  cbn [main_pc queue global_hash_xor crc readers consumers] in *.
  unfold reader_step, reserve_next_block, enqueue_locked, enqueue_post,
    mark_reader_done, sem_wait in Hstep.
  destruct r as [rpc tb]. unfold reader_ok in Hrok. cbn [r_pc total_bytes] in *.
  unfold started in *. cbn [main_pc] in *.
  cbn [fopen_ok malloc_ok malloc2_ok fseek_ok env_ok negb] in Hstep.
  destruct rpc; case_hyp Hstep; simplify_eq; reflect_bools.
  all: try (pose proof (fread_block
                          (with_next_block q (u64 (next_block q + 1)))
                          (next_block q) Hfs ltac:(lia))
              as [Hfr Hne]).
  all: queue_simpl.
  all: try (rewrite Hfr in *; by destruct (file_block cfg file _)).
  all: constructor; unfold started, in_flight in *;
    cbn [main_pc queue global_hash_xor crc readers consumers] in *;
    queue_simpl; intros _.
  all: try match goal with
       | |- Forall _ (<[_:=_]> _) =>
           apply Forall_insert;
           [eapply Forall_impl; [exact Hcr|]; intros ? ?;
            by eapply reader_ok_next
           |unfold reader_ok; cbn [r_pc next_block]; by try lia]
       | |- _ = 1 -> _ => (done || (intros _; done) || lia)
       | |- Z.lxor _ _ = _ =>
           rewrite ?xor_with_app, Hins;
           cbn [xor_with foldr reader_held r_pc];
           unfold bytes_read; rewrite ?node_digest_taken;
           rewrite <- Hca; xor_solve
       end.
  - (* a block is claimed: no reader has left the loop yet *)
    rewrite Hfr, (u64_next cfg file HBS Hfit) by lia.
    apply Forall_insert.
    + eapply Forall_impl; [exact Hcr|]. intros r0. unfold reader_ok.
      cbn [next_block]. destruct (r_pc r0); try done; lia.
    + unfold reader_ok, pending_ok. cbn [r_pc p_index p_buf].
      exists (Z.to_nat (next_block q)). split_and!; [lia|done..].
  - rewrite Hins, Hfr, (u64_next cfg file HBS Hfit) by lia.
    replace (Z.to_nat (next_block q + 1)) with (S (Z.to_nat (next_block q)))
      by lia.
    rewrite blocks_digest_S. cbn [reader_held r_pc p_buf].
    rewrite <- Hca. xor_solve.
Qed.

Lemma clean_consumer_step cid s c c' q' h' cs' tr evs :
  Inv s tr -> Clean s ->
  consumers s !! cid = Some c ->
  consumer_step v cid c (queue s) (global_hash_xor s) (crc s)
  = Some (c', q', h', cs', evs) ->
  Clean (mk_state (main_pc s) q' h' cs' (readers s)
           (<[cid := c']> (consumers s))).
Proof.
  intros HI [Hcr Hcd Hca] Hlook Hstep.
  assert (Hst : started s).
  { destruct (started_dec s) as [|Hn]; [done|].
    destruct (inv_idle _ _ _ _ _ _ _ _ HI Hn) as (_ & Hr & _).
    by rewrite Hr in Hlook. }
  pose proof (inv_crc _ _ _ _ _ _ _ _ HI Hst) as [Hwf _].
  pose proof (Forall_lookup_1 _ _ _ _ (inv_held _ _ _ _ _ _ _ _ HI) Hlook)
    as Hnode.
  specialize (Hcr Hst). specialize (Hcd Hst). specialize (Hca Hst).
  pose proof (xor_with_insert consumer_held _ _ _ c' Hlook) as Hins.
  clear HI.
  destruct s as [pc q h cst rs cs].
  cbn [main_pc queue global_hash_xor crc readers consumers] in *.
  unfold consumer_step, dequeue_locked, dequeue_post, sem_wait, drained
    in Hstep.
  unfold started in *. cbn [main_pc] in *.
  destruct c; cbn [consumer_node_ok] in Hnode;
    try (rewrite Hnode, process_buffer_data_wf in Hstep by done);
    case_hyp Hstep; simplify_eq; cbn [fst snd] in *; queue_simpl.
  all: constructor; unfold started, in_flight in *;
    cbn [main_pc queue global_hash_xor crc readers consumers] in *;
    queue_simpl; intros _.
  all: try match goal with
       | |- Forall _ _ =>
           eapply Forall_impl; [exact Hcr|]; intros ? ?;
           by eapply reader_ok_next
       | |- _ = 1 -> _ => done
       | |- Z.lxor _ _ = _ =>
           rewrite Hins;
           try match goal with
               | H : nodes _ = _ :: _ |- _ =>
                   rewrite H, xor_with_cons in Hca
               end;
           cbn [consumer_held];
           rewrite <- Hca; unfold node_digest; xor_solve
       end.
Qed.


(** Along a schedule without failures the accounting invariant holds. *)
Lemma step_clean t s tr s' evs :
  Inv s tr -> Clean s ->
  step cfg v file (t, env_ok) s = Some (s', evs) -> Clean s'.
Proof.
  intros HI HC Hstep. destruct t as [|rid|cid]; cbn [step] in Hstep.
  - by eapply clean_main_step.
  - destruct (readers s !! rid) as [r|] eqn:Hr; [|done].
    destruct (reader_step cfg v file rid env_ok r (queue s))
      as [[[r' q'] evs']|] eqn:Hrs; [|done].
    simplify_eq. by eapply clean_reader_step.
  - destruct (consumers s !! cid) as [c|] eqn:Hc; [|done].
    destruct (consumer_step v cid c (queue s) (global_hash_xor s) (crc s))
      as [[[[[c' q'] h'] cs'] evs']|] eqn:Hcs; [|done].
    simplify_eq. by eapply clean_consumer_step.
Qed.

Lemma entry_clean : Clean (entry_state q0 h0 c0).
Proof. by constructor. Qed.

Lemma exec_clean sched s tr :
  failure_free sched ->
  exec cfg v file sched (entry_state q0 h0 c0) = Some (s, tr) ->
  Inv s tr /\ Clean s.
Proof.
  revert s tr. induction sched as [|a sched IH] using rev_ind;
    intros s tr Hff Hex.
  - cbn in Hex. simplify_eq. split; [by apply entry_inv|apply entry_clean].
  - apply Forall_app in Hff as [Hff Ha].
    apply exec_snoc in Hex as (s1 & tr1 & tr2 & Hex1 & Hs & ->).
    destruct (IH _ _ Hff Hex1) as [HI HC].
    split; [by eapply step_inv|].
    destruct a as [t e]. rewrite Forall_singleton in Ha.
    change (e = env_ok) in Ha. subst e.
    by eapply step_clean.
Qed.


(** Once the orchestrator has reported, after a run without failures, every
    block has been claimed and the accumulator is the XOR of the digests of
    all blocks. *)
Lemma reported_state sched s tr :
  (1 <= NUM_CONSUMERS cfg)%nat ->
  failure_free sched ->
  exec cfg v file sched (entry_state q0 h0 c0) = Some (s, tr) ->
  main_pc s = MReturned Reported ->
  next_block (queue s) = T
  /\ nodes (queue s) = []
  /\ global_hash_xor s = blocks_digest cfg file (Z.to_nat T)
  /\ reported_hashes tr
     = if 1 <=? v then [blocks_digest cfg file (Z.to_nat T)] else [].
Proof.
  intros Hm Hff Hex Hpc.
  destruct (exec_clean _ _ _ Hff Hex) as [HI HC].
  assert (Hst : started s) by (unfold started; by rewrite Hpc).
  pose proof (inv_joined_consumers _ _ _ _ _ _ _ _ HI Hpc) as Hjc.
  destruct (inv_consumers _ _ _ _ _ _ _ _ HI (NUM_CONSUMERS cfg)) as [Hlen _];
    [by rewrite Hpc|].
  destruct (lookup_lt_is_Some_2 (consumers s) 0) as [c Hc]; [lia|].
  pose proof (Forall_lookup_1 _ _ _ _ Hjc Hc) as ->.
  destruct (inv_exited _ _ _ _ _ _ _ _ HI Hst) as [Hrd Hcnt]; [by exists 0%nat|].
  destruct (inv_chain _ _ _ _ _ _ _ _ HI Hst) as [Hchain _].
  assert (Hnodes : nodes (queue s) = []).
  { destruct (nodes (queue s)); [done|]. cbn [length] in Hchain. lia. }
  pose proof (clean_done _ _ _ HC Hst Hrd) as Hnb.
  assert (Hjr : Forall (fun r => reader_gone r = true) (readers s)).
  { apply (inv_joined_readers _ _ _ _ _ _ _ _ HI). by rewrite Hpc. }
  pose proof (clean_account _ _ _ HC Hst) as Hacc.
  unfold in_flight in Hacc. rewrite Hnodes, Hnb in Hacc.
  rewrite (xor_with_zero reader_held (readers s)) in Hacc.
  2:{ eapply Forall_impl; [exact Hjr|]. intros [rpc tb]. unfold reader_gone, reader_held.
      cbn [r_pc]. by destruct rpc. }
  rewrite (xor_with_zero consumer_held (consumers s)) in Hacc.
  2:{ eapply Forall_impl; [exact Hjc|]. by intros ? ->. }
  cbn [xor_with foldr] in Hacc. rewrite !Z.lxor_0_r in Hacc.
  split_and!; try done.
  rewrite (inv_report _ _ _ _ _ _ _ _ HI Hst), Hpc. by rewrite Hacc.
Qed.

End CleanRuns.

(** ** A run that reaches the report *)

(** Symbolic execution of one step on an explicit state. *)
Ltac sim_cbn :=
  cbn [exec step main_step reader_step consumer_step ok fst snd
       enqueue_locked enqueue_post dequeue_locked
       dequeue_post mark_reader_done drop_reader sem_post drained
       main_pc queue global_hash_xor crc readers consumers
       nodes count empty_slots full_slots reading_done active_readers
       total_blocks next_block file_size
       r_pc total_bytes p_index p_offset p_buf data size
       fopen_ok malloc_ok malloc2_ok fseek_ok fread_stop create_ok env_ok
       negb andb lookup list_lookup insert list_insert app].

Ltac sim :=
  sim_cbn;
  unfold with_chain, with_empty_slots, with_full_slots, with_reading_done,
    with_active_readers, with_next_block, with_partition;
  sim_cbn.

Lemma exec_cons_eq cfg v file a rest s s1 e1 s2 e2 :
  step cfg v file a s = Some (s1, e1) ->
  exec cfg v file rest s1 = Some (s2, e2) ->
  exec cfg v file (a :: rest) s = Some (s2, e1 ++ e2).
Proof. intros H1 H2. cbn [exec]. by rewrite H1, H2. Qed.

Lemma exec_app_eq cfg v file sched1 sched2 s s1 e1 s2 e2 :
  exec cfg v file sched1 s = Some (s1, e1) ->
  exec cfg v file sched2 s1 = Some (s2, e2) ->
  exec cfg v file (sched1 ++ sched2) s = Some (s2, e1 ++ e2).
Proof. intros H1 H2. by rewrite exec_app, H1, H2. Qed.

Lemma reserve_next_block_lt q :
  next_block q < total_blocks q ->
  reserve_next_block q
  = (with_next_block q (u64 (next_block q + 1)), Some (next_block q)).
Proof.
  intros H. unfold reserve_next_block.
  by rewrite (proj2 (Z.leb_gt (total_blocks q) (next_block q))).
Qed.

Lemma reserve_next_block_ge q :
  total_blocks q <= next_block q -> reserve_next_block q = (q, None).
Proof.
  intros H. unfold reserve_next_block.
  by rewrite (proj2 (Z.leb_le (total_blocks q) (next_block q))).
Qed.

Lemma eqb_length_nonempty {A} (l : list A) :
  l <> [] -> (Z.of_nat (length l) =? 0) = false.
Proof. intros H. apply Z.eqb_neq. destruct l; [done|]. cbn [length]. lia. Qed.

Section Termination.
Context (cfg : Config) (v : Z) (file : list byte) (c0 : crc_state).
Hypothesis HBS : 0 < BLOCK_SIZE cfg.
Hypothesis Hfit : Z.of_nat (length file) + BLOCK_SIZE cfg <= 2 ^ 64.
Hypothesis Hc0 : crc_wf c0.
Hypothesis Hcap : 1 <= MAX_QUEUE_SIZE cfg.

Local Abbreviation F := (F file).
Local Abbreviation T := (T cfg file).
Local Abbreviation running := (running_state cfg file c0).

Lemma exec_one_block k n tb rs cs :
  0 <= k < T ->
  exists tb' tr,
    exec cfg v file one_block
      (running k n 0 (mk_reader RClaim tb :: rs) (CCheck :: cs))
    = Some (running (k + 1) n 0 (mk_reader RClaim tb' :: rs) (CCheck :: cs),
            tr).
Proof.
  intros Hk. unfold one_block, running_state, idle_queue.
  cbn [replicate app].
  pose proof (u64_next cfg file HBS Hfit k Hk) as Hu.
  set (q1 := mk_queue [] 0 (MAX_QUEUE_SIZE cfg) 0 0 n T (u64 (k + 1)) F).
  destruct (fread_block cfg file HBS Hfit q1 k eq_refl Hk) as [Hfr Hne].
  eexists _, _.
  (* reader 0: claim, read *)
  eapply exec_cons_eq.
  { sim. rewrite reserve_next_block_lt by (cbn; lia). sim. fold q1.
    rewrite Hfr, eqb_length_nonempty by done. reflexivity. }
  (* reader 0: sem_wait(&empty_slots) *)
  eapply exec_cons_eq.
  { sim. unfold sem_wait. cbn [empty_slots q1]. rewrite (proj2 (Z.ltb_lt 0 (MAX_QUEUE_SIZE cfg))) by lia. reflexivity. }
  eapply exec_cons_eq.
  { sim. reflexivity. }
  eapply exec_cons_eq.
  { sim. reflexivity. }
  (* consumer 0 *)
  eapply exec_cons_eq.
  { sim. cbn [q1 reading_done Z.eqb negb andb]. reflexivity. }
  eapply exec_cons_eq.
  { sim. unfold sem_wait. cbn [q1]. sim. replace (0 <? 0 + 1) with true by done. reflexivity. }
  eapply exec_cons_eq.
  { sim. cbn [q1]. sim. replace (0 + 1 =? 0) with false by done. sim. reflexivity. }
  eapply exec_cons_eq.
  { sim. reflexivity. }
  eapply exec_cons_eq.
  { sim. unfold bytes_read. cbn [p_buf]. 
    rewrite Nat2Z.id, firstn_all.
    rewrite process_buffer_data_wf by (by apply crc64_init_wf). reflexivity. }
  cbn [exec]. subst q1. unfold sem_post.
  cbn [count full_slots active_readers total_blocks next_block file_size].
  rewrite crc64_init_idem, Hu.
  replace (Z.to_nat (k + 1)) with (S (Z.to_nat k)) by lia.
  rewrite (blocks_digest_S cfg file).
  replace (0 + 1 - 1) with 0 by lia.
  replace (MAX_QUEUE_SIZE cfg - 1 + 1) with (MAX_QUEUE_SIZE cfg) by lia.
  reflexivity.
Qed.

(** Block after block. *)
Lemma exec_blocks (j : nat) k n tb rs cs :
  0 <= k -> k + Z.of_nat j <= T ->
  exists tb' tr,
    exec cfg v file (concat (replicate j one_block))
      (running k n 0 (mk_reader RClaim tb :: rs) (CCheck :: cs))
    = Some (running (k + Z.of_nat j) n 0
              (mk_reader RClaim tb' :: rs) (CCheck :: cs), tr).
Proof.
  revert k tb. induction j as [|j IH]; intros k tb Hk Hj.
  - exists tb, []. cbn [replicate concat exec]. by rewrite Z.add_0_r.
  - cbn [replicate concat]. rewrite exec_app.
    destruct (exec_one_block k n tb rs cs) as (tb1 & tr1 & ->); [lia|].
    destruct (IH (k + 1) tb1) as (tb2 & tr2 & ->); [lia..|].
    exists tb2, (tr1 ++ tr2). do 3 f_equal. lia.
Qed.

Lemma replicate_cons_snoc {A} (x y : A) i j :
  replicate i x ++ x :: replicate j y = replicate (S i) x ++ replicate j y.
Proof. by rewrite <- replicate_snoc, <- app_assoc. Qed.

Lemma lookup_replicate_app {A} (x y : A) i l :
  (replicate i x ++ y :: l) !! i = Some y.
Proof. by rewrite lookup_app_r, length_replicate, Nat.sub_diag by (rewrite length_replicate; lia). Qed.

Lemma insert_replicate_app {A} (x y z : A) i l :
  <[i := z]> (replicate i x ++ y :: l) = replicate i x ++ z :: l.
Proof.
  rewrite insert_app_r_alt by (rewrite length_replicate; lia).
  by rewrite length_replicate, Nat.sub_diag.
Qed.

(** The creation loop for the consumers. *)
Lemma exec_create_consumers (k i : nat) q h c rs :
  (i + k <= NUM_CONSUMERS cfg)%nat ->
  exists tr,
    exec cfg v file (replicate k (ok Main))
      (mk_state (MCreateConsumers i) q h c rs (replicate i CCheck))
    = Some (mk_state (MCreateConsumers (i + k)) q h c rs
              (replicate (i + k) CCheck), tr).
Proof.
  revert i. induction k as [|k IH]; intros i Hik.
  - exists []. cbn [replicate exec]. by rewrite Nat.add_0_r.
  - cbn [replicate]. destruct (IH (S i)) as (tr & Htr); [lia|].
    eexists. eapply exec_cons_eq.
    + sim. rewrite (proj2 (Nat.ltb_lt i (NUM_CONSUMERS cfg))) by lia.
      rewrite replicate_snoc. reflexivity.
    + rewrite Htr. do 3 f_equal; [f_equal|f_equal]; lia.
Qed.

(** The creation loop for the readers. *)
Lemma exec_create_readers (k i : nat) q h c cs :
  (i + k <= NUM_READERS cfg)%nat ->
  exists tr,
    exec cfg v file (replicate k (ok Main))
      (mk_state (MCreateReaders i) q h c (replicate i (mk_reader RStart 0)) cs)
    = Some (mk_state (MCreateReaders (i + k)) q h c
              (replicate (i + k) (mk_reader RStart 0)) cs, tr).
Proof.
  revert i. induction k as [|k IH]; intros i Hik.
  - exists []. cbn [replicate exec]. by rewrite Nat.add_0_r.
  - cbn [replicate]. destruct (IH (S i)) as (tr & Htr); [lia|].
    eexists. eapply exec_cons_eq.
    + sim. rewrite (proj2 (Nat.ltb_lt i (NUM_READERS cfg))) by lia.
      rewrite replicate_snoc. reflexivity.
    + rewrite Htr. do 3 f_equal; [f_equal|f_equal]; lia.
Qed.

(** Every reader opens the file and allocates its buffer. *)
Lemma exec_open_readers (j i : nat) pc q h c cs :
  exec cfg v file (List.map (fun i => ok (ReaderT i)) (seq i j))
    (mk_state pc q h c
       (replicate i (mk_reader RClaim 0) ++ replicate j (mk_reader RStart 0))
       cs)
  = Some (mk_state pc q h c (replicate (i + j) (mk_reader RClaim 0)) cs, []).
Proof.
  revert i. induction j as [|j IH]; intros i.
  - cbn [seq List.map exec replicate]. by rewrite app_nil_r, Nat.add_0_r.
  - cbn [seq List.map replicate].
    change [] with (@nil Event ++ []).
    eapply exec_cons_eq.
    + cbn [step ok readers queue main_pc global_hash_xor crc consumers].
      rewrite lookup_replicate_app. sim. rewrite insert_replicate_app.
      rewrite replicate_cons_snoc. reflexivity.
    + rewrite IH. do 3 f_equal. f_equal. lia.
Qed.

Lemma mark_reader_done_partition q :
  total_blocks (mark_reader_done q) = total_blocks q
  /\ next_block (mark_reader_done q) = next_block q.
Proof.
  unfold mark_reader_done, with_reading_done, with_active_readers.
  cbn [active_readers]. by destruct (active_readers q - 1 =? 0).
Qed.

(** Every reader finds that no block is left and exits. *)
Lemma exec_readers_exit todo done pc q h c cs :
  Forall (fun r => r_pc r = RClaim) todo ->
  total_blocks q <= next_block q ->
  exists tr,
    exec cfg v file
      (flat_map (fun i => [ok (ReaderT i); ok (ReaderT i)])
         (seq (length done) (length todo)))
      (mk_state pc q h c (done ++ todo) cs)
    = Some (mk_state pc (Nat.iter (length todo) mark_reader_done q) h c
              (done ++ (exited <$> todo)) cs, tr).
Proof.
  revert done q. induction todo as [|[rpc tb] todo IH]; intros done q Hall Hq.
  - exists []. reflexivity.
  - apply Forall_cons in Hall as [Hpc Hall]. cbn [r_pc] in Hpc. subst rpc.
    cbn [length seq flat_map app]. rewrite Nat.iter_succ_r.
    destruct (mark_reader_done_partition q) as [Htb Hnb].
    destruct (IH (done ++ [exited (mk_reader RClaim tb)]) (mark_reader_done q))
      as (tr & Htr); [done|lia|].
    rewrite length_app, Nat.add_1_r, <- !app_assoc in Htr. cbn [app] in Htr.
    eexists.
    eapply exec_cons_eq.
    { cbn [step ok readers queue main_pc global_hash_xor crc consumers].
      rewrite list_lookup_middle by done. sim.
      rewrite reserve_next_block_ge by done.
      rewrite insert_app_r_alt, Nat.sub_diag by lia. reflexivity. }
    eapply exec_cons_eq.
    { cbn [step ok readers queue main_pc global_hash_xor crc consumers
           list_insert insert].
      rewrite list_lookup_middle by done.
      cbn [reader_step r_pc total_bytes].
      rewrite insert_app_r_alt, Nat.sub_diag by lia. reflexivity. }
    cbn [fmap list_fmap]. exact Htr.
Qed.

(** Every consumer sees the drain and leaves its loop. *)
Lemma exec_consumers_exit (j i : nat) pc q h c rs :
  drained q = true ->
  exec cfg v file (List.map (fun j => ok (ConsumerT j)) (seq i j))
    (mk_state pc q h c rs (replicate i CExited ++ replicate j CCheck))
  = Some (mk_state pc q h c rs (replicate (i + j) CExited), []).
Proof.
  intros Hd. revert i. induction j as [|j IH]; intros i.
  - cbn [seq List.map exec replicate]. by rewrite app_nil_r, Nat.add_0_r.
  - cbn [seq List.map replicate].
    change [] with (@nil Event ++ []).
    eapply exec_cons_eq.
    + cbn [step ok readers queue main_pc global_hash_xor crc consumers].
      rewrite lookup_replicate_app. cbn [consumer_step]. rewrite Hd.
      rewrite insert_replicate_app, replicate_cons_snoc. reflexivity.
    + rewrite IH. do 3 f_equal. f_equal. lia.
Qed.

Lemma failure_free_replicate k t : failure_free (replicate k (ok t)).
Proof. apply Forall_replicate. reflexivity. Qed.

Lemma sequential_schedule_failure_free nblocks :
  failure_free (sequential_schedule cfg nblocks).
Proof.
  unfold sequential_schedule, failure_free. rewrite !Forall_app.
  split_and!.
  - apply failure_free_replicate.
  - apply Forall_forall. intros a Ha. apply list_elem_of_In, in_map_iff in Ha.
    by destruct Ha as (i & <- & _).
  - apply Forall_concat, Forall_replicate. unfold one_block.
    apply Forall_app. split; apply failure_free_replicate.
  - apply Forall_forall. intros a Ha.
    apply list_elem_of_In, in_flat_map in Ha as (i & _ & Hi).
    cbn in Hi. by destruct Hi as [<-|[<-|[]]].
  - apply failure_free_replicate.
  - apply Forall_forall. intros a Ha. apply list_elem_of_In, in_map_iff in Ha.
    by destruct Ha as (i & <- & _).
  - by repeat constructor.
Qed.

Lemma iter_mark_reader_done (j : nat) k f :
  Nat.iter (S j) mark_reader_done
    (idle_queue cfg file k (Z.of_nat (S j)) 0 f)
  = idle_queue cfg file k 0 1 f.
Proof.
  induction j as [|j IH].
  - reflexivity.
  - rewrite Nat.iter_succ_r. rewrite <- IH. f_equal.
    unfold mark_reader_done, idle_queue, with_active_readers,
      with_reading_done. cbn [active_readers].
    replace (Z.of_nat (S (S j)) - 1) with (Z.of_nat (S j)) by lia.
    by replace (Z.of_nat (S j) =? 0) with false
      by (symmetry; apply Z.eqb_neq; lia).
Qed.

Lemma forallb_exited rs : forallb reader_gone (exited <$> rs) = true.
Proof. induction rs as [|r rs IH]; [done|]. cbn. exact IH. Qed.

Lemma forallb_replicate_exited k :
  forallb consumer_gone (replicate k CExited) = true.
Proof. induction k as [|k IH]; [done|]. cbn. exact IH. Qed.

(** The sequential schedule takes the pipeline from its entry, on any file
    that is not empty, to the report of the orchestrator. *)
Lemma sequential_schedule_reports q0 h0 :
  (1 <= NUM_READERS cfg)%nat ->
  (1 <= NUM_CONSUMERS cfg)%nat ->
  file <> [] ->
  exists s tr,
    exec cfg v file (sequential_schedule cfg (Z.to_nat T))
      (entry_state q0 h0 c0) = Some (s, tr)
    /\ main_pc s = MReturned Reported.
Proof.
  intros Hn Hm Hfile.
  pose proof (F_length cfg file HBS Hfit) as HF.
  pose proof (T_nonneg cfg file HBS Hfit) as HT.
  assert (HF0 : (F =? 0) = false).
  { apply Z.eqb_neq. rewrite HF. destruct file; [done|]. cbn [length]. lia. }
  destruct (NUM_READERS cfg) as [|n] eqn:En; [lia|].
  destruct (NUM_CONSUMERS cfg) as [|m] eqn:Em; [lia|].
  unfold sequential_schedule. rewrite En, Em.
  replace (S m + S n + 3)%nat with (1 + (S m + (1 + (S n + 1))))%nat by lia.
  replace (S m + 2)%nat with (1 + (S m + 1))%nat by lia.
  rewrite !replicate_add, <- !app_assoc.
  (* the pieces *)
  destruct (exec_create_consumers (S m) 0 (idle_queue cfg file 0 0 0 0) 0
              (crc64_init c0) []) as (tr1 & H2); [lia|].
  destruct (exec_create_readers (S n) 0
              (with_active_readers (idle_queue cfg file 0 0 0 0)
                 (Z.of_nat (S n))) 0 (crc64_init c0)
              (replicate (S m) CCheck)) as (tr2 & H4); [lia|].
  destruct (exec_blocks (Z.to_nat T) 0 (Z.of_nat (S n)) 0
              (replicate n (mk_reader RClaim 0)) (replicate m CCheck))
    as (tb & tr3 & H7); [lia..|].
  rewrite Z.add_0_l, Z2Nat.id in H7 by done.
  destruct (exec_readers_exit
              (mk_reader RClaim tb :: replicate n (mk_reader RClaim 0)) []
              MJoinReaders (idle_queue cfg file T (Z.of_nat (S n)) 0 0)
              (blocks_digest cfg file (Z.to_nat T)) (crc64_init c0)
              (CCheck :: replicate m CCheck)) as (tr4 & H8).
  { constructor; [done|]. by apply Forall_replicate. }
  { cbn [idle_queue total_blocks next_block]. lia. }
  cbn [length] in H8. rewrite length_replicate in H8.
  rewrite iter_mark_reader_done in H8.
  eexists _, _. split.
  - (* the orchestrator starts *)
    eapply exec_app_eq.
    { cbn [replicate]. rewrite exec_one. unfold entry_state. sim.
      unfold get_file_size. cbn [fopen_ok env_ok negb].
      change (u64 (Z.of_nat (length file))) with F.
      rewrite HF0. reflexivity. }
    (* creates the consumers, sets active_readers, creates the readers *)
    eapply exec_app_eq; [exact H2|].
    eapply exec_app_eq.
    { cbn [replicate]. rewrite exec_one. sim.
      rewrite Em, En, (proj2 (Nat.ltb_ge _ _)) by lia. reflexivity. }
    eapply exec_app_eq; [exact H4|].
    eapply exec_app_eq.
    { cbn [replicate]. rewrite exec_one. sim.
      rewrite En, (proj2 (Nat.ltb_ge _ _)) by lia. reflexivity. }
    (* the readers open the file, the blocks go through, the readers exit *)
    eapply exec_app_eq; [exact (exec_open_readers (S n) 0 _ _ _ _ _)|].
    eapply exec_app_eq; [exact H7|].
    eapply exec_app_eq; [exact H8|].
    (* the orchestrator joins the readers and wakes the consumers *)
    eapply exec_app_eq.
    { cbn [replicate]. rewrite exec_one. sim.
      cbn [app]. rewrite forallb_exited. reflexivity. }
    eapply exec_app_eq.
    { apply (wake_loop cfg v file env_ok _ 0 (S m)); [done|].
      rewrite Em. lia. }
    eapply exec_app_eq.
    { cbn [replicate]. rewrite exec_one. sim.
      rewrite Em, (proj2 (Nat.ltb_ge _ _)) by lia. reflexivity. }
    (* the consumers exit, the orchestrator reports *)
    eapply exec_app_eq.
    { apply (exec_consumers_exit (S m) 0). reflexivity. }
    rewrite exec_one. sim. rewrite forallb_replicate_exited. reflexivity.
  - reflexivity.
Qed.

End Termination.

(** ** Blocks and their indices *)

Section Indices.

Lemma digest_spec buf : digest buf = spec_digest buf.
Proof.
  unfold digest. rewrite crc64_compute_wf; [|apply crc_static_wf|lia].
  cbn [fst]. by rewrite Nat2Z.id, firstn_all.
Qed.

Lemma blocks_xor_digest cfg file n :
  blocks_xor cfg file n = blocks_digest cfg file n.
Proof.
  unfold blocks_xor, blocks_digest, xor_with.
  induction (seq 0 n) as [|k l IH]; [done|].
  cbn [List.map foldr]. by rewrite IH, digest_spec.
Qed.

Lemma claimed_indices_reservations tr :
  claimed_indices tr = omap id (reservations tr).
Proof.
  unfold claimed_indices, reservations.
  induction tr as [|[l|rid [i|]|cid h] tr IH]; cbn; by rewrite ?IH.
Qed.

Lemma omap_id_reserved (l : list Z) (k : nat) :
  omap id ((Some <$> l) ++ replicate k None) = l.
Proof.
  induction l as [|x l IH]; cbn.
  - induction k as [|k IHk]; [done|]. cbn. done.
  - by rewrite IH.
Qed.

Lemma reservations_unprinted tr : reservations tr = reservations (unprinted tr).
Proof.
  unfold reservations, unprinted.
  induction tr as [|[l|rid r|cid h] tr IH]; cbn; by rewrite ?IH.
Qed.

Lemma folded_digests_unprinted tr :
  folded_digests tr = folded_digests (unprinted tr).
Proof.
  unfold folded_digests, unprinted.
  induction tr as [|[l|rid r|cid h] tr IH]; cbn; by rewrite ?IH.
Qed.

Lemma elem_of_zseq i n : i ∈ zseq n <-> 0 <= i < n.
Proof.
  unfold zseq. rewrite list_elem_of_fmap. split.
  - intros (k & -> & Hk). apply list_elem_of_In, in_seq in Hk. lia.
  - intros Hi. exists (Z.to_nat i). split; [lia|].
    apply list_elem_of_In, in_seq. lia.
Qed.

Lemma zseq_sorted n : StronglySorted Z.lt (zseq n).
Proof.
  unfold zseq. generalize (Z.to_nat n) as m, 0%nat as a. intros m.
  induction m as [|m IH]; intros a; [constructor|].
  cbn [seq fmap list_fmap]. constructor; [apply IH|].
  apply Forall_forall. intros x Hx.
  apply list_elem_of_fmap in Hx as (k & -> & Hk).
  apply list_elem_of_In, in_seq in Hk. lia.
Qed.

Lemma zseq_NoDup n : NoDup (zseq n).
Proof.
  unfold zseq. apply NoDup_fmap_2; [intros ? ?; lia|].
  apply NoDup_ListNoDup, seq_NoDup.
Qed.

End Indices.

(** ** Claims on the partition of the file *)

Section PartitionClaims.

(** C8.  In every run the successive results of the reservation (the
    locked read-and-increment of [next_block]) are the indices 0, 1, ...,
    n-1 in this order, followed by empty results only, and an empty result
    is returned only once n has reached the block count: claimed indices
    are strictly increasing and none is returned twice.  In a run in which
    no call fails, n is the block count as soon as one reader has left its
    loop, so every index below the block count has then been returned
    exactly once; and such a run exists. *)
Theorem reservations_partition cfg v file q0 h0 c0 sched s tr :
  0 < BLOCK_SIZE cfg ->
  Z.of_nat (length file) + BLOCK_SIZE cfg <= 2 ^ 64 ->
  crc_wf c0 ->
  exec cfg v file sched (entry_state q0 h0 c0) = Some (s, tr) ->
  (exists (n : Z) (k : nat),
     reservations tr = (Some <$> zseq n) ++ replicate k None
     /\ claimed_indices tr = zseq n
     /\ 0 <= n <= T cfg file
     /\ (k <> 0%nat -> n = T cfg file)
     /\ (started s -> next_block (queue s) = n)
     /\ (failure_free sched ->
         (exists rid r, readers s !! rid = Some r
                        /\ (r_pc r = RMarkDone \/ r_pc r = RExited)) ->
         n = T cfg file))
  /\ StronglySorted Z.lt (claimed_indices tr)
  /\ NoDup (claimed_indices tr)
  /\ (forall i, i ∈ claimed_indices tr -> 0 <= i < T cfg file)
  /\ ((1 <= MAX_QUEUE_SIZE cfg) -> (1 <= NUM_READERS cfg)%nat ->
      (1 <= NUM_CONSUMERS cfg)%nat -> file <> [] ->
      exists s' tr',
        exec cfg v file (sequential_schedule cfg (Z.to_nat (T cfg file)))
          (entry_state q0 h0 c0) = Some (s', tr')
        /\ failure_free (sequential_schedule cfg (Z.to_nat (T cfg file)))
        /\ main_pc s' = MReturned Reported
        /\ claimed_indices tr' = zseq (T cfg file)).
Proof.
  intros HBS Hfit Hc0 Hex.
  pose proof (exec_inv cfg v file q0 h0 c0 HBS Hfit Hc0 _ _ _ Hex) as HI.
  pose proof (T_nonneg cfg file HBS Hfit) as HT.
  assert (Hmain : exists (n : Z) (k : nat),
     reservations tr = (Some <$> zseq n) ++ replicate k None
     /\ claimed_indices tr = zseq n
     /\ 0 <= n <= T cfg file
     /\ (k <> 0%nat -> n = T cfg file)
     /\ (started s -> next_block (queue s) = n)
     /\ (failure_free sched ->
         (exists rid r, readers s !! rid = Some r
                        /\ (r_pc r = RMarkDone \/ r_pc r = RExited)) ->
         n = T cfg file)).
  { destruct (started_dec s) as [Hst|Hst].
    - destruct (inv_reservations _ _ _ _ _ _ _ _ HI Hst) as (k & Hres & Hk).
      destruct (inv_partition _ _ _ _ _ _ _ _ HI Hst) as (_ & _ & Hnb).
      exists (next_block (queue s)), k. split_and!; try (done || lia).
      + by rewrite claimed_indices_reservations, Hres, omap_id_reserved.
      + intros Hff (rid & r & Hr & Hpc).
        destruct (exec_clean cfg v file q0 h0 c0 HBS Hfit Hc0 _ _ _ Hff Hex)
          as [_ HC].
        pose proof (clean_readers _ _ _ HC Hst) as Hok.
        pose proof (Forall_lookup_1 _ _ _ _ Hok Hr) as Hr'.
        unfold reader_ok in Hr'. by destruct Hpc as [Hpc|Hpc]; rewrite Hpc in Hr'.
    - destruct (inv_idle _ _ _ _ _ _ _ _ HI Hst) as (Hrs & _ & _ & _ & _ & Hun & _).
      exists 0, 0%nat. split_and!; try (done || lia).
      + by rewrite reservations_unprinted, Hun.
      + by rewrite claimed_indices_reservations, reservations_unprinted, Hun.
      + intros _ (rid & r & Hr & _). by rewrite Hrs in Hr. }
  split; [exact Hmain|].
  destruct Hmain as (n & k & _ & Hcl & Hn & _).
  rewrite Hcl. split_and!.
  - apply zseq_sorted.
  - apply zseq_NoDup.
  - intros i Hi%elem_of_zseq. lia.
  - intros Hcap Hnr Hnc Hfile.
    destruct (sequential_schedule_reports cfg v file c0 HBS Hfit Hc0 Hcap q0 h0
                Hnr Hnc Hfile) as (s' & tr' & Hex' & Hpc').
    pose proof (sequential_schedule_failure_free cfg (Z.to_nat (T cfg file)))
      as Hff.
    exists s', tr'. split_and!; try done.
    destruct (reported_state cfg v file q0 h0 c0 HBS Hfit Hc0 _ _ _ Hnc Hff Hex' Hpc')
      as (Hnb & _).
    pose proof (exec_inv cfg v file q0 h0 c0 HBS Hfit Hc0 _ _ _ Hex') as HI'.
    assert (Hst : started s') by (unfold started; by rewrite Hpc').
    destruct (inv_reservations _ _ _ _ _ _ _ _ HI' Hst) as (k' & Hres & _).
    rewrite claimed_indices_reservations, Hres, omap_id_reserved.
    by rewrite Hnb.
Qed.

Lemma reservations_partition_witness :
  exists s tr,
    exec small_config 1 check_bytes (sequential_schedule small_config 3)
      (fresh_state small_config) = Some (s, tr)
    /\ claimed_indices tr = [0; 1; 2]
    /\ NoDup (claimed_indices tr).
Proof.
  eexists _, _. split; [vm_compute; reflexivity|].
  split; [vm_compute; reflexivity|].
  refine (proj1 (proj2 (proj2
    (reservations_partition small_config 1 check_bytes
       (init_buffer_queue small_config) 0 crc_static
       (sequential_schedule small_config 3) _ _ _ _ _ _)))).
  - vm_compute; reflexivity.
  - vm_compute. discriminate.
  - apply crc_static_wf.
  - vm_compute; reflexivity.
Defined.


(** C7.  For a file of [BLOCK_SIZE + 1] bytes the orchestrator computes two
    blocks; the second block is claimed at offset [BLOCK_SIZE] with one byte
    to read, and it is the last byte of the file.  Every run in which no
    call fails and that reaches the report, whatever the interleaving of
    readers and consumers, has claimed the indices 0 and 1 and leaves
    [digest block0 XOR digest block1] in the accumulator, which is the
    value printed; and such a run exists. *)
Theorem block_and_one_byte cfg v file q0 h0 c0 :
  0 < BLOCK_SIZE cfg ->
  2 * BLOCK_SIZE cfg + 1 <= 2 ^ 64 ->
  crc_wf c0 ->
  1 <= MAX_QUEUE_SIZE cfg ->
  (1 <= NUM_READERS cfg)%nat ->
  (1 <= NUM_CONSUMERS cfg)%nat ->
  Z.of_nat (length file) = BLOCK_SIZE cfg + 1 ->
  let block0 := file_block cfg file 0 in
  let block1 := file_block cfg file 1 in
  block_count cfg (u64 (Z.of_nat (length file))) = 2
  /\ block_offset cfg 1 = BLOCK_SIZE cfg
  /\ (forall q, file_size q = u64 (Z.of_nat (length file)) ->
                block_bytes_to_read cfg q (block_offset cfg 1) = 1)
  /\ fread env_ok file (block_offset cfg 1) 1 = block1
  /\ block0 = take (Z.to_nat (BLOCK_SIZE cfg)) file
  /\ block1 = drop (Z.to_nat (BLOCK_SIZE cfg)) file
  /\ length block1 = 1%nat
  /\ (forall sched s tr,
        failure_free sched ->
        exec cfg v file sched (entry_state q0 h0 c0) = Some (s, tr) ->
        main_pc s = MReturned Reported ->
        claimed_indices tr = [0; 1]
        /\ global_hash_xor s = Z.lxor (digest block0) (digest block1)
        /\ global_hash_xor s = blocks_xor cfg file 2
        /\ reported_hashes tr
           = if 1 <=? v then [Z.lxor (digest block0) (digest block1)] else [])
  /\ (exists s tr,
        exec cfg v file (sequential_schedule cfg 2) (entry_state q0 h0 c0)
        = Some (s, tr)
        /\ failure_free (sequential_schedule cfg 2)
        /\ main_pc s = MReturned Reported).
Proof.
  intros HBS H64 Hc0 Hcap Hnr Hnc Hlen block0 block1.
  assert (Hfit : Z.of_nat (length file) + BLOCK_SIZE cfg <= 2 ^ 64) by lia.
  pose proof (F_length cfg file HBS Hfit) as HF. unfold F in HF.
  assert (HT : T cfg file = 2).
  { rewrite (T_div cfg file HBS Hfit). unfold F. rewrite HF, Hlen.
    replace (BLOCK_SIZE cfg + 1 + BLOCK_SIZE cfg - 1)
      with (2 * BLOCK_SIZE cfg) by lia.
    apply Z.div_mul. lia. }
  assert (Hoff : block_offset cfg 1 = BLOCK_SIZE cfg).
  { unfold block_offset. rewrite Z.mul_1_l. apply u64_small. lia. }
  assert (Hdrop : length (drop (Z.to_nat (BLOCK_SIZE cfg)) file) = 1%nat).
  { rewrite length_drop. lia. }
  assert (Hb1 : block1 = drop (Z.to_nat (BLOCK_SIZE cfg)) file).
  { unfold block1, file_block. rewrite Nat.mul_1_l. apply take_ge. lia. }
  assert (Hxor : blocks_digest cfg file 2
                 = Z.lxor (digest block0) (digest block1)).
  { unfold blocks_digest. cbn [seq xor_with foldr].
    by rewrite Z.lxor_0_r, !digest_spec. }
  split_and!.
  - exact HT.
  - exact Hoff.
  - intros q Hq. unfold block_bytes_to_read. rewrite Hoff, Hq, HF, Hlen.
    rewrite (u64_small (BLOCK_SIZE cfg + BLOCK_SIZE cfg)) by lia.
    destruct (Z.ltb_spec (BLOCK_SIZE cfg + 1) (BLOCK_SIZE cfg + BLOCK_SIZE cfg)).
    + replace (BLOCK_SIZE cfg + 1 - BLOCK_SIZE cfg) with 1 by lia. done.
    + lia.
  - rewrite Hoff, Hb1. unfold fread. cbn [fread_stop env_ok].
    apply take_ge. lia.
  - unfold block0, file_block. by rewrite Nat.mul_0_l, drop_0.
  - exact Hb1.
  - by rewrite Hb1.
  - intros sched s tr Hff Hex Hpc.
    destruct (reported_state cfg v file q0 h0 c0 HBS Hfit Hc0 _ _ _ Hnc Hff Hex Hpc)
      as (Hnb & _ & Hh & Hrep).
    rewrite HT in Hh, Hrep. change (Z.to_nat 2) with 2%nat in Hh, Hrep.
    rewrite Hxor in Hh, Hrep.
    pose proof (exec_inv cfg v file q0 h0 c0 HBS Hfit Hc0 _ _ _ Hex) as HI.
    assert (Hst : started s) by (unfold started; by rewrite Hpc).
    destruct (inv_reservations _ _ _ _ _ _ _ _ HI Hst) as (k & Hres & _).
    split_and!; try done.
    + rewrite claimed_indices_reservations, Hres, omap_id_reserved.
      by rewrite Hnb, HT.
    + by rewrite blocks_xor_digest, Hxor.
  - assert (Hfile : file <> []) by (intros ->; cbn in Hlen; lia).
    destruct (sequential_schedule_reports cfg v file c0 HBS Hfit Hc0 Hcap q0 h0
                Hnr Hnc Hfile) as (s & tr & Hex & Hpc).
    rewrite HT in Hex. exists s, tr. split_and!; try done.
    apply sequential_schedule_failure_free.
Qed.

Lemma block_and_one_byte_witness :
  block_count source_config (u64 (Z.of_nat (length two_block_file))) = 2
  /\ block_count small_config (u64 5) = 2.
Proof.
  split.
  - refine (proj1 (block_and_one_byte source_config 1 two_block_file
                     (init_buffer_queue source_config) 0 crc_static
                     _ _ _ _ _ _ _)).
    + reflexivity.
    + vm_compute. discriminate.
    + apply crc_static_wf.
    + vm_compute. discriminate.
    + vm_compute. lia.
    + vm_compute. lia.
    + unfold two_block_file. rewrite length_replicate. apply Z2Nat.id.
      vm_compute. discriminate.
  - refine (proj1 (block_and_one_byte small_config 1 [x31; x32; x33; x34; x35]
                     (init_buffer_queue small_config) 0 crc_static
                     _ _ _ _ _ _ _)).
    + reflexivity.
    + vm_compute. discriminate.
    + apply crc_static_wf.
    + vm_compute. discriminate.
    + vm_compute. lia.
    + vm_compute. lia.
    + reflexivity.
Defined.

End PartitionClaims.

(** ** The empty file *)

Section EmptyFile.

(** What [async_sequential_read] prints before it returns on the failure of
    [get_file_size]. *)
Lemma returned_step cfg v file a how q h c :
  step cfg v file a (mk_state (MReturned how) q h c [] []) = None.
Proof. by destruct a as [[|rid|cid] e]. Qed.

Lemma empty_file_exec cfg v q0 h0 c0 sched s tr :
  exec cfg v [] sched (entry_state q0 h0 c0) = Some (s, tr) ->
  sched = [] /\ s = entry_state q0 h0 c0 /\ tr = []
  \/ exists e,
       sched = [(Main, e)]
       /\ s = mk_state (MReturned NoFile) q0 h0 c0 [] []
       /\ tr = say v 2 (L_async_banner (NUM_READERS cfg) (NUM_CONSUMERS cfg))
               ++ say v 2 (if fopen_ok e then L_file_empty else L_cannot_open).
Proof.
  destruct sched as [|[[|rid|cid] e] rest]; cbn [exec]; intros Hex.
  - left. by simplify_eq.
  - right. exists e. cbn [step] in Hex. unfold main_step, get_file_size in Hex.
    cbn [entry_state main_pc queue global_hash_xor crc readers consumers
         length] in Hex.
    assert (Hrest : forall tr1,
      match exec cfg v [] rest (mk_state (MReturned NoFile) q0 h0 c0 [] []) with
      | Some (s'', evs') => Some (s'', tr1 ++ evs')
      | None => None
      end = Some (s, tr) ->
      rest = [] /\ s = mk_state (MReturned NoFile) q0 h0 c0 [] [] /\ tr = tr1).
    { intros tr1. destruct rest as [|a rest]; cbn [exec].
      - rewrite app_nil_r. intros ?. by simplify_eq.
      - by rewrite returned_step. }
    destruct (fopen_ok e); cbn [negb] in Hex.
    + change (u64 (Z.of_nat 0) =? 0) with true in Hex. cbn beta iota in Hex.
      apply Hrest in Hex as (-> & -> & <-). done.
    + cbn beta iota in Hex. apply Hrest in Hex as (-> & -> & <-). done.
  - done.
  - done.
Qed.

(** C5 (as the code has it).  On an empty file [get_file_size] answers 0 and
    [async_sequential_read] returns at once: the only step any run can take
    is this one; no thread is created, no block is claimed or folded, the
    queue and the accumulator keep the values they had on entry, and no
    digest line is printed; at verbosity 2 the banner and the empty-file
    message are all that is printed. *)
Theorem empty_file_returns_early cfg v q0 h0 c0 sched s tr :
  exec cfg v [] sched (entry_state q0 h0 c0) = Some (s, tr) ->
  (main_pc s = MStart \/ main_pc s = MReturned NoFile)
  /\ ~ started s
  /\ readers s = [] /\ consumers s = []
  /\ queue s = q0 /\ global_hash_xor s = h0
  /\ reported_hashes tr = []
  /\ claimed_indices tr = [] /\ folded_digests tr = []
  /\ (forall h, ~ In (Print (L_hash h)) tr)
  /\ (forall e, sched = [(Main, e)] -> fopen_ok e = true ->
        main_pc s = MReturned NoFile
        /\ printed tr
           = if 2 <=? v
             then [L_async_banner (NUM_READERS cfg) (NUM_CONSUMERS cfg);
                   L_file_empty]
             else [])
  /\ exec cfg v [] [ok Main] (entry_state q0 h0 c0)
     = Some (mk_state (MReturned NoFile) q0 h0 c0 [] [],
             say v 2 (L_async_banner (NUM_READERS cfg) (NUM_CONSUMERS cfg))
             ++ say v 2 L_file_empty).
Proof.
  intros Hex.
  assert (Hlast : exec cfg v [] [ok Main] (entry_state q0 h0 c0)
     = Some (mk_state (MReturned NoFile) q0 h0 c0 [] [],
             say v 2 (L_async_banner (NUM_READERS cfg) (NUM_CONSUMERS cfg))
             ++ say v 2 L_file_empty)).
  { cbn. change (u64 (Z.of_nat 0) =? 0) with true. cbn beta iota.
    by rewrite app_nil_r. }
  apply empty_file_exec in Hex as [(-> & -> & ->)|(e & -> & -> & ->)].
  - split_and!; try done; try (by left); try (by intros h []).
    by intros [].
  - assert (Hnh : forall h,
      ~ In (Print (L_hash h))
          (say v 2 (L_async_banner (NUM_READERS cfg) (NUM_CONSUMERS cfg))
           ++ say v 2 (if fopen_ok e then L_file_empty else L_cannot_open))).
    { intros h. unfold say.
      destruct (2 <=? v), (fopen_ok e); cbn; intuition discriminate. }
    unfold started. cbn [main_pc readers consumers queue global_hash_xor].
    split_and!; try done; try (by right); try tauto.
    + rewrite reported_hashes_app, !reported_hashes_say.
      by destruct (fopen_ok e).
    + by rewrite claimed_indices_reservations, reservations_app,
        !reservations_say.
    + by rewrite folded_digests_unprinted, unprinted_app, !unprinted_say.
    + intros e' He' Hok. simplify_eq. rewrite Hok. split; [done|].
      unfold say. by destruct (2 <=? v).
Qed.

Lemma empty_file_returns_early_witness :
  reported_hashes
    [Print (L_async_banner 4 4); Print L_file_empty] = []
  /\ exec source_config 2 [] [ok Main] (fresh_state source_config)
     = Some (mk_state (MReturned NoFile) (init_buffer_queue source_config)
               0 crc_static [] [],
             [Print (L_async_banner 4 4); Print L_file_empty]).
Proof.
  assert (Hex : exec source_config 2 [] [ok Main] (fresh_state source_config)
     = Some (mk_state (MReturned NoFile) (init_buffer_queue source_config)
               0 crc_static [] [],
             [Print (L_async_banner 4 4); Print L_file_empty]))
    by reflexivity.
  split; [|exact Hex].
  pose proof (empty_file_returns_early source_config 2
                (init_buffer_queue source_config) 0 crc_static _ _ _ Hex) as H.
  tauto.
Defined.

(** C5 as stated does not hold: on the empty file the pipeline of the
    source, at full verbosity, prints the banner and the empty-file message
    and returns; no schedule makes it print a digest line or start the
    pipeline. *)
Lemma empty_file_reports_no_digest :
  exec source_config 2 [] [ok Main] (fresh_state source_config)
  = Some (mk_state (MReturned NoFile) (init_buffer_queue source_config)
            0 crc_static [] [],
          [Print (L_async_banner 4 4); Print L_file_empty])
  /\ ~ (exists sched s tr,
          exec source_config 2 [] sched (fresh_state source_config)
          = Some (s, tr)
          /\ ((exists h, In (Print (L_hash h)) tr) \/ started s)).
Proof.
  split; [reflexivity|].
  intros (sched & s & tr & Hex & Hbad).
  apply empty_file_exec in Hex as [(-> & -> & ->)|(e & -> & -> & ->)].
  - destruct Hbad as [[h []]|[]].
  - destruct Hbad as [[h Hin]|[]].
    destruct (fopen_ok e); cbn in Hin; intuition discriminate.
Qed.

End EmptyFile.

(** ** Readers that leave early *)

Section Stalled.
Context (cfg : Config) (v : Z) (file : list byte).

Lemma stalled_join s :
  stalled s -> forallb consumer_gone (consumers s) = false.
Proof.
  intros (_ & _ & _ & Hcs & Hne & _).
  destruct (consumers s) as [|c cs]; [done|].
  apply Forall_cons in Hcs as [Hc _]. cbn. by destruct c.
Qed.

Lemma stalled_step a s s' evs :
  stalled s -> step cfg v file a s = Some (s', evs) ->
  stalled s' /\ reported_hashes evs = [].
Proof.
  intros Hst Hstep. pose proof (stalled_join _ Hst) as Hjoin.
  destruct Hst as (Hrd & Har & Hrs & Hcs & Hne & Hpc).
  destruct a as [[|rid|cid] e]; cbn [step] in Hstep.
  - unfold main_step in Hstep. rewrite Hjoin in Hstep.
    destruct (main_pc s) eqn:Hmain; try done; case_hyp Hstep; simplify_eq;
      unfold stalled; cbn [main_pc queue readers consumers];
      queue_simpl; rewrite ?reported_hashes_say; done.
  - destruct (readers s !! rid) as [r|] eqn:Hr; [|done].
    pose proof (Forall_lookup_1 _ _ _ _ Hrs Hr) as Hgone.
    unfold reader_step in Hstep. unfold reader_gone in Hgone.
    by destruct (r_pc r).
  - destruct (consumers s !! cid) as [c|] eqn:Hc; [|done].
    pose proof (Forall_lookup_1 _ _ _ _ Hcs Hc) as Hnx.
    destruct (consumer_step v cid c (queue s) (global_hash_xor s) (crc s))
      as [[[[[c' q'] h'] cs'] evs']|] eqn:Hcstep; [|done].
    simplify_eq.
    assert (Hgoal : reading_done q' = 0 /\ active_readers q' = 0
                    /\ c' <> CExited
                    /\ reported_hashes evs = []).
    { unfold consumer_step, drained, dequeue_locked, dequeue_post,
        process_buffer_data in Hcstep.
      rewrite Hrd in Hcstep. cbn [Z.eqb negb andb] in Hcstep.
      destruct c; try done; case_hyp Hcstep; simplify_eq; queue_simpl;
        rewrite ?reported_hashes_folded, ?reported_hashes_say; done. }
    destruct Hgoal as (Hrd' & Har' & Hc' & Hev).
    split; [|done]. unfold stalled. cbn [main_pc queue readers consumers].
    split_and!; try done.
    + by apply Forall_insert.
    + intros Hnil. apply (f_equal length) in Hnil.
      rewrite length_insert in Hnil. by destruct (consumers s).
Qed.

Lemma stalled_exec s0 sched s tr :
  stalled s0 -> exec cfg v file sched s0 = Some (s, tr) ->
  stalled s /\ reported_hashes tr = [].
Proof.
  intros H0.
  apply (exec_induction cfg v file
           (fun s tr => stalled s /\ reported_hashes tr = [])); [done|].
  intros sched' s1 tr1 a s' evs _ [Hst Htr] Hstep.
  destruct (stalled_step _ _ _ _ Hst Hstep) as [Hst' Hev].
  split; [done|]. by rewrite reported_hashes_app, Htr, Hev.
Qed.

End Stalled.

(** C3 (what the code does).  A run of the pipeline of the source on a small
    file in which every reader fails to open the file: each reader leaves
    through the early exit, which decrements [active_readers] and does not
    touch [reading_done].  The run is left with [active_readers = 0],
    [reading_done = 0] and an empty queue.  From there, whatever is
    scheduled, [reading_done] stays 0, no consumer leaves its loop, the
    orchestrator joins the readers and posts its wake-ups and then stays
    blocked in the join of the consumers, and no digest is ever printed. *)
Theorem open_failure_never_completes :
  exists s1 tr1,
    exec source_config 1 check_bytes (open_failure_schedule source_config)
      (fresh_state source_config) = Some (s1, tr1)
    /\ active_readers (queue s1) = 0
    /\ reading_done (queue s1) = 0
    /\ count (queue s1) = 0
    /\ readers s1 = replicate 4 (mk_reader RExited 0)
    /\ consumers s1 = replicate 4 CCheck
    /\ main_pc s1 = MJoinReaders
    /\ (exists s2 tr2,
          exec source_config 1 check_bytes (replicate 6 (ok Main)) s1
          = Some (s2, tr2)
          /\ main_pc s2 = MJoinConsumers)
    /\ forall sched s tr,
         exec source_config 1 check_bytes sched s1 = Some (s, tr) ->
         reading_done (queue s) = 0
         /\ active_readers (queue s) = 0
         /\ Forall (fun c => c <> CExited) (consumers s)
         /\ main_pc s <> MReturned Reported
         /\ (main_pc s = MJoinConsumers ->
             forall e, step source_config 1 check_bytes (Main, e) s = None)
         /\ reported_hashes (tr1 ++ tr) = [].
Proof.
  eexists _, _. split; [vm_compute; reflexivity|].
  split_and!; try reflexivity.
  - eexists _, _. split; [vm_compute; reflexivity|]. reflexivity.
  - intros sched s tr Hex.
    apply stalled_exec in Hex as [Hst Htr].
    + pose proof (stalled_join _ Hst) as Hjoin.
      destruct Hst as (Hrd & Har & _ & Hcs & _ & Hpc).
      split_and!; try done.
      * intros Heq. by rewrite Heq in Hpc.
      * intros Heq e. cbn [step]. unfold main_step. by rewrite Heq, Hjoin.
    + unfold stalled. cbn [queue reading_done active_readers readers consumers main_pc].
      split_and!; try done.
      * by repeat constructor.
      * by repeat constructor.
Qed.

(** ** Verbosity *)

Section Verbosity.
Context (cfg : Config) (file : list byte) (v1 v2 : Z).

Lemma process_buffer_data_silent cid c h buf sz :
  let '(h1, c1, e1) := process_buffer_data v1 cid c h buf sz in
  let '(h2, c2, e2) := process_buffer_data v2 cid c h buf sz in
  h1 = h2 /\ c1 = c2 /\ unprinted e1 = unprinted e2
  /\ folded_digests e1 = [fst (crc64_compute c buf sz)]
  /\ folded_digests e2 = [fst (crc64_compute c buf sz)].
Proof.
  unfold process_buffer_data. destruct (crc64_compute c buf sz) as [bh c'].
  cbn [fst]. split_and!; try done.
  - cbn. by rewrite !unprinted_say.
  - by rewrite folded_digests_unprinted; cbn; rewrite unprinted_say.
  - by rewrite folded_digests_unprinted; cbn; rewrite unprinted_say.
Qed.

Lemma main_step_silent e s :
  silent (main_step cfg v1 file e s) = silent (main_step cfg v2 file e s).
Proof.
  unfold main_step, get_file_size.
  destruct (main_pc s); case_goal; cbn [silent];
    rewrite ?unprinted_app, ?unprinted_say; done.
Qed.

Lemma reader_step_silent rid e r q :
  silent (reader_step cfg v1 file rid e r q)
  = silent (reader_step cfg v2 file rid e r q).
Proof.
  unfold reader_step.
  destruct (r_pc r); cbn zeta; case_goal; cbn [silent];
    rewrite ?unprinted_app, ?unprinted_say; try done.
Qed.

Lemma consumer_step_silent cid c q h cs :
  silent (consumer_step v1 cid c q h cs) = silent (consumer_step v2 cid c q h cs).
Proof.
  unfold consumer_step.
  destruct c as [| | | |node|node|]; try (case_goal; cbn [silent]; done).
  pose proof (process_buffer_data_silent cid cs h (data node) (size node)) as H.
  destruct (process_buffer_data v1 cid cs h (data node) (size node))
    as [[h1 c1] e1].
  destruct (process_buffer_data v2 cid cs h (data node) (size node))
    as [[h2 c2] e2].
  destruct H as (-> & -> & He & _). cbn [silent]. by rewrite He.
Qed.

Lemma step_silent a s :
  silent (step cfg v1 file a s) = silent (step cfg v2 file a s).
Proof.
  destruct a as [[|rid|cid] e]; cbn [step].
  - apply main_step_silent.
  - destruct (readers s !! rid) as [r|]; [|done].
    pose proof (reader_step_silent rid e r (queue s)) as H.
    destruct (reader_step cfg v1 file rid e r (queue s)) as [[[r1 q1] e1]|],
      (reader_step cfg v2 file rid e r (queue s)) as [[[r2 q2] e2]|];
      cbn [silent] in *; simplify_eq; try done; congruence.
  - destruct (consumers s !! cid) as [c|]; [|done].
    pose proof (consumer_step_silent cid c (queue s) (global_hash_xor s)
                  (crc s)) as H.
    destruct (consumer_step v1 cid c (queue s) (global_hash_xor s) (crc s))
      as [[[[[c1 q1] h1] cs1] e1]|],
      (consumer_step v2 cid c (queue s) (global_hash_xor s) (crc s))
      as [[[[[c2 q2] h2] cs2] e2]|];
      cbn [silent] in *; simplify_eq; try done; congruence.
Qed.

Lemma exec_silent sched s :
  silent (exec cfg v1 file sched s) = silent (exec cfg v2 file sched s).
Proof.
  revert s. induction sched as [|a sched IH]; intros s; [done|].
  cbn [exec]. pose proof (step_silent a s) as H.
  destruct (step cfg v1 file a s) as [[s1 e1]|],
    (step cfg v2 file a s) as [[s2 e2]|]; cbn [silent] in H; simplify_eq;
    [|done].
  specialize (IH s2).
  destruct (exec cfg v1 file sched s2) as [[s1' e1']|],
    (exec cfg v2 file sched s2) as [[s2' e2']|]; cbn [silent] in *;
    simplify_eq; [|done].
  rewrite !unprinted_app. congruence.
Qed.

End Verbosity.

(** C10.  Two runs that differ only in the verbosity take the same steps
    under the same schedule: either both are defined or neither is; they
    end in the same state, so with the same accumulator, queue and checksum
    table; and their traces agree once the printed lines are erased, so
    they claim the same blocks and fold the same digests in the same order.
    [process_buffer_data] computes the same digest and the same accumulator
    at any verbosity. *)
Theorem verbosity_only_gates_printing cfg file v1 v2 sched s :
  silent (exec cfg v1 file sched s) = silent (exec cfg v2 file sched s)
  /\ match exec cfg v1 file sched s, exec cfg v2 file sched s with
     | Some (s1, tr1), Some (s2, tr2) =>
         s1 = s2
         /\ global_hash_xor s1 = global_hash_xor s2
         /\ folded_digests tr1 = folded_digests tr2
         /\ claimed_indices tr1 = claimed_indices tr2
         /\ unprinted tr1 = unprinted tr2
     | None, None => True
     | _, _ => False
     end
  /\ (forall cid c h buf sz,
        fst (process_buffer_data v1 cid c h buf sz)
        = fst (process_buffer_data v2 cid c h buf sz)
        /\ folded_digests (snd (process_buffer_data v1 cid c h buf sz))
           = folded_digests (snd (process_buffer_data v2 cid c h buf sz))).
Proof.
  pose proof (exec_silent cfg file v1 v2 sched s) as H.
  split; [exact H|]. split.
  - destruct (exec cfg v1 file sched s) as [[s1 tr1]|],
      (exec cfg v2 file sched s) as [[s2 tr2]|]; cbn [silent] in H;
      simplify_eq; try done.
    split_and!; try done.
    + rewrite (folded_digests_unprinted tr1), (folded_digests_unprinted tr2).
      congruence.
    + rewrite !claimed_indices_reservations,
        (reservations_unprinted tr1), (reservations_unprinted tr2).
      congruence.
  - intros cid c h buf sz.
    pose proof (process_buffer_data_silent v1 v2 cid c h buf sz) as Hp.
    destruct (process_buffer_data v1 cid c h buf sz) as [[h1 c1] e1],
      (process_buffer_data v2 cid c h buf sz) as [[h2 c2] e2].
    destruct Hp as (-> & -> & _ & He1 & He2). cbn [fst snd].
    by rewrite He1, He2.
Qed.

(** * Further properties of the code *)

(** ** crc64_simple.c: algebra of the checksum *)

Section Crc64Algebra.

Lemma crc64_update_wf st crc buf len :
  crc_wf st -> 0 <= len <= Z.of_nat (length buf) ->
  crc64_update st crc buf len
  = (fold_left (fun c b => crc64_byte spec_table c (byte_to_Z b))
       (take (Z.to_nat len) buf) crc,
     crc64_init st).
Proof.
  intros Hwf Hlen. unfold crc64_update. f_equal.
  rewrite crc64_init_table by done.
  rewrite crc64_update_loop_fold by lia. by rewrite drop_0.
Qed.

Lemma shift_step_lxor a b :
  (fun c => if Z.odd c then Z.lxor (Z.shiftr c 1) CRC64_POLY_ECMA
            else Z.shiftr c 1) (Z.lxor a b)
  = Z.lxor ((fun c => if Z.odd c then Z.lxor (Z.shiftr c 1) CRC64_POLY_ECMA
                      else Z.shiftr c 1) a)
           ((fun c => if Z.odd c then Z.lxor (Z.shiftr c 1) CRC64_POLY_ECMA
                      else Z.shiftr c 1) b).
Proof.
  cbn beta. rewrite <- !Z.bit0_odd, Z.lxor_spec, Z.shiftr_lxor.
  destruct (Z.testbit a 0), (Z.testbit b 0); cbn [xorb]; xor_solve.
Qed.

Lemma spec_table_entry_lxor i j :
  spec_table_entry (Z.lxor i j)
  = Z.lxor (spec_table_entry i) (spec_table_entry j).
Proof.
  unfold spec_table_entry. generalize 8%nat. intros n.
  induction n as [|n IH]; [done|].
  rewrite !Nat.iter_succ, IH. apply shift_step_lxor.
Qed.

Lemma spec_table_entry_0 : spec_table_entry 0 = 0.
Proof. reflexivity. Qed.

Lemma land_lxor_distr a b m :
  Z.land (Z.lxor a b) m = Z.lxor (Z.land a m) (Z.land b m).
Proof.
  apply Z.bits_inj'. intros n _.
  rewrite !Z.land_spec, !Z.lxor_spec, !Z.land_spec. btauto.
Qed.

Lemma crc64_byte_lxor u v x y :
  crc64_byte spec_table (Z.lxor u v) (Z.lxor x y)
  = Z.lxor (crc64_byte spec_table u x) (crc64_byte spec_table v y).
Proof.
  rewrite !crc64_byte_spec.
  replace (Z.lxor (Z.lxor u v) (Z.lxor x y))
    with (Z.lxor (Z.lxor u x) (Z.lxor v y)) by xor_solve.
  rewrite land_lxor_distr, spec_table_entry_lxor, Z.shiftr_lxor. xor_solve.
Qed.

Lemma crc64_fold_lxor a b c u v :
  Forall3 (fun x y z => byte_to_Z z = Z.lxor (byte_to_Z x) (byte_to_Z y))
    a b c ->
  fold_left (fun c b => crc64_byte spec_table c (byte_to_Z b)) c (Z.lxor u v)
  = Z.lxor
      (fold_left (fun c b => crc64_byte spec_table c (byte_to_Z b)) a u)
      (fold_left (fun c b => crc64_byte spec_table c (byte_to_Z b)) b v).
Proof.
  intros H. revert u v. induction H as [|x y z a b c Hz _ IH]; intros u v.
  - done.
  - cbn [fold_left]. rewrite Hz, crc64_byte_lxor. apply IH.
Qed.

Lemma crc64_fold_zeros n crc buf :
  crc = 0 ->
  fold_left (fun c b => crc64_byte spec_table c (byte_to_Z b))
    (replicate n x00 ++ buf) crc
  = fold_left (fun c b => crc64_byte spec_table c (byte_to_Z b)) buf crc.
Proof.
  intros ->. induction n as [|n IH]; [done|].
  cbn [replicate app fold_left]. exact IH.
Qed.

End Crc64Algebra.

(** X1.  [crc64_compute] starts from 0 and applies no final XOR, so zero
    bytes in front of a buffer do not change its checksum, and a buffer of
    zero bytes has checksum 0 whatever its length. *)
Theorem crc64_compute_leading_zeros st (n : nat) buf :
  crc_wf st ->
  fst (crc64_compute st (replicate n x00 ++ buf)
         (Z.of_nat (n + length buf)))
  = fst (crc64_compute st buf (Z.of_nat (length buf)))
  /\ fst (crc64_compute st (replicate n x00) (Z.of_nat n)) = 0.
Proof.
  intros Hwf. unfold crc64_compute. split.
  - rewrite !crc64_update_wf by (done || rewrite ?length_app, ?length_replicate; lia).
    cbn [fst]. rewrite !Nat2Z.id.
    rewrite !take_ge by (rewrite ?length_app, ?length_replicate; lia).
    by apply crc64_fold_zeros.
  - rewrite crc64_update_wf by (done || rewrite ?length_replicate; lia).
    cbn [fst]. rewrite Nat2Z.id, take_ge by (rewrite length_replicate; lia).
    rewrite <- (app_nil_r (replicate n x00)). by rewrite crc64_fold_zeros.
Qed.

Lemma crc64_compute_leading_zeros_witness :
  fst (crc64_compute crc_static (replicate 3 x00 ++ check_bytes)
         (Z.of_nat (3 + length check_bytes)))
  = fst (crc64_compute crc_static check_bytes (Z.of_nat (length check_bytes))).
Proof.
  refine (proj1 (crc64_compute_leading_zeros crc_static 3 check_bytes _)).
  split; [reflexivity|]. intros H. exfalso. apply H. reflexivity.
Defined.

(** X2.  [crc64_update] can be fed a buffer in pieces: continuing from the
    checksum of a first piece over a second piece gives the checksum of
    their concatenation, and [crc64_compute] of the concatenation is such a
    continuation from 0. *)
Theorem crc64_update_app st crc a b :
  crc_wf st ->
  let r1 := crc64_update st crc a (Z.of_nat (length a)) in
  crc64_update (snd r1) (fst r1) b (Z.of_nat (length b))
  = crc64_update st crc (a ++ b) (Z.of_nat (length (a ++ b)))
  /\ crc64_compute st (a ++ b) (Z.of_nat (length (a ++ b)))
     = crc64_update (snd (crc64_compute st a (Z.of_nat (length a))))
         (fst (crc64_compute st a (Z.of_nat (length a))))
         b (Z.of_nat (length b)).
Proof.
  intros Hwf r1. subst r1.
  assert (Hgen : forall crc0,
    crc64_update (snd (crc64_update st crc0 a (Z.of_nat (length a))))
      (fst (crc64_update st crc0 a (Z.of_nat (length a))))
      b (Z.of_nat (length b))
    = crc64_update st crc0 (a ++ b) (Z.of_nat (length (a ++ b)))).
  { intros crc0.
    rewrite (crc64_update_wf st crc0 a) by (done || lia). cbn [fst snd].
    rewrite !crc64_update_wf by (done || lia || by apply crc64_init_wf).
    rewrite !Nat2Z.id, !firstn_all, fold_left_app.
    f_equal. by apply crc64_init_idem. }
  split; [apply Hgen|]. unfold crc64_compute. by rewrite Hgen.
Qed.

Lemma crc64_update_app_witness :
  crc64_compute crc_static ([x31; x32; x33] ++ [x34; x35])
    (Z.of_nat (length ([x31; x32; x33] ++ [x34; x35])))
  = crc64_update (snd (crc64_compute crc_static [x31; x32; x33] 3))
      (fst (crc64_compute crc_static [x31; x32; x33] 3)) [x34; x35] 2.
Proof.
  refine (proj2 (crc64_update_app crc_static 0 [x31; x32; x33] [x34; x35] _)).
  split; [reflexivity|]. intros H. exfalso. apply H. reflexivity.
Defined.

(** X3.  The checksum is linear over XOR: for three buffers of the same
    length of which the third is the bytewise XOR of the other two, its
    checksum is the XOR of their checksums. *)
Theorem crc64_compute_xor_linear st a b c :
  crc_wf st ->
  Forall3 (fun x y z => byte_to_Z z = Z.lxor (byte_to_Z x) (byte_to_Z y))
    a b c ->
  fst (crc64_compute st c (Z.of_nat (length c)))
  = Z.lxor (fst (crc64_compute st a (Z.of_nat (length a))))
           (fst (crc64_compute st b (Z.of_nat (length b)))).
Proof.
  intros Hwf H. unfold crc64_compute.
  rewrite !crc64_update_wf by (done || lia). cbn [fst].
  rewrite !Nat2Z.id, !firstn_all.
  change 0 with (Z.lxor 0 0) at 1. by apply crc64_fold_lxor.
Qed.

Lemma crc64_compute_xor_linear_witness :
  fst (crc64_compute crc_static [x03; x30] 2)
  = Z.lxor (fst (crc64_compute crc_static [x01; x10] 2))
           (fst (crc64_compute crc_static [x02; x20] 2)).
Proof.
  refine (crc64_compute_xor_linear crc_static [x01; x10] [x02; x20]
            [x03; x30] _ _).
  - split; [reflexivity|]. intros H. exfalso. apply H. reflexivity.
  - repeat constructor.
Defined.

(** ** read_file.c: the single-threaded strategies *)

Section StrategyFacts.
Import Strategies.

Section Observations.

Lemma results_app o1 o2 : results (o1 ++ o2) = results o1 ++ results o2.
Proof. apply List.filter_app. Qed.

Lemma hash_lines_app o1 o2 :
  hash_lines (o1 ++ o2) = hash_lines o1 ++ hash_lines o2.
Proof. apply omap_app. Qed.

Lemma blocks_visited_app o1 o2 :
  blocks_visited (o1 ++ o2) = blocks_visited o1 ++ blocks_visited o2.
Proof. apply omap_app. Qed.

Lemma hash_lines_results o : hash_lines (results o) = hash_lines o.
Proof.
  unfold hash_lines, results.
  induction o as [|[[]|[]] o IH]; cbn; by rewrite ?IH.
Qed.

Lemma results_out_progress v lvl o :
  is_result o = false -> results (out v lvl o) = [].
Proof. unfold out. intros H. destruct (lvl <=? v); [|done]. cbn. by rewrite H. Qed.

Lemma results_print_results v m h t :
  results (print_results v m h t) = print_results v m h t.
Proof.
  unfold print_results, out.
  by destruct (1 <=? v), (2 <=? v).
Qed.

Lemma hash_lines_print_results v m h t :
  hash_lines (print_results v m h t) = if 1 <=? v then [h] else [].
Proof.
  unfold print_results, out.
  by destruct (1 <=? v), (2 <=? v).
Qed.

Lemma shared_lines_say v lvl l : shared_lines (say v lvl l) = out v lvl (Shared l).
Proof. unfold shared_lines, say, out. by destruct (lvl <=? v). Qed.

Lemma results_bind_progress {A} (l : list A) (f : A -> list Out) :
  (forall x, results (f x) = []) -> results (l ≫= f) = [].
Proof.
  intros H. induction l as [|x l IH]; [done|].
  by rewrite bind_cons, results_app, H, IH.
Qed.

End Observations.

(** The alternating loop visits the blocks in [alternate_order]. *)

Section Alternate.
Context {St : Type} (visit : Z -> St -> St).

Lemma alternate_loop_fold nb n i st :
  0 <= i -> i + Z.of_nat n = (nb + 1) / 2 -> nb + 1 < 2 ^ 64 ->
  alternate_loop visit nb n i st
  = fold_left (fun st b => visit b st)
      ((Z.of_nat <$> seq (Z.to_nat i) n) ≫=
         (fun i => if nb - 1 - i =? i then [i] else [i; nb - 1 - i]))
      st.
Proof.
  revert i st. induction n as [|n IH]; intros i st Hi Hn Hnb; [done|].
  cbn [alternate_loop seq fmap list_fmap]. rewrite bind_cons, fold_left_app.
  assert (H2 : 2 * i + 1 <= nb).
  { assert (i < (nb + 1) / 2) by lia.
    pose proof (Z.div_mod (nb + 1) 2). pose proof (Z.mod_pos_bound (nb + 1) 2).
    lia. }
  rewrite Z2Nat.id by lia.
  replace (S (Z.to_nat i)) with (Z.to_nat (i + 1)) by lia.
  rewrite <- (IH (i + 1)) by lia. f_equal.
  unfold first_block_due, last_block_due, last_block.
  rewrite (u64_small (nb - 1 - i)) by lia.
  destruct (Z.ltb_spec i nb); [|lia].
  destruct (Z.ltb_spec (nb - 1 - i) nb); [|lia].
  rewrite andb_true_r.
  by destruct (nb - 1 - i =? i).
Qed.

Lemma alternate_loop_order nb st :
  0 <= nb -> nb + 1 < 2 ^ 64 ->
  alternate_loop visit nb (alternate_iterations nb) 0 st
  = fold_left (fun st b => visit b st) (alternate_order nb) st.
Proof.
  intros H0 Hnb. unfold alternate_iterations, alternate_order, zseq.
  rewrite u64_small by lia.
  apply alternate_loop_fold; [lia| |done].
  rewrite Z2Nat.id; [lia|]. apply Z.div_pos; lia.
Qed.

End Alternate.

Ltac elems :=
  rewrite ?elem_of_cons, ?elem_of_nil in *; lia.

Lemma alternate_order_perm nb : 0 <= nb -> alternate_order nb ≡ₚ zseq nb.
Proof.
  intros Hnb.
  pose proof (Z.div_mod (nb + 1) 2) as Hdm.
  pose proof (Z.mod_pos_bound (nb + 1) 2) as Hmod.
  apply NoDup_Permutation.
  - unfold alternate_order. apply NoDup_bind.
    + intros x1 x2 y Hx1%elem_of_zseq Hx2%elem_of_zseq Hy1 Hy2.
      destruct (nb - 1 - x1 =? x1) eqn:E1, (nb - 1 - x2 =? x2) eqn:E2;
        reflect_bools; elems.
    + intros x Hx%elem_of_zseq. destruct (nb - 1 - x =? x) eqn:E; reflect_bools.
      * apply NoDup_singleton.
      * apply NoDup_cons. split; [elems|apply NoDup_singleton].
    + apply zseq_NoDup.
  - apply zseq_NoDup.
  - intros x. rewrite elem_of_zseq. unfold alternate_order.
    rewrite list_elem_of_bind. split.
    + intros (i & Hx & Hi%elem_of_zseq).
      destruct (nb - 1 - i =? i) eqn:E; reflect_bools; elems.
    + intros Hx. destruct (Z.lt_ge_cases x ((nb + 1) / 2)).
      * exists x. split; [|apply elem_of_zseq; lia].
        destruct (nb - 1 - x =? x); elems.
      * exists (nb - 1 - x). split; [|apply elem_of_zseq; lia].
        destruct (nb - 1 - (nb - 1 - x) =? nb - 1 - x) eqn:E; reflect_bools;
          [lia|]. elems.
Qed.

(** Blocks of the file as the strategies cut them. *)

Section Blocks.
Context (cfg : Config) (v : Z) (file : list byte) (c : crc_state).
Hypothesis HBS : 0 < BLOCK_SIZE cfg.
Hypothesis Hfit : Z.of_nat (length file) + BLOCK_SIZE cfg <= 2 ^ 64.
Hypothesis Hc : crc_wf c.

Local Abbreviation F := (F file).
Local Abbreviation T := (T cfg file).
Local Abbreviation BS := (BLOCK_SIZE cfg).
Local Abbreviation D := (fun b : Z => spec_digest (file_block cfg file (Z.to_nat b))).
Local Abbreviation L := (fun b : Z => Z.of_nat (length (file_block cfg file (Z.to_nat b)))).

Lemma fread_no_stop e off n :
  fread_stop e = None ->
  fread e file off n = take (Z.to_nat n) (drop (Z.to_nat off) file).
Proof. unfold fread. by intros ->. Qed.

Lemma block_length b :
  0 <= b -> L b = Z.max 0 (Z.min BS (Z.of_nat (length file) - b * BS)).
Proof.
  intros Hb. unfold file_block. rewrite length_take, length_drop. nia.
Qed.

Lemma block_in_file b : 0 <= b < T -> b * BS < Z.of_nat (length file).
Proof.
  intros Hb. rewrite <- (F_length cfg file HBS Hfit). by apply T_block.
Qed.

Lemma block_offset_small b : 0 <= b < T -> u64 (b * BS) = b * BS.
Proof. intros Hb. pose proof (block_in_file b Hb). apply u64_small. nia. Qed.

Lemma clamp_block_length b :
  0 <= b < T -> clamp_block cfg F (u64 (b * BS)) = L b.
Proof.
  intros Hb. pose proof (block_in_file b Hb) as Hin.
  rewrite block_offset_small, block_length by lia.
  unfold clamp_block. rewrite (F_length cfg file HBS Hfit).
  rewrite (u64_small (b * BS + BS)) by nia.
  destruct (Z.ltb_spec (Z.of_nat (length file)) (b * BS + BS)).
  - rewrite u64_small by nia. lia.
  - lia.
Qed.

Lemma block_taken b :
  0 <= b < T ->
  take (Z.to_nat (L b)) (drop (Z.to_nat (b * BS)) file)
  = file_block cfg file (Z.to_nat b)
  /\ 0 < L b.
Proof.
  intros Hb. pose proof (block_in_file b Hb) as Hin. split.
  - unfold file_block.
    replace (Z.to_nat b * Z.to_nat BS)%nat with (Z.to_nat (b * BS)) by nia.
    rewrite Nat2Z.id, length_take, <- take_take. f_equal. by apply take_ge.
  - rewrite block_length by lia. lia.
Qed.

Lemma block_fold h b :
  0 <= b < T ->
  process_block_xor (crc64_init c) h (drop (Z.to_nat (b * BS)) file) (L b)
  = (Z.lxor h (D b), crc64_init c).
Proof.
  intros Hb. destruct (block_taken b Hb) as [Htake Hpos].
  unfold process_block_xor.
  rewrite crc64_compute_wf.
  - by rewrite Htake, crc64_init_idem.
  - by apply crc64_init_wf.
  - split; [lia|]. rewrite <- Htake at 1. rewrite length_take. lia.
Qed.

Lemma block_fold_read h b :
  0 <= b < T ->
  process_block_xor (crc64_init c) h (file_block cfg file (Z.to_nat b)) (L b)
  = (Z.lxor h (D b), crc64_init c).
Proof.
  intros Hb. rewrite process_block_xor_wf by (by apply crc64_init_wf).
  by rewrite crc64_init_idem.
Qed.

(** The two ways to handle one block meet the same description. *)
Lemma read_block_ok reads b st :
  reads_ok reads -> 0 <= b < T -> statics st = crc64_init c ->
  let st' := read_block cfg v reads file F b st in
  hash_xor st' = Z.lxor (hash_xor st) (D b)
  /\ total_bytes st' = u64 (total_bytes st + L b)
  /\ statics st' = crc64_init c
  /\ lines st' = lines st ++ out v 2 (Own (S_read_block b (b * BS) (L b))).
Proof.
  intros Hr Hb Hst. destruct (Hr (calls st)) as [Hseek Hstop].
  destruct (block_taken b Hb) as [Htake Hpos].
  unfold read_block. rewrite Hseek, (fread_no_stop _ _ _ Hstop).
  rewrite clamp_block_length, block_offset_small by done.
  rewrite Htake, Hst.
  destruct (Z.ltb_spec 0 (L b)); [|lia].
  by rewrite block_fold_read.
Qed.

Lemma map_block_ok b st :
  0 <= b < T -> statics st = crc64_init c ->
  let st' := map_block cfg v file F b st in
  hash_xor st' = Z.lxor (hash_xor st) (D b)
  /\ total_bytes st' = u64 (total_bytes st + L b)
  /\ statics st' = crc64_init c
  /\ lines st' = lines st
                 ++ out v 2 (Own (S_processed_block b (b * BS) (L b))).
Proof.
  intros Hb Hst. unfold map_block, fold_mapped.
  rewrite clamp_block_length, block_offset_small by done.
  by rewrite Hst, block_fold.
Qed.

End Blocks.

Section Perms.
Context {A : Type} (f : A -> Z).

Lemma xor_with_perm l l' : l ≡ₚ l' -> xor_with f l = xor_with f l'.
Proof.
  induction 1 as [|x l l' _ IH|x y l|l l' l'' _ IH1 _ IH2].
  - done.
  - by rewrite !xor_with_cons, IH.
  - rewrite !xor_with_cons. xor_solve.
  - by rewrite IH1.
Qed.

Lemma sum_with_perm l l' : l ≡ₚ l' -> sum_with f l = sum_with f l'.
Proof.
  induction 1 as [|x l l' _ IH|x y l|l l' l'' _ IH1 _ IH2].
  - done.
  - by rewrite !sum_with_cons, IH.
  - rewrite !sum_with_cons. lia.
  - by rewrite IH1.
Qed.

Lemma xor_with_fmap {B} (g : B -> A) l :
  xor_with f (g <$> l) = xor_with (fun x => f (g x)) l.
Proof.
  induction l as [|x l IH]; [done|]. by rewrite fmap_cons, !xor_with_cons, IH.
Qed.

Lemma sum_with_fmap {B} (g : B -> A) l :
  sum_with f (g <$> l) = sum_with (fun x => f (g x)) l.
Proof.
  induction l as [|x l IH]; [done|]. by rewrite fmap_cons, !sum_with_cons, IH.
Qed.

End Perms.

Lemma u64_add_l x y : u64 (u64 x + y) = u64 (x + y).
Proof. unfold u64. by rewrite Zplus_mod_idemp_l. Qed.

Section Folds.
Context (cfg : Config) (v : Z) (file : list byte) (c : crc_state).
Hypothesis HBS : 0 < BLOCK_SIZE cfg.
Hypothesis Hfit : Z.of_nat (length file) + BLOCK_SIZE cfg <= 2 ^ 64.
Hypothesis Hc : crc_wf c.

Local Abbreviation F := (F file).
Local Abbreviation T := (T cfg file).
Local Abbreviation BS := (BLOCK_SIZE cfg).
Local Abbreviation D := (fun b : Z => spec_digest (file_block cfg file (Z.to_nat b))).
Local Abbreviation L := (fun b : Z => Z.of_nat (length (file_block cfg file (Z.to_nat b)))).

Lemma xor_all_blocks : xor_with D (zseq T) = blocks_xor cfg file (Z.to_nat T).
Proof.
  rewrite blocks_xor_digest. unfold zseq, blocks_digest.
  rewrite xor_with_fmap. induction (seq 0 (Z.to_nat T)) as [|k l IH]; [done|].
  by rewrite !xor_with_cons, IH, Nat2Z.id.
Qed.

Lemma sum_blocks n :
  sum_with (fun k => Z.of_nat (length (file_block cfg file k))) (seq 0 n)
  = Z.min (Z.of_nat n * BS) (Z.of_nat (length file)).
Proof.
  induction n as [|n IH]; [cbn; lia|].
  rewrite seq_S, sum_with_app, IH. cbn [Nat.add sum_with foldr].
  unfold file_block. rewrite length_take, length_drop. nia.
Qed.

Lemma sum_all_blocks : sum_with L (zseq T) = Z.of_nat (length file).
Proof.
  unfold zseq. rewrite sum_with_fmap.
  assert (Hconv : forall l,
    sum_with (fun x => L (Z.of_nat x)) l
    = sum_with (fun k => Z.of_nat (length (file_block cfg file k))) l).
  { induction l as [|k l IH]; [done|].
    by rewrite !sum_with_cons, IH, Nat2Z.id. }
  rewrite Hconv, sum_blocks.
  pose proof (T_nonneg cfg file HBS Hfit) as HT.
  pose proof (T_div cfg file HBS Hfit) as Hdiv.
  rewrite (F_length cfg file HBS Hfit) in Hdiv.
  pose proof (Z.div_mod (Z.of_nat (length file) + BS - 1) BS) as Hdm.
  pose proof (Z.mod_pos_bound (Z.of_nat (length file) + BS - 1) BS) as Hm.
  rewrite Z2Nat.id by lia. nia.
Qed.

Section Visit.
Context (visit : Z -> Scan -> Scan) (line : Z -> Z -> Z -> SLine).
Hypothesis Hvisit :
  forall b st, 0 <= b < T -> statics st = crc64_init c ->
    hash_xor (visit b st) = Z.lxor (hash_xor st) (D b)
    /\ total_bytes (visit b st) = u64 (total_bytes st + L b)
    /\ statics (visit b st) = crc64_init c
    /\ lines (visit b st) = lines st ++ out v 2 (Own (line b (b * BS) (L b))).

Lemma visit_fold bs st :
  Forall (fun b => 0 <= b < T) bs -> statics st = crc64_init c ->
  u64 (total_bytes st) = total_bytes st ->
  let st' := fold_left (fun st b => visit b st) bs st in
  hash_xor st' = Z.lxor (hash_xor st) (xor_with D bs)
  /\ total_bytes st' = u64 (total_bytes st + sum_with L bs)
  /\ statics st' = crc64_init c
  /\ lines st'
     = lines st ++ (bs ≫= fun b => out v 2 (Own (line b (b * BS) (L b)))).
Proof.
  intros Hbs. revert st. induction Hbs as [|b bs Hb _ IH]; intros st Hst Hu.
  - cbn. by rewrite Z.lxor_0_r, Z.add_0_r, app_nil_r, Hu.
  - cbn [fold_left]. destruct (Hvisit b st Hb Hst) as (Hh & Ht & Hs & Hl).
    destruct (IH _ Hs) as (Hh' & Ht' & Hs' & Hl').
    { rewrite Ht. unfold u64. by rewrite Zmod_mod. }
    cbn zeta. rewrite Hh', Ht', Hs', Hl', Hh, Ht, Hl.
    rewrite xor_with_cons, sum_with_cons, bind_cons, u64_add_l.
    split_and!; try done.
    + xor_solve.
    + f_equal. lia.
    + by rewrite <- app_assoc.
Qed.

(** All blocks in alternating order. *)
Lemma visit_alternate st :
  Z.of_nat (length file) + BLOCK_SIZE cfg < 2 ^ 64 ->
  statics st = crc64_init c -> total_bytes st = 0 -> hash_xor st = 0 ->
  let st' :=
    alternate_loop visit (block_count cfg F) (alternate_iterations (block_count cfg F)) 0 st in
  hash_xor st' = blocks_xor cfg file (Z.to_nat T)
  /\ total_bytes st' = Z.of_nat (length file)
  /\ statics st' = crc64_init c
  /\ lines st'
     = lines st
       ++ (alternate_order T ≫=
             fun b => out v 2 (Own (line b (b * BS) (L b)))).
Proof.
  intros Hstrict Hst Ht Hh.
  pose proof (T_nonneg cfg file HBS Hfit) as HT.
  pose proof (T_le_F cfg file HBS Hfit) as HTF.
  pose proof (F_length cfg file HBS Hfit) as HF.
  change (block_count cfg F) with T.
  rewrite alternate_loop_order by lia.
  destruct (visit_fold (alternate_order T) st) as (Hh' & Ht' & Hs' & Hl');
    [|done|by rewrite Ht|].
  { rewrite (alternate_order_perm T HT). apply Forall_forall.
    by intros b Hb%elem_of_zseq. }
  cbn zeta. rewrite Hh', Ht', Hs', Hl', Hh, Ht.
  rewrite (xor_with_perm _ _ _ (alternate_order_perm T HT)).
  rewrite (sum_with_perm _ _ _ (alternate_order_perm T HT)).
  rewrite xor_all_blocks, sum_all_blocks, Z.lxor_0_l.
  split_and!; try done; try (apply u64_small; lia).
Qed.

End Visit.

Lemma get_file_size_ok e :
  fopen_ok e = true -> file <> [] ->
  get_file_size v e file = (Some F, say v 2 (L_file_size F)).
Proof.
  intros He Hfile. unfold get_file_size. rewrite He. cbn [negb].
  change (u64 (Z.of_nat (length file))) with F.
  rewrite (F_length cfg file HBS Hfit).
  destruct (Z.eqb_spec (Z.of_nat (length file)) 0) as [H0|]; [|done].
  by destruct file.
Qed.

Lemma map_file_ok :
  file <> [] ->
  map_file v map_ok file = (Some F, out v 2 (Shared (L_file_size F))).
Proof.
  intros Hfile. unfold map_file. cbn [open_ok fstat_ok mmap_ok map_ok negb].
  change (u64 (Z.of_nat (length file))) with F.
  rewrite (F_length cfg file HBS Hfit).
  destruct (Z.eqb_spec (Z.of_nat (length file)) 0) as [H0|]; [|done].
  by destruct file.
Qed.

End Folds.

Section Sequential.
Context (cfg : Config) (v : Z) (file : list byte) (c : crc_state).
Hypothesis HBS : 0 < BLOCK_SIZE cfg.
Hypothesis Hfit : Z.of_nat (length file) + BLOCK_SIZE cfg <= 2 ^ 64.
Hypothesis Hc : crc_wf c.

Local Abbreviation F := (F file).
Local Abbreviation T := (T cfg file).
Local Abbreviation BS := (BLOCK_SIZE cfg).
Local Abbreviation D := (fun b : Z => spec_digest (file_block cfg file (Z.to_nat b))).
Local Abbreviation L := (fun b : Z => Z.of_nat (length (file_block cfg file (Z.to_nat b)))).

Lemma blocks_cover : Z.of_nat (length file) <= T * BS.
Proof.
  pose proof (T_div cfg file HBS Hfit) as Hdiv.
  rewrite (F_length cfg file HBS Hfit) in Hdiv.
  pose proof (Z.div_mod (Z.of_nat (length file) + BS - 1) BS) as Hdm.
  pose proof (Z.mod_pos_bound (Z.of_nat (length file) + BS - 1) BS) as Hm.
  nia.
Qed.

Lemma sequential_read_loop_ok reads (j : nat) k fuel st :
  reads_ok reads ->
  T - k = Z.of_nat j -> 0 <= k -> (j < fuel)%nat ->
  position st = Z.min (k * BS) (Z.of_nat (length file)) ->
  statics st = crc64_init c ->
  u64 (total_bytes st) = total_bytes st ->
  exists st',
    sequential_read_loop fuel cfg v reads file st = Some st'
    /\ hash_xor st'
       = Z.lxor (hash_xor st) (xor_with D (Z.of_nat <$> seq (Z.to_nat k) j))
    /\ total_bytes st'
       = u64 (total_bytes st
              + sum_with L (Z.of_nat <$> seq (Z.to_nat k) j))
    /\ statics st' = crc64_init c
    /\ results (lines st') = results (lines st).
Proof.
  intros Hr. revert k fuel st.
  induction j as [|j IH]; intros k fuel st Hj Hk Hfuel Hpos Hst Hu;
    (destruct fuel as [|fuel]; [lia|]); cbn [sequential_read_loop];
    destruct (Hr (calls st)) as [_ Hstop];
    rewrite (fread_no_stop _ _ _ _ Hstop), Hpos; pose proof blocks_cover as Hcov.
  - rewrite drop_ge by nia.
    rewrite take_nil. cbn [length Z.of_nat Z.ltb Z.compare].
    eexists. split; [done|].
    cbn [hash_xor total_bytes statics lines seq fmap list_fmap xor_with sum_with foldr].
    by rewrite Z.lxor_0_r, Z.add_0_r, Hu.
  - assert (Hb : 0 <= k < T) by lia.
    destruct (block_taken cfg file HBS Hfit k Hb) as [_ Hpos'].
    pose proof (block_in_file cfg file HBS Hfit k Hb) as Hin.
    pose proof (block_length cfg file HBS Hfit k Hk) as Hlen.
    rewrite Z.min_l by lia.
    assert (Hblk : take (Z.to_nat BS) (drop (Z.to_nat (k * BS)) file)
                   = file_block cfg file (Z.to_nat k)).
    { unfold file_block. do 2 f_equal. nia. }
    rewrite Hblk.
    destruct (Z.ltb_spec 0 (L k)); [|lia].
    rewrite Hst, block_fold_read by done.
    destruct (IH (k + 1) fuel
                (mk_scan (Z.lxor (hash_xor st) (D k))
                   (u64 (total_bytes st + L k)) (crc64_init c)
                   (k * BS + L k) (S (calls st))
                   (lines st ++ out v 2 (Own (S_read (L k) (u64 (total_bytes st + L k)))))))
      as (st' & Hloop & Hh & Ht & Hs & Hl); try (done || lia).
    + cbn [position]. lia.
    + cbn [total_bytes]. unfold u64. by rewrite Zmod_mod.
    + exists st'. split; [exact Hloop|].
      cbn [hash_xor total_bytes statics lines] in Hh, Ht, Hl.
      replace (Z.to_nat (k + 1)) with (S (Z.to_nat k)) in Hh, Ht by lia.
      cbn [seq fmap list_fmap]. rewrite xor_with_cons, sum_with_cons.
      rewrite Z2Nat.id by lia.
      rewrite Hh, Ht, Hl, u64_add_l, results_app, results_out_progress by done.
      rewrite app_nil_r. split_and!; try done.
      * xor_solve.
      * f_equal. lia.
Qed.

Lemma sequential_mmap_loop_ok (j : nat) k fuel st :
  T - k = Z.of_nat j -> 0 <= k -> (j < fuel)%nat ->
  position st = Z.min (k * BS) (Z.of_nat (length file)) ->
  statics st = crc64_init c ->
  u64 (total_bytes st) = total_bytes st ->
  exists st',
    sequential_mmap_loop fuel cfg v file (Z.of_nat (length file)) st = Some st'
    /\ hash_xor st'
       = Z.lxor (hash_xor st) (xor_with D (Z.of_nat <$> seq (Z.to_nat k) j))
    /\ total_bytes st'
       = u64 (total_bytes st
              + sum_with L (Z.of_nat <$> seq (Z.to_nat k) j))
    /\ statics st' = crc64_init c
    /\ results (lines st') = results (lines st).
Proof.
  revert k fuel st.
  induction j as [|j IH]; intros k fuel st Hj Hk Hfuel Hpos Hst Hu;
    (destruct fuel as [|fuel]; [lia|]); cbn [sequential_mmap_loop];
    rewrite Hpos; pose proof blocks_cover as Hcov.
  - destruct (Z.ltb_spec (Z.min (k * BS) (Z.of_nat (length file)))
                (Z.of_nat (length file))); [nia|].
    eexists. split; [done|].
    cbn [seq fmap list_fmap xor_with sum_with foldr].
    by rewrite Z.lxor_0_r, Z.add_0_r, Hu.
  - assert (Hb : 0 <= k < T) by lia.
    destruct (block_taken cfg file HBS Hfit k Hb) as [_ Hpos'].
    pose proof (block_in_file cfg file HBS Hfit k Hb) as Hin.
    pose proof (block_length cfg file HBS Hfit k Hk) as Hlen.
    rewrite Z.min_l by lia.
    destruct (Z.ltb_spec (k * BS) (Z.of_nat (length file))); [|lia].
    pose proof (clamp_block_length cfg file HBS Hfit k Hb) as Hclamp.
    rewrite (block_offset_small cfg file HBS Hfit k Hb) in Hclamp.
    rewrite (F_length cfg file HBS Hfit) in Hclamp. rewrite Hclamp.
    unfold fold_mapped. rewrite Hst, block_fold by done.
    destruct (IH (k + 1) fuel
                (mk_scan (Z.lxor (hash_xor st) (D k))
                   (u64 (total_bytes st + L k)) (crc64_init c)
                   (u64 (k * BS + L k)) (calls st)
                   (lines st ++ out v 2 (Own (S_processed (L k) (u64 (total_bytes st + L k)))))))
      as (st' & Hloop & Hh & Ht & Hs & Hl); try (done || lia).
    + cbn [position]. rewrite u64_small by lia. lia.
    + cbn [total_bytes]. unfold u64. by rewrite Zmod_mod.
    + exists st'. split; [exact Hloop|].
      cbn [hash_xor total_bytes statics lines] in Hh, Ht, Hl.
      replace (Z.to_nat (k + 1)) with (S (Z.to_nat k)) in Hh, Ht by lia.
      cbn [seq fmap list_fmap]. rewrite xor_with_cons, sum_with_cons.
      rewrite Z2Nat.id by lia.
      rewrite Hh, Ht, Hl, u64_add_l, results_app, results_out_progress by done.
      rewrite app_nil_r. split_and!; try done.
      * xor_solve.
      * f_equal. lia.
Qed.

End Sequential.

Lemma blocks_visited_read v bs (o l : Z -> Z) :
  blocks_visited (bs ≫= fun b => out v 2 (Own (S_read_block b (o b) (l b))))
  = if 2 <=? v then bs else [].
Proof.
  unfold out. induction bs as [|b bs IH]; [by destruct (2 <=? v)|].
  rewrite bind_cons, blocks_visited_app, IH. by destruct (2 <=? v).
Qed.

Lemma blocks_visited_processed v bs (o l : Z -> Z) :
  blocks_visited
    (bs ≫= fun b => out v 2 (Own (S_processed_block b (o b) (l b))))
  = if 2 <=? v then bs else [].
Proof.
  unfold out. induction bs as [|b bs IH]; [by destruct (2 <=? v)|].
  rewrite bind_cons, blocks_visited_app, IH. by destruct (2 <=? v).
Qed.

Lemma blocks_visited_out v lvl o :
  match o with
  | Own (S_read_block _ _ _) | Own (S_processed_block _ _ _) => False
  | _ => True
  end ->
  blocks_visited (out v lvl o) = [].
Proof.
  unfold out. destruct (lvl <=? v); [|done]. by destruct o as [|[]].
Qed.

Lemma blocks_visited_print_results v m h t :
  blocks_visited (print_results v m h t) = [].
Proof.
  unfold print_results, out. by destruct (1 <=? v), (2 <=? v).
Qed.

(** What [sequential_read] returns and prints when nothing fails. *)
Lemma sequential_read_run cfg v e0 e1 reads file c :
  0 < BLOCK_SIZE cfg ->
  Z.of_nat (length file) + BLOCK_SIZE cfg <= 2 ^ 64 ->
  crc_wf c ->
  file <> [] ->
  fopen_ok e0 = true -> fopen_ok e1 = true -> malloc_ok e1 = true ->
  reads_ok reads ->
  exists o,
    sequential_read cfg v e0 e1 reads file c = Some (crc64_init c, o)
    /\ results o
       = print_results v SequentialRead
           (blocks_xor cfg file (Z.to_nat (T cfg file)))
           (Z.of_nat (length file))
    /\ hash_lines o
       = if 1 <=? v then [blocks_xor cfg file (Z.to_nat (T cfg file))] else [].
Proof.
  intros HBS Hfit Hc Hfile He0 He1 Hm Hr.
  pose proof (T_nonneg cfg file HBS Hfit) as HT.
  pose proof (T_le_F cfg file HBS Hfit) as HTF.
  pose proof (F_length cfg file HBS Hfit) as HF.
  unfold sequential_read.
  rewrite (get_file_size_ok cfg v file HBS Hfit e0 He0 Hfile), He1, Hm.
  cbn [negb]. rewrite shared_lines_say.
  destruct (sequential_read_loop_ok cfg v file c HBS Hfit Hc reads
              (Z.to_nat (T cfg file)) 0 (S (length file))
              (mk_scan 0 0 (crc64_init c) 0 0
                 (out v 2 (Own (S_banner SequentialRead))
                  ++ out v 2 (Shared (L_file_size (F file))))))
    as (st' & Hloop & Hh & Ht & Hs & Hl);
    try (done || lia || (cbn [position]; lia)).
  rewrite Hloop. cbn [hash_xor total_bytes lines] in Hh, Ht, Hl.
  change (Z.of_nat <$> seq (Z.to_nat 0) (Z.to_nat (T cfg file)))
    with (zseq (T cfg file)) in Hh, Ht.
  rewrite (xor_all_blocks cfg file) in Hh.
  rewrite (sum_all_blocks cfg file HBS Hfit) in Ht.
  rewrite Z.lxor_0_l in Hh. rewrite Z.add_0_l, u64_small in Ht by lia.
  eexists. split; [by rewrite Hs|].
  rewrite <- hash_lines_results, results_app, Hl, results_print_results.
  rewrite results_app, !results_out_progress by done. cbn [app].
  rewrite Hh, Ht. split; [done|]. apply hash_lines_print_results.
Qed.

(** X4.  [sequential_read], when no call fails and no read is short: it
    returns, leaves the checksum table built, and its result lines carry the
    XOR of the checksums of the blocks of the file and the length of the
    file. *)
Theorem sequential_read_reports cfg v e0 e1 reads file c :
  0 < BLOCK_SIZE cfg ->
  Z.of_nat (length file) + BLOCK_SIZE cfg <= 2 ^ 64 ->
  crc_wf c ->
  file <> [] ->
  fopen_ok e0 = true -> fopen_ok e1 = true -> malloc_ok e1 = true ->
  reads_ok reads ->
  exists o,
    sequential_read cfg v e0 e1 reads file c = Some (crc64_init c, o)
    /\ results o
       = print_results v SequentialRead
           (blocks_xor cfg file (Z.to_nat (T cfg file)))
           (Z.of_nat (length file))
    /\ hash_lines o
       = if 1 <=? v then [blocks_xor cfg file (Z.to_nat (T cfg file))] else [].
Proof. exact (sequential_read_run cfg v e0 e1 reads file c). Qed.

(** What [random_read] returns and prints when nothing fails. *)
Lemma random_read_run cfg v e0 e1 reads file c :
  0 < BLOCK_SIZE cfg ->
  Z.of_nat (length file) + BLOCK_SIZE cfg < 2 ^ 64 ->
  crc_wf c ->
  file <> [] ->
  fopen_ok e0 = true -> fopen_ok e1 = true -> malloc_ok e1 = true ->
  reads_ok reads ->
  exists o,
    random_read cfg v e0 e1 reads file c = (crc64_init c, o)
    /\ results o
       = print_results v RandomRead
           (blocks_xor cfg file (Z.to_nat (T cfg file)))
           (Z.of_nat (length file))
    /\ hash_lines o
       = (if 1 <=? v then [blocks_xor cfg file (Z.to_nat (T cfg file))] else [])
    /\ blocks_visited o = (if 2 <=? v then alternate_order (T cfg file) else [])
    /\ alternate_order (T cfg file) ≡ₚ zseq (T cfg file).
Proof.
  intros HBS Hstrict Hc Hfile He0 He1 Hm Hr.
  assert (Hfit : Z.of_nat (length file) + BLOCK_SIZE cfg <= 2 ^ 64) by lia.
  pose proof (T_nonneg cfg file HBS Hfit) as HT.
  unfold random_read.
  rewrite (get_file_size_ok cfg v file HBS Hfit e0 He0 Hfile), He1, Hm.
  cbn [negb]. rewrite shared_lines_say.
  match goal with
  | |- context [alternate_loop ?vis _ _ 0 ?st0] =>
      destruct (visit_alternate cfg v file c HBS Hfit vis S_read_block
                  (fun b st => read_block_ok cfg v file c HBS Hfit Hc reads b st Hr)
                  st0 Hstrict eq_refl eq_refl eq_refl)
        as (Hh & Ht & Hs & Hl)
  end.
  cbn zeta in Hh, Ht, Hs, Hl. cbn [lines] in Hl.
  eexists. split; [by rewrite Hs|].
  rewrite Hh, Ht, Hl.
  split_and!.
  - rewrite !results_app, results_print_results, !results_out_progress by done.
    rewrite results_bind_progress; [done|].
    intros b. by apply results_out_progress.
  - rewrite !hash_lines_app, hash_lines_print_results.
    rewrite <- (hash_lines_results (_ ≫= _)), results_bind_progress.
    2:{ intros b. by apply results_out_progress. }
    unfold out. by destruct (2 <=? v).
  - rewrite !blocks_visited_app, blocks_visited_print_results,
      !blocks_visited_out by done.
    rewrite (blocks_visited_read v _ (fun b => b * BLOCK_SIZE cfg)
               (fun b => Z.of_nat (length (file_block cfg file (Z.to_nat b))))).
    by rewrite app_nil_r.
  - by apply alternate_order_perm.
Qed.

(** X6.  [random_read] without failures visits the blocks in the order
    first, last, second, second to last, ..., each block once, and reports
    the same hash as a front-to-back pass and the length of the file. *)
Theorem random_read_reports cfg v e0 e1 reads file c :
  0 < BLOCK_SIZE cfg ->
  Z.of_nat (length file) + BLOCK_SIZE cfg < 2 ^ 64 ->
  crc_wf c ->
  file <> [] ->
  fopen_ok e0 = true -> fopen_ok e1 = true -> malloc_ok e1 = true ->
  reads_ok reads ->
  exists o,
    random_read cfg v e0 e1 reads file c = (crc64_init c, o)
    /\ results o
       = print_results v RandomRead
           (blocks_xor cfg file (Z.to_nat (T cfg file)))
           (Z.of_nat (length file))
    /\ hash_lines o
       = (if 1 <=? v then [blocks_xor cfg file (Z.to_nat (T cfg file))] else [])
    /\ blocks_visited o = (if 2 <=? v then alternate_order (T cfg file) else [])
    /\ alternate_order (T cfg file) ≡ₚ zseq (T cfg file).
Proof. exact (random_read_run cfg v e0 e1 reads file c). Qed.

Lemma sequential_read_reports_witness :
  exists o,
    sequential_read small_config 1 env_ok env_ok (fun _ => env_ok)
      check_bytes crc_static
    = Some (crc64_init crc_static, o)
    /\ hash_lines o = [1348599801794006705].
Proof.
  destruct (sequential_read_reports small_config 1 env_ok env_ok
              (fun _ => env_ok) check_bytes crc_static)
    as (o & Hrun & _ & Hh).
  - reflexivity.
  - vm_compute. discriminate.
  - apply crc_static_wf.
  - discriminate.
  - reflexivity.
  - reflexivity.
  - reflexivity.
  - intros i. split; reflexivity.
  - exists o. split; [exact Hrun|]. rewrite Hh. vm_compute. reflexivity.
Defined.

Lemma random_read_reports_witness :
  exists o,
    random_read small_config 2 env_ok env_ok (fun _ => env_ok)
      check_bytes crc_static
    = (crc64_init crc_static, o)
    /\ blocks_visited o = [0; 2; 1].
Proof.
  destruct (random_read_reports small_config 2 env_ok env_ok
              (fun _ => env_ok) check_bytes crc_static)
    as (o & Hrun & _ & _ & Hv & _).
  - reflexivity.
  - vm_compute. reflexivity.
  - apply crc_static_wf.
  - discriminate.
  - reflexivity.
  - reflexivity.
  - reflexivity.
  - intros i. split; reflexivity.
  - exists o. split; [exact Hrun|]. rewrite Hv. vm_compute. reflexivity.
Defined.

(** What [sequential_mmap] returns and prints when nothing fails. *)
Lemma sequential_mmap_run cfg v file c :
  0 < BLOCK_SIZE cfg ->
  Z.of_nat (length file) + BLOCK_SIZE cfg <= 2 ^ 64 ->
  crc_wf c ->
  file <> [] ->
  exists o,
    sequential_mmap cfg v map_ok file c = Some (crc64_init c, o)
    /\ results o
       = print_results v SequentialMmap
           (blocks_xor cfg file (Z.to_nat (T cfg file)))
           (Z.of_nat (length file))
    /\ hash_lines o
       = if 1 <=? v then [blocks_xor cfg file (Z.to_nat (T cfg file))] else [].
Proof.
  intros HBS Hfit Hc Hfile.
  pose proof (T_nonneg cfg file HBS Hfit) as HT.
  pose proof (T_le_F cfg file HBS Hfit) as HTF.
  pose proof (F_length cfg file HBS Hfit) as HF.
  unfold sequential_mmap.
  rewrite (map_file_ok cfg v file HBS Hfit Hfile), HF.
  destruct (sequential_mmap_loop_ok cfg v file c HBS Hfit Hc
              (Z.to_nat (T cfg file)) 0 (S (length file))
              (mk_scan 0 0 (crc64_init c) 0 0
                 (out v 2 (Own (S_banner SequentialMmap))
                  ++ out v 2 (Shared (L_file_size (Z.of_nat (length file)))))))
    as (st' & Hloop & Hh & Ht & Hs & Hl);
    try (done || lia || (cbn [position]; lia)).
  rewrite Hloop. cbn [hash_xor total_bytes lines] in Hh, Ht, Hl.
  change (Z.of_nat <$> seq (Z.to_nat 0) (Z.to_nat (T cfg file)))
    with (zseq (T cfg file)) in Hh, Ht.
  rewrite (xor_all_blocks cfg file) in Hh.
  rewrite (sum_all_blocks cfg file HBS Hfit) in Ht.
  rewrite Z.lxor_0_l in Hh. rewrite Z.add_0_l, u64_small in Ht by lia.
  eexists. split; [by rewrite Hs|].
  rewrite <- hash_lines_results, results_app, Hl, results_print_results.
  rewrite results_app, !results_out_progress by done. cbn [app].
  rewrite Hh, Ht. split; [done|]. apply hash_lines_print_results.
Qed.

(** X7.  [sequential_mmap] on a file that can be mapped: its loop ends, and
    it reports the XOR of the checksums of the blocks and the length of the
    file. *)
Theorem sequential_mmap_reports cfg v file c :
  0 < BLOCK_SIZE cfg ->
  Z.of_nat (length file) + BLOCK_SIZE cfg <= 2 ^ 64 ->
  crc_wf c ->
  file <> [] ->
  exists o,
    sequential_mmap cfg v map_ok file c = Some (crc64_init c, o)
    /\ results o
       = print_results v SequentialMmap
           (blocks_xor cfg file (Z.to_nat (T cfg file)))
           (Z.of_nat (length file))
    /\ hash_lines o
       = if 1 <=? v then [blocks_xor cfg file (Z.to_nat (T cfg file))] else [].
Proof. exact (sequential_mmap_run cfg v file c). Qed.

Lemma sequential_mmap_reports_witness :
  exists o,
    sequential_mmap small_config 1 map_ok check_bytes crc_static
    = Some (crc64_init crc_static, o)
    /\ hash_lines o = [1348599801794006705].
Proof.
  destruct (sequential_mmap_reports small_config 1 check_bytes crc_static)
    as (o & Hrun & _ & Hh).
  - reflexivity.
  - vm_compute. discriminate.
  - apply crc_static_wf.
  - discriminate.
  - exists o. split; [exact Hrun|]. rewrite Hh. vm_compute. reflexivity.
Defined.

(** What [random_mmap] returns and prints when nothing fails. *)
Lemma random_mmap_run cfg v file c :
  0 < BLOCK_SIZE cfg ->
  Z.of_nat (length file) + BLOCK_SIZE cfg < 2 ^ 64 ->
  crc_wf c ->
  file <> [] ->
  exists o,
    random_mmap cfg v map_ok file c = (crc64_init c, o)
    /\ results o
       = print_results v RandomMmap
           (blocks_xor cfg file (Z.to_nat (T cfg file)))
           (Z.of_nat (length file))
    /\ hash_lines o
       = (if 1 <=? v then [blocks_xor cfg file (Z.to_nat (T cfg file))] else [])
    /\ blocks_visited o = (if 2 <=? v then alternate_order (T cfg file) else [])
    /\ alternate_order (T cfg file) ≡ₚ zseq (T cfg file).
Proof.
  intros HBS Hstrict Hc Hfile.
  assert (Hfit : Z.of_nat (length file) + BLOCK_SIZE cfg <= 2 ^ 64) by lia.
  pose proof (T_nonneg cfg file HBS Hfit) as HT.
  unfold random_mmap.
  rewrite (map_file_ok cfg v file HBS Hfit Hfile).
  match goal with
  | |- context [alternate_loop ?vis _ _ 0 ?st0] =>
      destruct (visit_alternate cfg v file c HBS Hfit vis S_processed_block
                  (fun b st => map_block_ok cfg v file c HBS Hfit Hc b st)
                  st0 Hstrict eq_refl eq_refl eq_refl)
        as (Hh & Ht & Hs & Hl)
  end.
  cbn zeta in Hh, Ht, Hs, Hl. cbn [lines] in Hl.
  eexists. split; [by rewrite Hs|].
  rewrite Hh, Ht, Hl.
  split_and!.
  - rewrite !results_app, results_print_results, !results_out_progress by done.
    rewrite results_bind_progress; [done|].
    intros b. by apply results_out_progress.
  - rewrite !hash_lines_app, hash_lines_print_results.
    rewrite <- (hash_lines_results (_ ≫= _)), results_bind_progress.
    2:{ intros b. by apply results_out_progress. }
    unfold out. by destruct (2 <=? v).
  - rewrite !blocks_visited_app, blocks_visited_print_results,
      !blocks_visited_out by done.
    rewrite (blocks_visited_processed v _ (fun b => b * BLOCK_SIZE cfg)
               (fun b => Z.of_nat (length (file_block cfg file (Z.to_nat b))))).
    by rewrite app_nil_r.
  - by apply alternate_order_perm.
Qed.

(** X8.  [random_mmap] on a file that can be mapped processes the blocks in
    the alternating order, each block once, and reports the same hash and
    the length of the file. *)
Theorem random_mmap_reports cfg v file c :
  0 < BLOCK_SIZE cfg ->
  Z.of_nat (length file) + BLOCK_SIZE cfg < 2 ^ 64 ->
  crc_wf c ->
  file <> [] ->
  exists o,
    random_mmap cfg v map_ok file c = (crc64_init c, o)
    /\ results o
       = print_results v RandomMmap
           (blocks_xor cfg file (Z.to_nat (T cfg file)))
           (Z.of_nat (length file))
    /\ hash_lines o
       = (if 1 <=? v then [blocks_xor cfg file (Z.to_nat (T cfg file))] else [])
    /\ blocks_visited o = (if 2 <=? v then alternate_order (T cfg file) else [])
    /\ alternate_order (T cfg file) ≡ₚ zseq (T cfg file).
Proof. exact (random_mmap_run cfg v file c). Qed.

Lemma random_mmap_reports_witness :
  exists o,
    random_mmap small_config 2 map_ok check_bytes crc_static
    = (crc64_init crc_static, o)
    /\ blocks_visited o = [0; 2; 1].
Proof.
  destruct (random_mmap_reports small_config 2 check_bytes crc_static)
    as (o & Hrun & _ & _ & Hv & _).
  - reflexivity.
  - vm_compute. reflexivity.
  - apply crc_static_wf.
  - discriminate.
  - exists o. split; [exact Hrun|]. rewrite Hv. vm_compute. reflexivity.
Defined.

(** The loop of [sequential_read] under any answers of [fread]. *)
Lemma fread_length e file pos n :
  0 <= pos ->
  Z.of_nat (length (fread e file pos n)) <= Z.of_nat (length file) - pos
  \/ fread e file pos n = [].
Proof.
  intros Hpos. unfold fread.
  destruct (decide (Z.of_nat (length file) <= pos)) as [Hge|Hlt].
  - right. rewrite drop_ge by lia. apply take_nil.
  - left. rewrite length_take, length_drop. lia.
Qed.

Lemma sequential_read_loop_returns cfg v reads file fuel st :
  Z.of_nat (length file) < 2 ^ 64 ->
  crc_wf (statics st) ->
  0 <= position st -> total_bytes st = position st ->
  position st <= Z.of_nat (length file) ->
  (Z.to_nat (Z.of_nat (length file) - position st) < fuel)%nat ->
  exists st',
    sequential_read_loop fuel cfg v reads file st = Some st'
    /\ crc_wf (statics st')
    /\ 0 <= total_bytes st' <= Z.of_nat (length file)
    /\ results (lines st') = results (lines st).
Proof.
  intros H64. revert st.
  induction fuel as [|fuel IH]; intros st Hwf Hpos Htot Hle Hfuel; [lia|].
  cbn [sequential_read_loop].
  destruct (Z.ltb_spec 0
              (Z.of_nat (length (fread (reads (calls st)) file (position st)
                                   (BLOCK_SIZE cfg))))) as [Hread|Hnone].
  - destruct (fread_length (reads (calls st)) file (position st)
                (BLOCK_SIZE cfg) Hpos) as [Hlen|Hnil];
      [|rewrite Hnil in Hread; cbn in Hread; lia].
    rewrite process_block_xor_wf by done.
    match goal with
    | |- context [sequential_read_loop fuel cfg v reads file ?st1] =>
        destruct (IH st1) as (st' & Hloop & Hwf' & Ht' & Hl')
    end; cbn [statics position total_bytes lines].
    + by apply crc64_init_wf.
    + lia.
    + rewrite Htot. apply u64_small. lia.
    + lia.
    + lia.
    + exists st'. split; [done|]. split; [done|]. split; [done|].
      cbn [lines] in Hl'.
      by rewrite Hl', results_app, results_out_progress, app_nil_r.
  - eexists. split; [done|]. cbn [statics total_bytes lines].
    split_and!; try done; lia.
Qed.

(** X5.  [sequential_read] returns whatever the C library answers (failed
    calls, short reads, an early end of the stream); the checksum table stays
    well formed; and when it gets to print its results, the byte total it
    reports is at most the length of the file. *)
Theorem sequential_read_returns cfg v e0 e1 reads file c :
  Z.of_nat (length file) < 2 ^ 64 ->
  crc_wf c ->
  exists c' o,
    sequential_read cfg v e0 e1 reads file c = Some (c', o)
    /\ crc_wf c'
    /\ (results o = []
        \/ exists h t,
             results o = print_results v SequentialRead h t
             /\ 0 <= t <= Z.of_nat (length file)).
Proof.
  intros H64 Hc. unfold sequential_read.
  destruct (get_file_size v e0 file) as [[fsize|] evs] eqn:Hsize.
  - assert (Hpre : results (out v 2 (Own (S_banner SequentialRead))
                            ++ shared_lines evs) = []).
    { unfold get_file_size in Hsize.
      destruct (negb (fopen_ok e0)); [done|].
      destruct (u64 (Z.of_nat (length file)) =? 0); [done|].
      simplify_eq. rewrite shared_lines_say, results_app.
      by rewrite !results_out_progress. }
    destruct (negb (fopen_ok e1)).
    { eexists _, _. split; [done|]. split; [done|]. left.
      by rewrite results_app, Hpre, results_out_progress. }
    destruct (negb (malloc_ok e1)).
    { eexists _, _. split; [done|]. split; [by apply crc64_init_wf|]. left.
      by rewrite results_app, Hpre, results_out_progress. }
    match goal with
    | |- context [sequential_read_loop _ cfg v reads file ?st0] =>
        destruct (sequential_read_loop_returns cfg v reads file
                    (S (length file)) st0)
          as (st' & Hloop & Hwf' & Ht' & Hl')
    end; cbn [statics position total_bytes lines]; try (done || lia).
    { by apply crc64_init_wf. }
    rewrite Hloop. eexists _, _. split; [done|]. split; [done|]. right.
    exists (hash_xor st'), (total_bytes st'). split; [|done].
    cbn [lines] in Hl'.
    by rewrite results_app, Hl', Hpre, results_print_results.
  - eexists _, _. split; [done|]. split; [done|]. left.
    unfold get_file_size in Hsize.
    destruct (negb (fopen_ok e0)); simplify_eq.
    + by rewrite shared_lines_say, results_app, !results_out_progress.
    + destruct (u64 (Z.of_nat (length file)) =? 0); simplify_eq.
      by rewrite shared_lines_say, results_app, !results_out_progress.
Qed.

Lemma sequential_read_returns_witness :
  exists c' o,
    sequential_read small_config 2 env_ok env_ok (fun _ => short_read)
      check_bytes crc_static
    = Some (c', o)
    /\ crc_wf c'.
Proof.
  destruct (sequential_read_returns small_config 2 env_ok env_ok
              (fun _ => short_read) check_bytes crc_static)
    as (c' & o & Hrun & Hwf & _).
  - vm_compute. reflexivity.
  - apply crc_static_wf.
  - by exists c', o.
Defined.

Lemma get_file_size_fails v e file :
  file = [] \/ fopen_ok e = false ->
  exists l, get_file_size v e file = (None, say v 2 l)
            /\ (l = L_cannot_open \/ l = L_file_empty).
Proof.
  intros H. unfold get_file_size.
  destruct (fopen_ok e) eqn:He; cbn [negb].
  - destruct H as [->|]; [|done]. exists L_file_empty. split; [done|by right].
  - exists L_cannot_open. split; [done|by left].
Qed.

Lemma map_file_fails v me file :
  file = [] \/ open_ok me = false \/ fstat_ok me = false
  \/ mmap_ok me = false ->
  exists o, map_file v me file = (None, o) /\ results o = [].
Proof.
  intros H. unfold map_file.
  destruct (open_ok me) eqn:Ho; cbn [negb];
    [|eexists; split; [done|by apply results_out_progress]].
  destruct (fstat_ok me) eqn:Hs; cbn [negb];
    [|eexists; split; [done|by apply results_out_progress]].
  destruct (u64 (Z.of_nat (length file)) =? 0) eqn:Hz;
    [eexists; split; [done|by apply results_out_progress]|].
  destruct (mmap_ok me) eqn:Hm; cbn [negb].
  - destruct H as [->|[|[|]]]; done.
  - eexists; split; [done|].
    by rewrite results_app, !results_out_progress.
Qed.

(** X9.  When the setup of a strategy fails it prints no result line (no
    hash, no byte total, no timing): for the two stream strategies on an
    empty file, a failed [fopen] (in [get_file_size] or in the function) or
    a failed [malloc]; for the two mmap strategies on an empty file or a
    failed [open], [fstat] or [mmap].  The checksum table is not built when
    the file is empty or the first open fails. *)
Theorem setup_failure_prints_no_results cfg v e0 e1 reads me file c :
  (file = [] \/ fopen_ok e0 = false \/ fopen_ok e1 = false
   \/ malloc_ok e1 = false ->
   (exists c' o,
      sequential_read cfg v e0 e1 reads file c = Some (c', o)
      /\ results o = []
      /\ (file = [] \/ fopen_ok e0 = false -> c' = c))
   /\ (exists c' o,
         random_read cfg v e0 e1 reads file c = (c', o)
         /\ results o = []
         /\ (file = [] \/ fopen_ok e0 = false -> c' = c)))
  /\ (file = [] \/ open_ok me = false \/ fstat_ok me = false
      \/ mmap_ok me = false ->
      (exists o,
         sequential_mmap cfg v me file c = Some (c, o) /\ results o = [])
      /\ (exists o,
            random_mmap cfg v me file c = (c, o) /\ results o = [])).
Proof.
  split.
  - intros H. unfold sequential_read, random_read.
    destruct (get_file_size v e0 file) as [[fsize|] evs] eqn:Hsize.
    + assert (Hpre : results (shared_lines evs) = []
                     /\ ~ (file = [] \/ fopen_ok e0 = false)).
      { split.
        - unfold get_file_size in Hsize.
          destruct (negb (fopen_ok e0)); [done|].
          destruct (u64 (Z.of_nat (length file)) =? 0); [done|].
          simplify_eq. rewrite shared_lines_say.
          by apply results_out_progress.
        - intros Hf. apply (get_file_size_fails v) in Hf as (l & Hf & _).
          congruence. }
      destruct Hpre as [Hpre Hno].
      destruct (fopen_ok e1) eqn:He1; cbn [negb].
      * destruct (malloc_ok e1) eqn:Hm; cbn [negb];
          [exfalso; intuition discriminate|].
        split; eexists _, _; (split; [done|]); (split; [|tauto]);
          by rewrite !results_app, Hpre, !results_out_progress.
      * split; eexists _, _; (split; [done|]); (split; [|tauto]);
          by rewrite !results_app, Hpre, !results_out_progress.
    + assert (Hpre : results (shared_lines evs) = []).
      { unfold get_file_size in Hsize.
        destruct (negb (fopen_ok e0)); simplify_eq.
        - rewrite shared_lines_say. by apply results_out_progress.
        - destruct (u64 (Z.of_nat (length file)) =? 0); simplify_eq.
          rewrite shared_lines_say. by apply results_out_progress. }
      split; eexists _, _; (split; [done|]); (split; [|done]);
        by rewrite !results_app, Hpre, !results_out_progress.
  - intros H. apply (map_file_fails v) in H as (o & Hmap & Ho).
    unfold sequential_mmap, random_mmap. rewrite Hmap.
    split; eexists; (split; [done|]);
      by rewrite results_app, Ho, results_out_progress.
Qed.

(** X10.  [read_file] without failures: the four single-threaded strategies
    all print the same hash, the XOR of the checksums of the blocks of the
    file, and so does [async_sequential_read], which runs next, in every run
    without failure that reaches its report; such a run exists. *)
Theorem read_file_hashes_agree cfg v e file c q0 h0 :
  0 < BLOCK_SIZE cfg ->
  Z.of_nat (length file) + BLOCK_SIZE cfg < 2 ^ 64 ->
  1 <= MAX_QUEUE_SIZE cfg ->
  (1 <= NUM_READERS cfg)%nat ->
  (1 <= NUM_CONSUMERS cfg)%nat ->
  crc_wf c ->
  file <> [] ->
  sync_ok e ->
  let h := blocks_xor cfg file (Z.to_nat (T cfg file)) in
  exists o,
    read_file_sync cfg v e file c = Some (crc64_init c, o)
    /\ hash_lines o = (if 1 <=? v then [h; h; h; h] else [])
    /\ (forall sched s tr,
          failure_free sched ->
          exec cfg v file sched (entry_state q0 h0 (crc64_init c))
          = Some (s, tr) ->
          main_pc s = MReturned Reported ->
          reported_hashes tr = if 1 <=? v then [h] else [])
    /\ (exists sched s tr,
          failure_free sched
          /\ exec cfg v file sched (entry_state q0 h0 (crc64_init c))
             = Some (s, tr)
          /\ main_pc s = MReturned Reported).
Proof.
  intros HBS Hstrict Hcap Hnr Hnc Hc Hfile Hok h.
  assert (Hfit : Z.of_nat (length file) + BLOCK_SIZE cfg <= 2 ^ 64) by lia.
  destruct Hok as (Hs0 & Hs1 & Hsm & Hsr & Hr0 & Hr1 & Hrm & Hrr & Hsmap & Hrmap).
  pose proof (crc64_init_wf c Hc) as Hc1.
  destruct (sequential_read_run cfg v _ _ _ file c HBS Hfit Hc Hfile
              Hs0 Hs1 Hsm Hsr) as (o1 & Hrun1 & _ & Hh1).
  destruct (random_read_run cfg v _ _ _ file _ HBS Hstrict Hc1 Hfile
              Hr0 Hr1 Hrm Hrr) as (o2 & Hrun2 & _ & Hh2 & _).
  destruct (sequential_mmap_run cfg v file _ HBS Hfit Hc1 Hfile)
    as (o3 & Hrun3 & _ & Hh3).
  destruct (random_mmap_run cfg v file _ HBS Hstrict Hc1 Hfile)
    as (o4 & Hrun4 & _ & Hh4 & _).
  rewrite crc64_init_idem in Hrun2, Hrun3, Hrun4.
  exists (o1 ++ o2 ++ o3 ++ o4). split_and!.
  - unfold read_file_sync. rewrite Hrun1, Hrun2, Hsmap, Hrun3, Hrmap, Hrun4.
    done.
  - rewrite !hash_lines_app, Hh1, Hh2, Hh3, Hh4. by destruct (1 <=? v).
  - intros sched s tr Hff Hex Hpc.
    destruct (reported_state cfg v file q0 h0 _ HBS Hfit Hc1 _ _ _ Hnc Hff
                Hex Hpc) as (_ & _ & _ & Hrep).
    by rewrite Hrep, <- blocks_xor_digest.
  - destruct (sequential_schedule_reports cfg v file _ HBS Hfit Hc1 Hcap q0 h0
                Hnr Hnc Hfile) as (s & tr & Hex & Hpc).
    exists (sequential_schedule cfg (Z.to_nat (T cfg file))), s, tr.
    split; [apply sequential_schedule_failure_free|done].
Qed.

Lemma read_file_hashes_agree_witness :
  exists o,
    read_file_sync small_config 1 sync_env_ok check_bytes crc_static
    = Some (crc64_init crc_static, o)
    /\ hash_lines o
       = [1348599801794006705; 1348599801794006705; 1348599801794006705;
          1348599801794006705].
Proof.
  destruct (read_file_hashes_agree small_config 1 sync_env_ok check_bytes
              crc_static (init_buffer_queue small_config) 0)
    as (o & Hrun & Hh & _).
  - reflexivity.
  - vm_compute. reflexivity.
  - vm_compute. discriminate.
  - vm_compute. lia.
  - vm_compute. lia.
  - apply crc_static_wf.
  - discriminate.
  - unfold sync_ok, reads_ok. cbn. repeat split.
  - exists o. split; [exact Hrun|]. rewrite Hh. vm_compute. reflexivity.
Defined.

End StrategyFacts.

(** ** read_file.c: the command line *)

Section CommandLineClaims.
Import CommandLine.

Section CommandLineFacts.
Context (atoi : string -> Z) (prog : string).

(** A flag of the verbosity option with a level in range. *)
Local Abbreviation level_ok :=
  (fun p : string * string =>
     (fst p = "-v"%string \/ fst p = "--verbose"%string)
     /\ 0 <= atoi (snd p) <= 2).

Lemma is_option_flag s :
  s = "-v"%string \/ s = "--verbose"%string -> is_option s = true.
Proof. by intros [-> | ->]. Qed.

Lemma default_last_cons (v0 x : Z) l :
  default v0 (last (x :: l)) = default x (last l).
Proof. rewrite last_cons. by destruct (last l). Qed.

Lemma parse_run_inv args v0 out v f :
  0 <= v0 <= 2 ->
  parse atoi prog args v0 = (out, Run v f) ->
  exists pairs post,
    args = option_words pairs ++ f :: post
    /\ Forall level_ok pairs
    /\ v = default v0 (last (atoi ∘ snd <$> pairs))
    /\ is_option f = false.
Proof.
  revert v0. induction args as [args IH] using (induction_ltof1 _ (@length _));
    unfold ltof in IH; intros v0 Hv0 Hp.
  destruct args as [|arg rest]; [done|]. cbn [parse] in Hp.
  destruct (is_option arg) eqn:Hopt.
  - destruct (String.eqb arg "-v" || String.eqb arg "--verbose") eqn:Hflag.
    + destruct rest as [|level rest']; [done|]. cbn zeta in Hp.
      destruct ((atoi level <? 0) || (2 <? atoi level)) eqn:Hrange; [done|].
      apply orb_false_iff in Hrange as [H0 H2]. reflect_bools.
      apply IH in Hp as (pairs & post & -> & Hall & -> & Hf);
        [|cbn; lia|lia].
      exists ((arg, level) :: pairs), post. split_and!; try done.
      * constructor; [|done]. cbn [fst snd]. split; [|lia].
        apply orb_true_iff in Hflag as [H|H]; apply String.eqb_eq in H; tauto.
      * by rewrite fmap_cons, default_last_cons.
    + destruct (String.eqb arg "-h" || String.eqb arg "--help"); done.
  - simplify_eq. exists [], rest. by split_and!.
Qed.

Lemma parse_run pairs f post v0 :
  Forall level_ok pairs -> is_option f = false ->
  parse atoi prog (option_words pairs ++ f :: post) v0
  = ((let v := default v0 (last (atoi ∘ snd <$> pairs)) in
      if 2 <=? v then [M_verbosity v; M_input_file f] else []),
     Run (default v0 (last (atoi ∘ snd <$> pairs))) f).
Proof.
  intros Hall Hf. revert v0.
  induction Hall as [|[flag level] pairs [Hflag Hlevel] _ IH]; intros v0.
  - cbn [option_words mbind list_bind app parse]. by rewrite Hf.
  - unfold option_words. rewrite bind_cons. cbn [fst snd app parse] in *.
    rewrite (is_option_flag flag Hflag).
    assert ((String.eqb flag "-v" || String.eqb flag "--verbose") = true) as ->.
    { apply orb_true_iff. destruct Hflag as [-> | ->]; [by left|by right]. }
    destruct (Z.ltb_spec (atoi level) 0); [lia|].
    destruct (Z.ltb_spec 2 (atoi level)); [lia|].
    cbn [orb]. fold (option_words pairs). rewrite IH.
    by rewrite fmap_cons, default_last_cons.
Qed.

Lemma parse_exit_inv args v0 out code :
  parse atoi prog args v0 = (out, Exit code) ->
  (code = 0 /\ ("-h"%string ∈ args \/ "--help"%string ∈ args)
   /\ out = [M_usage prog; M_usage_verbose; M_usage_help; M_levels;
             M_level 0; M_level 1; M_level 2])
  \/ (code = 1 /\ exists e, out = e :: M_usage prog :: drop 2 out
                            /\ match e with
                               | M_bad_level | M_needs_level | M_unknown _
                               | M_missing_file => True
                               | _ => False
                               end).
Proof.
  revert v0. induction args as [args IH] using (induction_ltof1 _ (@length _));
    unfold ltof in IH; intros v0 Hp.
  destruct args as [|arg rest]; cbn [parse] in Hp.
  { simplify_eq. right. split; [done|]. by eexists. }
  destruct (is_option arg) eqn:Hopt; [|done].
  destruct (String.eqb arg "-v" || String.eqb arg "--verbose") eqn:Hflag.
  - destruct rest as [|level rest'].
    { simplify_eq. right. split; [done|]. by eexists. }
    cbn zeta in Hp.
    destruct ((atoi level <? 0) || (2 <? atoi level)) eqn:Hrange.
    { simplify_eq. right. split; [done|]. by eexists. }
    apply IH in Hp as [(-> & Hin & ->)|Herr]; [| |cbn; lia].
    + left. split; [done|]. split; [|done].
      rewrite !elem_of_cons. tauto.
    + by right.
  - destruct (String.eqb arg "-h" || String.eqb arg "--help") eqn:Hhelp.
    + simplify_eq. left. split; [done|]. split; [|done].
      apply orb_true_iff in Hhelp as [H|H]; apply String.eqb_eq in H;
        subst; rewrite !elem_of_cons; tauto.
    + simplify_eq. right. split; [done|]. by eexists.
Qed.

End CommandLineFacts.

(** X11.  [main] calls [read_file] exactly when its arguments are a sequence
    of verbosity options ([-v] or [--verbose], each followed by a level
    that [atoi] maps into 0..2) followed by an argument that does not start
    with a dash.  That argument is the file; the verbosity is the level of
    the last option, 1 when there is none, so always within 0..2; whatever
    follows the file name is ignored. *)
Theorem main_runs_first_file atoi prog args out v f :
  main atoi prog args = (out, Run v f) <->
  exists pairs post,
    args = option_words pairs ++ f :: post
    /\ Forall (fun p => (fst p = "-v"%string \/ fst p = "--verbose"%string)
                        /\ 0 <= atoi (snd p) <= 2) pairs
    /\ is_option f = false
    /\ v = default 1 (last (atoi ∘ snd <$> pairs))
    /\ 0 <= v <= 2
    /\ out = (if 2 <=? v then [M_verbosity v; M_input_file f] else [])
    /\ forall post',
         main atoi prog (option_words pairs ++ f :: post') = (out, Run v f).
Proof.
  unfold main. split.
  - intros Hp.
    destruct (parse_run_inv atoi prog args 1 out v f) as
      (pairs & post & -> & Hall & -> & Hf); [lia|done|].
    exists pairs, post.
    rewrite (parse_run atoi prog pairs f post 1 Hall Hf) in Hp.
    cbn zeta in Hp. simplify_eq.
    split_and!; try done.
    + destruct (last (atoi ∘ snd <$> pairs)) as [x|] eqn:Hlast; [|cbn; lia].
      apply last_Some_elem_of, list_elem_of_fmap in Hlast as (p & -> & Hin).
      rewrite Forall_forall in Hall. destruct (Hall p Hin) as [_ ?].
      cbn. lia.
    + destruct (last (atoi ∘ snd <$> pairs)) as [x|] eqn:Hlast; [|cbn; lia].
      apply last_Some_elem_of, list_elem_of_fmap in Hlast as (p & -> & Hin).
      rewrite Forall_forall in Hall. destruct (Hall p Hin) as [_ ?].
      cbn. lia.
    + intros post'. by rewrite parse_run.
  - intros (pairs & post & -> & Hall & Hf & -> & _ & -> & _).
    by rewrite parse_run.
Qed.

(** X12.  When [main] returns without reading a file its exit code is 0 or
    1: 0 only for a help option among the arguments, with the full help
    text; 1 with an error line and the usage line (missing file, unknown
    option, missing or out-of-range level). *)
Theorem main_exit_codes atoi prog args out code :
  main atoi prog args = (out, Exit code) ->
  (code = 0 /\ ("-h"%string ∈ args \/ "--help"%string ∈ args)
   /\ out = [M_usage prog; M_usage_verbose; M_usage_help; M_levels;
             M_level 0; M_level 1; M_level 2])
  \/ (code = 1 /\ exists e, out = e :: M_usage prog :: drop 2 out
                            /\ match e with
                               | M_bad_level | M_needs_level | M_unknown _
                               | M_missing_file => True
                               | _ => False
                               end).
Proof. apply parse_exit_inv. Qed.

Lemma main_exit_codes_witness :
  main atoi_digit "read_file" ["-v"; "3"; "data.bin"]%string
  = ([M_bad_level; M_usage "read_file"; M_usage_verbose; M_usage_help],
     Exit 1)
  /\ exists e, e = M_bad_level.
Proof.
  assert (H : main atoi_digit "read_file" ["-v"; "3"; "data.bin"]%string
    = ([M_bad_level; M_usage "read_file"; M_usage_verbose; M_usage_help],
       Exit 1)) by reflexivity.
  split; [exact H|].
  destruct (main_exit_codes _ _ _ _ _ H) as [(Hc & _)|(_ & e & He & _)];
    [discriminate|].
  exists e. by simplify_eq.
Defined.

End CommandLineClaims.

(** ** The pipeline: slots and signals *)

Section AccountingFacts.
Import Accounting.

Lemma reader_slot_range r : 0 <= reader_slot r <= 1.
Proof. unfold reader_slot. destruct (r_pc r) as [| | | |? []| | |]; lia. Qed.

Lemma consumer_slot_range c : 0 <= consumer_slot c <= 1.
Proof. destruct c; cbn; lia. Qed.

Lemma reader_signal_range r : 0 <= reader_signal r <= 1.
Proof. unfold reader_signal. destruct (r_pc r) as [| | | |? []| | |]; lia. Qed.

Lemma consumer_signal_range c : 0 <= consumer_signal c <= 1.
Proof. destruct c; cbn; lia. Qed.

Lemma leaving_range c : 0 <= leaving c <= 1.
Proof. destruct c; cbn; lia. Qed.

Lemma kept_signals_nonneg s : 0 <= kept_signals s.
Proof.
  unfold kept_signals. destruct (drained (queue s)); [|lia].
  apply sum_with_nonneg. intros c. apply leaving_range.
Qed.

Lemma sum_with_snoc {A} (f : A -> Z) l x :
  sum_with f (l ++ [x]) = sum_with f l + f x.
Proof. rewrite sum_with_app, sum_with_cons. cbn. lia. Qed.

(** A positive sum has a positive term. *)
Lemma sum_with_pos {A} (f : A -> Z) l :
  0 < sum_with f l -> exists i x, l !! i = Some x /\ 0 < f x.
Proof.
  induction l as [|y l IH]; [cbn; lia|].
  rewrite sum_with_cons. intros H.
  destruct (Z_lt_le_dec 0 (f y)) as [Hy|Hy].
  - by exists 0%nat, y.
  - destruct IH as (i & x & Hi & Hx); [lia|]. by exists (S i), x.
Qed.

Lemma sum_with_le_length {A} (f : A -> Z) l :
  (forall x, f x <= 1) -> sum_with f l <= Z.of_nat (length l).
Proof.
  intros Hf. induction l as [|y l IH]; [done|].
  rewrite sum_with_cons. cbn [length]. specialize (Hf y). lia.
Qed.

Lemma sum_with_lt_length {A} (f : A -> Z) l i x :
  (forall x, 0 <= f x <= 1) -> l !! i = Some x -> f x = 0 ->
  sum_with f l < Z.of_nat (length l).
Proof.
  intros Hf Hi Hx. rewrite <- (take_drop_middle l i x Hi).
  rewrite sum_with_app, sum_with_cons, length_app. cbn [length].
  pose proof (sum_with_le_length f (take i l) (fun y => proj2 (Hf y))).
  pose proof (sum_with_le_length f (drop (S i) l) (fun y => proj2 (Hf y))).
  lia.
Qed.

End AccountingFacts.

Section AcctPreservation.
Import Accounting.
Context (cfg : Config) (v : Z) (file : list byte).
Context (q0 : BufferQueue) (h0 : Z) (c0 : crc_state).
Hypothesis HBS : 0 < BLOCK_SIZE cfg.
Hypothesis Hfit : Z.of_nat (length file) + BLOCK_SIZE cfg <= 2 ^ 64.
Hypothesis Hc0 : crc_wf c0.
Hypothesis Hcap : 0 <= MAX_QUEUE_SIZE cfg.

Local Abbreviation Inv := (Inv cfg v file q0 h0 c0).
Local Abbreviation Acct := (Acct cfg).

Lemma kept_signals_reading s :
  reading_done (queue s) = 0 -> kept_signals s = 0.
Proof. unfold kept_signals, drained. by intros ->. Qed.

(** While a reader is still counted, [reading_done] is clear. *)
Lemma reading_before_done s tr :
  Inv s tr -> started s -> 0 < active_readers (queue s) \/ readers_handled cfg (main_pc s) = None ->
  reading_done (queue s) = 0.
Proof.
  intros HI Hst H.
  destruct (readers_handled cfg (main_pc s)) as [i|] eqn:Hi.
  - destruct (inv_readers _ _ _ _ _ _ _ _ HI i Hi) as (_ & _ & _ & Hd).
    destruct H as [H|H]; [lia|done].
  - by destruct (inv_no_readers _ _ _ _ _ _ _ _ HI Hst Hi).
Qed.

Ltac acct_simpl :=
  unfold kept_signals, drained, started in *;
  cbn [main_pc queue readers consumers wakeups] in *; queue_simpl; queue_simpl;
  rewrite ?sum_with_snoc;
  cbn [reader_slot reader_signal consumer_slot consumer_signal leaving r_pc].

Lemma main_step_acct e s tr s' evs :
  Inv s tr -> Acct s ->
  main_step cfg v file e s = Some (s', evs) -> Acct s'.
Proof.
  intros HI [Hemp Hfull Hslots Hsig] Hstep.
  destruct s as [pc q h c rs cs]. unfold main_step in Hstep.
  cbn [main_pc queue global_hash_xor crc readers consumers] in *.
  destruct pc as [|i|i| |i| |how].
  - (* the queue is set up *)
    destruct (inv_idle _ _ _ _ _ _ _ _ HI) as (Hrs & Hcs & _); [by intros []|].
    cbn [readers consumers] in Hrs, Hcs. subst rs cs.
    case_hyp Hstep; simplify_eq.
    + constructor; acct_simpl; cbn; intros; lia.
    + constructor; by intros [].
  - assert (Hrd : reading_done q = 0).
    { apply (reading_before_done _ tr HI); [done|by right]. }
    specialize (Hemp I). specialize (Hfull I). specialize (Hslots I).
    specialize (Hsig I).
    case_hyp Hstep; simplify_eq; constructor; intros _; acct_simpl;
      rewrite Hrd in *; cbn [Z.eqb negb andb] in *; lia.
  - assert (Hrd : (i <? NUM_READERS cfg)%nat = true -> reading_done q = 0).
    { intros Hi. reflect_bools. apply (reading_before_done _ tr HI); [done|].
      destruct (inv_readers _ _ _ _ _ _ _ _ HI i eq_refl) as (_ & _ & Ha & _).
      cbn [queue readers] in Ha. left. cbn [queue].
      pose proof (sum_with_nonneg alive rs alive_nonneg). lia. }
    specialize (Hemp I). specialize (Hfull I). specialize (Hslots I).
    specialize (Hsig I).
    case_hyp Hstep; simplify_eq; constructor; intros _; acct_simpl;
      try (rewrite Hrd in * by done; cbn [Z.eqb negb andb] in * );
      lia.
  - specialize (Hemp I). specialize (Hfull I). specialize (Hslots I).
    specialize (Hsig I).
    case_hyp Hstep; simplify_eq; constructor; intros _; acct_simpl; lia.
  - specialize (Hemp I). specialize (Hfull I). specialize (Hslots I).
    specialize (Hsig I).
    case_hyp Hstep; simplify_eq; constructor; intros _; acct_simpl;
      reflect_bools; lia.
  - specialize (Hemp I). specialize (Hfull I). specialize (Hslots I).
    specialize (Hsig I).
    case_hyp Hstep; simplify_eq; constructor; intros _; acct_simpl; lia.
  - done.
Qed.

Lemma reader_step_acct rid e s tr r r' q' evs :
  Inv s tr -> Acct s ->
  readers s !! rid = Some r ->
  reader_step cfg v file rid e r (queue s) = Some (r', q', evs) ->
  Acct (mk_state (main_pc s) q' (global_hash_xor s) (crc s)
          (<[rid := r']> (readers s)) (consumers s)).
Proof.
  intros HI [Hemp Hfull Hslots Hsig] Hlook Hstep.
  assert (Hst : started s).
  { destruct (started_dec s) as [|Hn]; [done|].
    destruct (inv_idle _ _ _ _ _ _ _ _ HI Hn) as (Hr & _).
    by rewrite Hr in Hlook. }
  assert (Halive : alive r = 1).
  { unfold alive, reader_gone. unfold reader_step in Hstep.
    by destruct (r_pc r). }
  assert (Hrd : reading_done (queue s) = 0).
  { apply (reading_before_done _ tr HI Hst).
    destruct (readers_handled cfg (main_pc s)) as [i|] eqn:Hi; [left|by right].
    destruct (inv_readers _ _ _ _ _ _ _ _ HI i Hi) as (_ & _ & Ha & _).
    pose proof (sum_with_lookup_le alive _ _ _ alive_nonneg Hlook). lia. }
  specialize (Hemp Hst). specialize (Hfull Hst). specialize (Hslots Hst).
  specialize (Hsig Hst).
  rewrite (kept_signals_reading s Hrd) in Hsig.
  pose proof (sum_with_insert reader_slot _ _ _ r' Hlook) as Hins1.
  pose proof (sum_with_insert reader_signal _ _ _ r' Hlook) as Hins2.
  pose proof (sum_with_nonneg leaving (consumers s)
                (fun c => proj1 (leaving_range c))) as Hleave.
  destruct s as [pc q h c rs cs].
  cbn [main_pc queue global_hash_xor crc readers consumers] in *.
  unfold reader_step, reserve_next_block, enqueue_locked, enqueue_post,
    mark_reader_done, sem_wait in Hstep.
  destruct r as [rpc tb]. cbn [r_pc Pipeline.total_bytes] in *.
  destruct rpc; case_hyp Hstep; simplify_eq;
    cbn [reader_slot reader_signal r_pc] in Hins1, Hins2;
    constructor; intros _; acct_simpl; rewrite ?Hins1, ?Hins2;
    try (rewrite Hrd; cbn [Z.eqb negb andb]); reflect_bools;
    repeat match goal with
           | |- context [if ?b then _ else _] => destruct b
           end;
    lia.
Qed.

Ltac split_eqb :=
  repeat match goal with
         | |- context [?a =? ?b] => destruct (Z.eqb_spec a b)
         end;
  cbn [negb andb].

Lemma consumer_step_acct cid s tr c c' q' h' cs' evs :
  Inv s tr -> Acct s ->
  consumers s !! cid = Some c ->
  consumer_step v cid c (queue s) (global_hash_xor s) (crc s)
  = Some (c', q', h', cs', evs) ->
  Acct (mk_state (main_pc s) q' h' cs' (readers s)
          (<[cid := c']> (consumers s))).
Proof.
  intros HI [Hemp Hfull Hslots Hsig] Hlook Hstep.
  assert (Hst : started s).
  { destruct (started_dec s) as [|Hn]; [done|].
    destruct (inv_idle _ _ _ _ _ _ _ _ HI Hn) as (_ & Hr & _).
    by rewrite Hr in Hlook. }
  specialize (Hemp Hst). specialize (Hfull Hst). specialize (Hslots Hst).
  specialize (Hsig Hst).
  pose proof (sum_with_insert consumer_slot _ _ _ c' Hlook) as Hins1.
  pose proof (sum_with_insert consumer_signal _ _ _ c' Hlook) as Hins2.
  pose proof (sum_with_insert leaving _ _ _ c' Hlook) as Hins3.
  pose proof (sum_with_nonneg leaving (consumers s)
                (fun c => proj1 (leaving_range c))) as Hleave.
  pose proof (sum_with_lookup_le leaving _ _ _
                (fun c => proj1 (leaving_range c)) Hlook) as Hle.
  destruct s as [pc q h cst rs cs].
  cbn [main_pc queue global_hash_xor crc readers consumers] in *.
  unfold consumer_step, dequeue_locked, dequeue_post, process_buffer_data,
    crc64_compute, crc64_update, sem_wait, drained in Hstep.
  destruct c; case_hyp Hstep; simplify_eq;
    cbn [consumer_slot consumer_signal leaving fst snd] in *;
    constructor; intros _; revert Hemp Hfull Hslots Hsig;
    acct_simpl; rewrite ?Hins1, ?Hins2, ?Hins3; reflect_bools;
    split_eqb; intros; try lia.
Qed.

Lemma step_acct a s tr s' evs :
  Inv s tr -> Acct s -> step cfg v file a s = Some (s', evs) -> Acct s'.
Proof.
  intros HI HA Hstep. destruct a as [[|rid|cid] e]; cbn [step] in Hstep.
  - by eapply main_step_acct.
  - destruct (readers s !! rid) as [r|] eqn:Hr; [|done].
    destruct (reader_step cfg v file rid e r (queue s))
      as [[[r' q'] evs']|] eqn:Hrs; [|done].
    simplify_eq. by eapply reader_step_acct.
  - destruct (consumers s !! cid) as [c|] eqn:Hc; [|done].
    destruct (consumer_step v cid c (queue s) (global_hash_xor s) (crc s))
      as [[[[[c' q'] h'] cs'] evs']|] eqn:Hcs; [|done].
    simplify_eq. by eapply consumer_step_acct.
Qed.

Lemma exec_acct sched s tr :
  exec cfg v file sched (entry_state q0 h0 c0) = Some (s, tr) -> Acct s.
Proof.
  apply (exec_induction cfg v file (fun s _ => Acct s)).
  - constructor; by intros [].
  - intros sched' s1 tr1 a s2 evs Hex HA Hstep.
    eapply step_acct; [|done|done].
    by eapply (exec_inv cfg v file q0 h0 c0).
Qed.

End AcctPreservation.

Section Runnable.
Import Accounting.
Context (cfg : Config) (v : Z) (file : list byte).

Lemma reader_runnable s rid r :
  readers s !! rid = Some r ->
  match r_pc r with
  | RExited | RAbsent => False
  | REnqueueWait _ => 0 < empty_slots (queue s)
  | _ => True
  end ->
  runnable cfg v file (ReaderT rid) s.
Proof.
  intros Hlook Hpc. unfold runnable. cbn [step]. rewrite Hlook.
  unfold reader_step, sem_wait.
  destruct (r_pc r); try done; cbn [fopen_ok malloc_ok fseek_ok env_ok negb];
    case_goal; reflect_bools; try (by eexists); lia.
Qed.

Lemma consumer_runnable s cid c :
  consumers s !! cid = Some c ->
  match c with
  | CExited => False
  | CWait => 0 < full_slots (queue s)
  | CLocked => count (queue s) = 0 \/ nodes (queue s) <> []
  | _ => True
  end ->
  runnable cfg v file (ConsumerT cid) s.
Proof.
  intros Hlook Hc. unfold runnable. cbn [step]. rewrite Hlook.
  unfold consumer_step, sem_wait, dequeue_locked.
  destruct c; try done; case_goal; reflect_bools; try (by eexists);
    try lia.
  by destruct Hc.
Qed.

Lemma main_runnable s :
  match main_pc s with
  | MJoinReaders => forallb reader_gone (readers s) = true
  | MJoinConsumers => forallb consumer_gone (consumers s) = true
  | MReturned _ => False
  | _ => True
  end ->
  runnable cfg v file Main s.
Proof.
  intros Hpc. unfold runnable. cbn [step]. unfold main_step, get_file_size.
  destruct (main_pc s); try done; cbn [fopen_ok create_ok env_ok negb];
    try rewrite Hpc; case_goal; eexists; done.
Qed.

End Runnable.

Section AccountingClaims.
Import Accounting.

(** X13.  In every run, whatever fails, the semaphores bound the queue: the
    number of queued nodes never exceeds [MAX_QUEUE_SIZE], both semaphore
    counters stay non-negative, and the free slots, the queued nodes and
    the slots in the hands of a reader or a consumer always add up to
    [MAX_QUEUE_SIZE]. *)
Theorem queue_never_exceeds_capacity cfg v file q0 h0 c0 sched s tr :
  0 < BLOCK_SIZE cfg ->
  Z.of_nat (length file) + BLOCK_SIZE cfg <= 2 ^ 64 ->
  crc_wf c0 ->
  0 <= MAX_QUEUE_SIZE cfg ->
  exec cfg v file sched (entry_state q0 h0 c0) = Some (s, tr) ->
  started s ->
  0 <= count (queue s) <= MAX_QUEUE_SIZE cfg
  /\ Z.of_nat (length (nodes (queue s))) = count (queue s)
  /\ 0 <= empty_slots (queue s) <= MAX_QUEUE_SIZE cfg
  /\ 0 <= full_slots (queue s)
  /\ empty_slots (queue s) + count (queue s)
     + sum_with reader_slot (readers s) + sum_with consumer_slot (consumers s)
     = MAX_QUEUE_SIZE cfg.
Proof.
  intros HBS Hfit Hc0 Hcap Hex Hst.
  pose proof (exec_inv cfg v file q0 h0 c0 HBS Hfit Hc0 _ _ _ Hex) as HI.
  destruct (exec_acct cfg v file q0 h0 c0 HBS Hfit Hc0 Hcap _ _ _ Hex)
    as [Hemp Hfull Hslots _].
  specialize (Hemp Hst). specialize (Hfull Hst). specialize (Hslots Hst).
  destruct (inv_chain _ _ _ _ _ _ _ _ HI Hst) as [Hcount _].
  pose proof (sum_with_nonneg reader_slot (readers s)
                (fun r => proj1 (reader_slot_range r))).
  pose proof (sum_with_nonneg consumer_slot (consumers s)
                (fun c => proj1 (consumer_slot_range c))).
  split_and!; try done; lia.
Qed.

Lemma queue_never_exceeds_capacity_witness :
  exists s,
    exec small_config 1 check_bytes
      (replicate 7 (ok Main) ++ replicate 8 (ok (ReaderT 0)))
      (fresh_state small_config)
    = Some (s, [Reserved 0 (Some 0); Reserved 0 (Some 1)])
    /\ count (queue s) = 2
    /\ 0 <= count (queue s) <= MAX_QUEUE_SIZE small_config.
Proof.
  eexists. split; [vm_compute; reflexivity|].
  split; [reflexivity|].
  refine (proj1 (queue_never_exceeds_capacity small_config 1 check_bytes
                   (init_buffer_queue small_config) 0 crc_static
                   (replicate 7 (ok Main) ++ replicate 8 (ok (ReaderT 0)))
                   _ [Reserved 0 (Some 0); Reserved 0 (Some 1)]
                   _ _ _ _ _ _)).
  - reflexivity.
  - vm_compute. discriminate.
  - apply crc_static_wf.
  - vm_compute. discriminate.
  - vm_compute. reflexivity.
  - exact I.
Defined.



End AccountingClaims.

(** ** The pipeline: a run without failures can always be completed *)

Ltac rank_simpl :=
  unfold Accounting.measure, Accounting.backlog, Accounting.kept_signals,
    drained, started in *;
  cbn [main_pc queue readers consumers Accounting.wakeups
       Accounting.main_rank] in *;
  queue_simpl; queue_simpl;
  rewrite ?sum_with_snoc;
  cbn [Accounting.reader_slot Accounting.reader_signal
       Accounting.consumer_slot Accounting.consumer_signal
       Accounting.leaving Accounting.reader_rank Accounting.busy_rank
       Accounting.drained_rank r_pc] in *.

Ltac split_eqb_all :=
  repeat match goal with
         | |- context [?a =? ?b] => destruct (Z.eqb_spec a b)
         end;
  cbn [negb andb].

Section Completion.
Import Accounting.
Context (cfg : Config) (v : Z) (file : list byte).
Context (q0 : BufferQueue) (h0 : Z) (c0 : crc_state).
Hypothesis HBS : 0 < BLOCK_SIZE cfg.
Hypothesis Hfit : Z.of_nat (length file) + BLOCK_SIZE cfg <= 2 ^ 64.
Hypothesis Hc0 : crc_wf c0.
Hypothesis Hcap : 1 <= MAX_QUEUE_SIZE cfg.
Hypothesis Hnr : (1 <= NUM_READERS cfg)%nat.
Hypothesis Hnc : (1 <= NUM_CONSUMERS cfg)%nat.
Hypothesis Hfile : file <> [].

Local Abbreviation Inv := (Inv cfg v file q0 h0 c0).
Local Abbreviation Clean := (Clean cfg file).
Local Abbreviation Acct := (Acct cfg).
Local Abbreviation Live := (Live cfg file).
Local Abbreviation T := (T cfg file).
Local Abbreviation measure := (measure cfg file).

Lemma step_started a s s' evs :
  started s -> step cfg v file a s = Some (s', evs) -> started s'.
Proof.
  intros Hst Hstep. destruct a as [[|rid|cid] e]; cbn [step] in Hstep.
  - unfold main_step in Hstep. unfold started in *.
    destruct (main_pc s); try done; case_hyp Hstep; by simplify_eq.
  - case_hyp Hstep; by simplify_eq.
  - case_hyp Hstep; by simplify_eq.
Qed.

Lemma step_live t s s' evs :
  Live s -> step cfg v file (t, env_ok) s = Some (s', evs) -> Live s'.
Proof.
  intros [Hpc Hnf Hdone] Hstep. destruct t as [|rid|cid]; cbn [step] in Hstep.
  - unfold main_step, get_file_size in Hstep.
    cbn [fopen_ok create_ok env_ok negb] in Hstep.
    destruct s as [pc q h c rs cs].
    cbn [main_pc queue global_hash_xor crc readers consumers] in *.
    destruct pc as [|i|i| |i| |how]; case_hyp Hstep; simplify_eq;
      constructor; unfold started in *;
      cbn [main_pc queue readers_handled] in *; queue_simpl;
      try done; try (intros; lia); try (intros _ _; by apply Hdone).
    + intros _. reflect_bools.
      assert (u64 (Z.of_nat (length file)) = 0) as H0 by done.
      unfold u64 in H0. rewrite Z.mod_small in H0 by lia.
      by destruct file.
  - destruct (readers s !! rid) as [r|] eqn:Hr; [|done].
    destruct (reader_step cfg v file rid env_ok r (queue s))
      as [[[r' q'] evs']|] eqn:Hrs; [|done].
    simplify_eq. constructor; cbn [main_pc queue]; try done.
    intros Hst Hh. specialize (Hdone Hst Hh).
    unfold reader_step, reserve_next_block, enqueue_locked, enqueue_post,
      mark_reader_done, sem_wait in Hrs.
    cbn [fopen_ok malloc_ok malloc2_ok fseek_ok env_ok negb] in Hrs.
    destruct (queue s) as [ns cnt es fs rd ar tb nb fz].
    destruct (r_pc r); case_hyp Hrs; simplify_eq; queue_simpl;
      reflect_bools; try done; lia.
  - destruct (consumers s !! cid) as [c|] eqn:Hc; [|done].
    destruct (consumer_step v cid c (queue s) (global_hash_xor s) (crc s))
      as [[[[[c' q'] h'] cs'] evs']|] eqn:Hcs; [|done].
    simplify_eq. constructor; cbn [main_pc queue]; try done.
    intros Hst Hh. specialize (Hdone Hst Hh).
    unfold consumer_step, dequeue_locked, dequeue_post, process_buffer_data,
      sem_wait in Hcs.
    destruct (queue s) as [ns cnt es fs rd ar tb nb fz].
    destruct c; case_hyp Hcs; simplify_eq; queue_simpl; done.
Qed.

Lemma drained_rank_range c : 0 <= drained_rank c <= 3.
Proof. destruct c; cbn; lia. Qed.

Lemma busy_rank_nonneg c : 0 <= busy_rank c.
Proof. destruct c; cbn; lia. Qed.

Lemma reader_rank_nonneg r : 0 <= reader_rank r.
Proof. unfold reader_rank. destruct (r_pc r); lia. Qed.

Lemma sum_with_scale {A} (f : A -> Z) k l :
  (forall x, f x <= k) -> sum_with f l <= k * Z.of_nat (length l).
Proof.
  intros Hf. induction l as [|y l IH]; [cbn; lia|].
  rewrite sum_with_cons. cbn [length]. specialize (Hf y). lia.
Qed.

Lemma consumers_bound s tr :
  Inv s tr -> Live s -> started s ->
  Z.of_nat (length (consumers s)) <= Z.of_nat (NUM_CONSUMERS cfg).
Proof.
  intros HI HL Hst.
  destruct (consumers_handled cfg (main_pc s)) as [i|] eqn:Hi.
  - destruct (inv_consumers _ _ _ _ _ _ _ _ HI i Hi). lia.
  - unfold started in Hst. destruct HL as [Hpc _ _].
    by destruct (main_pc s) as [| | | | | |[]].
Qed.

(** What the proofs below use of a state: the claimed blocks and the queue
    are within bounds. *)
Lemma backlog_facts s tr :
  Inv s tr -> Live s -> started s ->
  0 <= T - next_block (queue s)
  /\ 0 <= count (queue s)
  /\ 0 <= sum_with reader_rank (readers s)
  /\ 0 <= sum_with busy_rank (consumers s)
  /\ 0 <= sum_with drained_rank (consumers s)
     <= 3 * Z.of_nat (NUM_CONSUMERS cfg).
Proof.
  intros HI HL Hst.
  destruct (inv_partition _ _ _ _ _ _ _ _ HI Hst) as (_ & _ & Hnb).
  destruct (inv_chain _ _ _ _ _ _ _ _ HI Hst) as [Hc _].
  pose proof (consumers_bound s tr HI HL Hst).
  pose proof (sum_with_scale drained_rank 3 (consumers s)
                (fun c => proj2 (drained_rank_range c))).
  pose proof (sum_with_nonneg drained_rank (consumers s)
                (fun c => proj1 (drained_rank_range c))).
  pose proof (sum_with_nonneg busy_rank (consumers s) busy_rank_nonneg).
  pose proof (sum_with_nonneg reader_rank (readers s) reader_rank_nonneg).
  split_and!; lia.
Qed.

Lemma measure_nonneg s tr :
  Inv s tr -> Live s -> started s -> 0 <= measure s.
Proof.
  intros HI HL Hst.
  destruct (backlog_facts s tr HI HL Hst) as (? & ? & ? & ? & ? & ?).
  unfold Accounting.measure, backlog.
  assert (0 <= main_rank cfg (main_pc s)).
  { unfold main_rank. destruct (main_pc s); lia. }
  destruct (drained (queue s)); lia.
Qed.

Lemma main_step_decreases s tr s' evs :
  Inv s tr -> Live s -> started s ->
  main_step cfg v file env_ok s = Some (s', evs) ->
  measure s' < measure s.
Proof.
  intros HI HL Hst Hstep.
  destruct (backlog_facts s tr HI HL Hst) as (HT & Hcnt & Hrr & Hbr & Hdr).
  destruct s as [pc q h c rs cs]. unfold main_step in Hstep.
  cbn [main_pc queue global_hash_xor crc readers consumers
       create_ok env_ok] in *.
  destruct pc as [|i|i| |i| |how]; [done| | | | | |done].
  - assert (Hrd : reading_done q = 0).
    { apply (reading_before_done cfg v file q0 h0 c0 _ tr HI); [done|by right]. }
    case_hyp Hstep; simplify_eq; rank_simpl; rewrite Hrd;
      cbn [Z.eqb negb andb]; reflect_bools; lia.
  - destruct (i <? NUM_READERS cfg)%nat eqn:Hi; simplify_eq; rank_simpl.
    + assert (Hrd : reading_done q = 0).
      { reflect_bools.
        apply (reading_before_done cfg v file q0 h0 c0 _ tr HI); [done|].
        destruct (inv_readers _ _ _ _ _ _ _ _ HI i eq_refl) as (_ & _ & Ha & _).
        cbn [queue readers] in Ha. left. cbn [queue].
        pose proof (sum_with_nonneg alive rs alive_nonneg). lia. }
      rewrite Hrd; cbn [Z.eqb negb andb]; reflect_bools; lia.
    + reflect_bools. split_eqb_all; lia.
  - case_hyp Hstep; simplify_eq; rank_simpl; split_eqb_all; lia.
  - case_hyp Hstep; simplify_eq; rank_simpl; reflect_bools; split_eqb_all; lia.
  - case_hyp Hstep; simplify_eq; rank_simpl; split_eqb_all; lia.
Qed.

Lemma reader_step_decreases rid s tr r r' q' evs :
  Inv s tr -> Live s ->
  readers s !! rid = Some r ->
  reader_step cfg v file rid env_ok r (queue s) = Some (r', q', evs) ->
  measure (mk_state (main_pc s) q' (global_hash_xor s) (crc s)
             (<[rid := r']> (readers s)) (consumers s))
  < measure s.
Proof.
  intros HI HL Hlook Hstep.
  assert (Hst : started s).
  { destruct (started_dec s) as [|Hn]; [done|].
    destruct (inv_idle _ _ _ _ _ _ _ _ HI Hn) as (Hr & _).
    by rewrite Hr in Hlook. }
  assert (Halive : alive r = 1).
  { unfold alive, reader_gone. unfold reader_step in Hstep.
    by destruct (r_pc r). }
  assert (Hrd : reading_done (queue s) = 0).
  { apply (reading_before_done cfg v file q0 h0 c0 _ tr HI Hst).
    destruct (readers_handled cfg (main_pc s)) as [i|] eqn:Hi; [left|by right].
    destruct (inv_readers _ _ _ _ _ _ _ _ HI i Hi) as (_ & _ & Ha & _).
    pose proof (sum_with_lookup_le alive _ _ _ alive_nonneg Hlook). lia. }
  destruct (backlog_facts s tr HI HL Hst) as (HT & Hcnt & Hrr & Hbr & Hdr).
  destruct (inv_partition _ _ _ _ _ _ _ _ HI Hst) as (_ & Htb & Hnb).
  pose proof (sum_with_insert reader_rank _ _ _ r' Hlook) as Hins.
  pose proof (u64_next cfg file HBS Hfit (next_block (queue s))) as Hnext.
  destruct s as [pc q h c rs cs].
  cbn [main_pc queue global_hash_xor crc readers consumers] in *.
  unfold reader_step, reserve_next_block, enqueue_locked, enqueue_post,
    mark_reader_done, sem_wait in Hstep.
  cbn [fopen_ok malloc_ok malloc2_ok fseek_ok env_ok negb] in Hstep.
  destruct r as [rpc tb]. cbn [r_pc Pipeline.total_bytes] in *.
  destruct rpc; case_hyp Hstep; simplify_eq;
    cbn [reader_rank r_pc] in Hins;
    rank_simpl; rewrite ?Hins, ?Hrd; cbn [Z.eqb negb andb];
    reflect_bools; try rewrite Hnext by lia;
    split_eqb_all; lia.
Qed.

Lemma consumer_step_decreases cid s tr c c' q' h' cs' evs :
  Inv s tr -> Live s ->
  consumers s !! cid = Some c ->
  ~ reposting (ConsumerT cid) s ->
  consumer_step v cid c (queue s) (global_hash_xor s) (crc s)
  = Some (c', q', h', cs', evs) ->
  measure (mk_state (main_pc s) q' h' cs' (readers s)
             (<[cid := c']> (consumers s)))
  < measure s.
Proof.
  intros HI HL Hlook Hgood Hstep.
  assert (Hst : started s).
  { destruct (started_dec s) as [|Hn]; [done|].
    destruct (inv_idle _ _ _ _ _ _ _ _ HI Hn) as (_ & Hr & _).
    by rewrite Hr in Hlook. }
  destruct (backlog_facts s tr HI HL Hst) as (HT & Hcnt & Hrr & Hbr & Hdr).
  pose proof (sum_with_insert busy_rank _ _ _ c' Hlook) as Hins1.
  pose proof (sum_with_insert drained_rank _ _ _ c' Hlook) as Hins2.
  pose proof (sum_with_scale drained_rank 3 (<[cid := c']> (consumers s))
                (fun c => proj2 (drained_rank_range c))) as Hsc.
  rewrite length_insert in Hsc.
  pose proof (consumers_bound s tr HI HL Hst) as Hlen.
  unfold reposting in Hgood. rewrite Hlook in Hgood.
  destruct s as [pc q h cst rs cs].
  cbn [main_pc queue global_hash_xor crc readers consumers] in *.
  unfold consumer_step, dequeue_locked, dequeue_post, process_buffer_data,
    crc64_compute, crc64_update, sem_wait, drained in Hstep, Hgood.
  destruct c; case_hyp Hstep; simplify_eq;
    cbn [busy_rank drained_rank fst snd] in *;
    revert Hgood; rank_simpl; rewrite ?Hins1, ?Hins2; reflect_bools;
    split_eqb_all; intros Hgood; try lia;
    try (exfalso; apply Hgood; by repeat split).
Qed.

(** The facts about a state of a run without failures. *)
Local Abbreviation Good :=
  (fun s tr => Inv s tr /\ Clean s /\ Acct s /\ Live s).

Lemma step_good t s tr s' evs :
  Good s tr -> step cfg v file (t, env_ok) s = Some (s', evs) ->
  Good s' (tr ++ evs).
Proof.
  intros (HI & HC & HA & HL) Hstep. split_and!.
  - by eapply step_inv.
  - by eapply (step_clean cfg v file q0 h0 c0).
  - eapply (step_acct cfg v file q0 h0 c0); try done. lia.
  - by eapply step_live.
Qed.

Local Abbreviation progress :=
  (fun t s => exists s' evs,
     step cfg v file (t, env_ok) s = Some (s', evs) /\ measure s' < measure s).

Lemma main_progress s tr :
  Good s tr -> started s ->
  match main_pc s with
  | MJoinReaders => forallb reader_gone (readers s) = true
  | MJoinConsumers => forallb consumer_gone (consumers s) = true
  | MReturned _ => False
  | _ => True
  end ->
  progress Main s.
Proof.
  intros (HI & _ & _ & HL) Hst Hpc.
  destruct (main_runnable cfg v file s Hpc) as [[s' evs] Hstep].
  exists s', evs. split; [done|]. cbn [step] in Hstep.
  by eapply main_step_decreases.
Qed.

Lemma reader_progress s tr rid r :
  Good s tr ->
  readers s !! rid = Some r ->
  match r_pc r with
  | RExited | RAbsent => False
  | REnqueueWait _ => 0 < empty_slots (queue s)
  | _ => True
  end ->
  progress (ReaderT rid) s.
Proof.
  intros (HI & _ & _ & HL) Hlook Hpc.
  destruct (reader_runnable cfg v file s rid r Hlook Hpc) as [[s' evs] Hstep].
  exists s', evs. split; [done|]. cbn [step] in Hstep. rewrite Hlook in Hstep.
  destruct (reader_step cfg v file rid env_ok r (queue s))
    as [[[r' q'] evs']|] eqn:Hrs; [|done].
  simplify_eq. by eapply reader_step_decreases.
Qed.

Lemma consumer_progress s tr cid c :
  Good s tr ->
  consumers s !! cid = Some c ->
  match c with
  | CExited => False
  | CWait => 0 < full_slots (queue s)
  | CLocked =>
      (count (queue s) = 0 \/ nodes (queue s) <> [])
      /\ (count (queue s) <> 0 \/ drained (queue s) = true)
  | _ => True
  end ->
  progress (ConsumerT cid) s.
Proof.
  intros (HI & _ & _ & HL) Hlook Hc.
  destruct (consumer_runnable cfg v file s cid c Hlook) as [[s' evs] Hstep].
  { destruct c; tauto. }
  exists s', evs. split; [done|]. cbn [step] in Hstep. rewrite Hlook in Hstep.
  destruct (consumer_step v cid c (queue s) (global_hash_xor s) (crc s))
    as [[[[[c' q'] h'] cs'] evs']|] eqn:Hcs; [|done].
  simplify_eq. eapply consumer_step_decreases; try done.
  unfold reposting. rewrite Hlook. intros (Heq & H0 & Hd). simplify_eq.
  destruct Hc as [_ [?|?]]; congruence.
Qed.

(** A consumer that holds a signal can go on when the queue has a node or is
    drained. *)
Lemma signal_progress s tr :
  Good s tr -> started s ->
  count (queue s) <> 0 \/ drained (queue s) = true ->
  0 < sum_with consumer_signal (consumers s) ->
  exists t, progress t s.
Proof.
  intros HG Hst Hq H. pose proof HG as (HI & _).
  apply sum_with_pos in H as (i & c & Hi & Hc).
  exists (ConsumerT i). apply (consumer_progress s tr i c HG Hi).
  destruct c; cbn in Hc; try done; try lia.
  split; [|done].
  destruct (inv_chain _ _ _ _ _ _ _ _ HI Hst) as [Hcount _].
  destruct (nodes (queue s)); cbn [length] in Hcount; [left; lia|by right].
Qed.

Lemma not_all_gone {A} (gone : A -> bool) l :
  forallb gone l = false -> exists i x, l !! i = Some x /\ gone x = false.
Proof.
  induction l as [|y l IH]; [done|]. cbn [forallb].
  destruct (gone y) eqn:Hy; cbn [andb].
  - intros (i & x & Hi & Hx)%IH. by exists (S i), x.
  - intros _. by exists 0%nat, y.
Qed.

(** Once the readers are joined, [reading_done] is set and no reader is
    counted. *)
Lemma readers_over s tr :
  Good s tr -> started s -> readers_joined (main_pc s) ->
  reading_done (queue s) = 1 /\ active_readers (queue s) = 0
  /\ sum_with reader_signal (readers s) = 0.
Proof.
  intros (HI & _ & _ & HL) Hst Hj.
  pose proof (inv_joined_readers _ _ _ _ _ _ _ _ HI Hj) as Hjr.
  assert (Hh : readers_handled cfg (main_pc s) = Some (NUM_READERS cfg)).
  { by destruct (main_pc s) as [| | | | | |[]]. }
  destruct (inv_readers _ _ _ _ _ _ _ _ HI _ Hh) as (_ & _ & Hact & _).
  assert (Hsums : sum_with alive (readers s) = 0
                  /\ sum_with reader_signal (readers s) = 0).
  { clear -Hjr. induction Hjr as [|r rs Hr _ [IH1 IH2]]; [done|].
    rewrite !sum_with_cons, IH1, IH2.
    unfold alive, reader_signal, reader_gone in *.
    by destruct (r_pc r). }
  destruct Hsums as [Ha Hs]. rewrite Ha, Nat.sub_diag in Hact.
  destruct (live_done _ _ _ HL Hst) as [?|?]; [by rewrite Hh| |]; lia.
Qed.

(** In a state of a run without failures that has not reported yet, some
    thread can take a step that lowers the measure. *)
Lemma some_progress s tr :
  Good s tr -> started s -> main_pc s <> MReturned Reported ->
  exists t, progress t s.
Proof.
  intros HG Hst Hnrep. pose proof HG as (HI & HC & [Hemp Hfull Hslots Hsig] & HL).
  specialize (Hemp Hst). specialize (Hfull Hst). specialize (Hslots Hst).
  specialize (Hsig Hst).
  pose proof (sum_with_nonneg reader_slot (readers s)
                (fun r => proj1 (reader_slot_range r))) as Hn1.
  pose proof (sum_with_nonneg reader_signal (readers s)
                (fun r => proj1 (reader_signal_range r))) as Hn2.
  pose proof (sum_with_nonneg consumer_slot (consumers s)
                (fun c => proj1 (consumer_slot_range c))) as Hn3.
  pose proof (sum_with_nonneg consumer_signal (consumers s)
                (fun c => proj1 (consumer_signal_range c))) as Hn4.
  destruct (inv_chain _ _ _ _ _ _ _ _ HI Hst) as [Hch _].
  destruct (main_pc s) as [|i|i| |i| |how] eqn:Hpc;
    try (exists Main; apply (main_progress s tr HG Hst); by rewrite Hpc).
  - (* the orchestrator waits for the readers *)
    cbn [wakeups] in Hsig.
    destruct (forallb reader_gone (readers s)) eqn:Hgone.
    { exists Main. apply (main_progress s tr HG Hst). by rewrite Hpc. }
    apply not_all_gone in Hgone as (rid & r & Hr & Hg).
    destruct (decide (0 < empty_slots (queue s))) as [Hslot|Hfullq].
    { exists (ReaderT rid). apply (reader_progress s tr rid r HG Hr).
      unfold reader_gone in Hg. by destruct (r_pc r). }
    destruct (r_pc r) eqn:Hrpc;
      try (exists (ReaderT rid); apply (reader_progress s tr rid r HG Hr);
           by rewrite Hrpc);
      try (unfold reader_gone in Hg; rewrite Hrpc in Hg; done).
    (* no slot is free *)
    destruct (decide (0 < sum_with reader_slot (readers s)
                      \/ 0 < sum_with reader_signal (readers s)))
      as [[H|H]|Hnrs].
    1,2: apply sum_with_pos in H as (i & r1 & Hi & Hr1);
      exists (ReaderT i); apply (reader_progress s tr i r1 HG Hi);
      unfold reader_slot, reader_signal in Hr1;
      destruct (r_pc r1); try done; lia.
    destruct (decide (0 < sum_with consumer_slot (consumers s))) as [H|Hncs].
    { apply sum_with_pos in H as (i & c & Hi & Hc).
      exists (ConsumerT i). apply (consumer_progress s tr i c HG Hi).
      destruct c; cbn in Hc; try done; lia. }
    assert (Hcount : 1 <= count (queue s)) by lia.
    destruct (decide (0 < sum_with consumer_signal (consumers s))) as [H|Hnsig].
    { apply (signal_progress s tr HG Hst); [left; lia|done]. }
    assert (Hkept : kept_signals s = 0).
    { unfold kept_signals, drained.
      destruct (Z.eqb_spec (count (queue s)) 0); [lia|].
      by rewrite andb_false_r. }
    destruct (inv_consumers _ _ _ _ _ _ _ _ HI (NUM_CONSUMERS cfg))
      as [Hlen _]; [by rewrite Hpc|].
    destruct (lookup_lt_is_Some_2 (consumers s) 0) as [c Hc]; [lia|].
    exists (ConsumerT 0). apply (consumer_progress s tr 0 c HG Hc).
    destruct c; try done; try lia.
    + split; [|left; lia].
      destruct (nodes (queue s)); cbn [length] in Hch; [lia|by right].
    + destruct (inv_exited _ _ _ _ _ _ _ _ HI Hst) as [_ H0];
        [by exists 0%nat|]. lia.
  - (* the orchestrator waits for the consumers *)
    cbn [wakeups] in Hsig.
    destruct (readers_over s tr HG Hst) as (Hrd & Hact & Hsr);
      [by rewrite Hpc|].
    assert (Hdr : count (queue s) <> 0 \/ drained (queue s) = true).
    { unfold drained. rewrite Hrd, Hact.
      destruct (Z.eqb_spec (count (queue s)) 0); [by right|by left]. }
    destruct (forallb consumer_gone (consumers s)) eqn:Hgone.
    { exists Main. apply (main_progress s tr HG Hst). by rewrite Hpc. }
    apply not_all_gone in Hgone as (cid & c & Hc & Hg).
    destruct (decide (0 < sum_with consumer_signal (consumers s))) as [H|Hnsig].
    { by apply (signal_progress s tr HG Hst). }
    destruct (decide (0 < full_slots (queue s))) as [Hsignal|Hnone].
    { exists (ConsumerT cid). apply (consumer_progress s tr cid c HG Hc).
      destruct c; try done.
      pose proof (sum_with_lookup_le consumer_signal _ _ _
                    (fun c => proj1 (consumer_signal_range c)) Hc) as Hle.
      cbn in Hle. lia. }
    destruct c; try done;
      try (exists (ConsumerT cid);
           by apply (consumer_progress s tr cid _ HG Hc));
      try (pose proof (sum_with_lookup_le consumer_signal _ _ _
                         (fun c => proj1 (consumer_signal_range c)) Hc) as Hle;
           cbn in Hle; lia).
    (* all signals are gone: more were kept than there are consumers *)
    exfalso.
    destruct (inv_consumers _ _ _ _ _ _ _ _ HI (NUM_CONSUMERS cfg))
      as [Hlen _]; [by rewrite Hpc|].
    pose proof (sum_with_lt_length leaving (consumers s) cid CWait
                  leaving_range Hc eq_refl) as Hlt.
    unfold kept_signals in Hsig.
    destruct (drained (queue s)); lia.
  - (* no error return in a run without failures *)
    destruct how; [| |done].
    + unfold started in Hst. by rewrite Hpc in Hst.
    + by destruct (live_consumers _ _ _ HL).
Qed.

Lemma exec_good sched s tr :
  failure_free sched ->
  exec cfg v file sched (entry_state q0 h0 c0) = Some (s, tr) ->
  Good s tr.
Proof.
  revert s tr. induction sched as [|a sched IH] using rev_ind;
    intros s tr Hff Hex.
  - cbn in Hex. simplify_eq. split_and!.
    + by apply entry_inv.
    + apply entry_clean.
    + constructor; by intros [].
    + constructor; [done|done|by intros []].
  - apply Forall_app in Hff as [Hff Ha].
    apply exec_snoc in Hex as (s1 & tr1 & tr2 & Hex1 & Hs & ->).
    destruct a as [t e]. rewrite Forall_singleton in Ha.
    change (e = env_ok) in Ha. subst e.
    eapply step_good; [|done]. by apply IH.
Qed.

(** From a state of a run without failures, at most [measure] further
    steps, none of which fails, lead to the report. *)
Lemma complete_from n s tr :
  Good s tr -> started s -> measure s < Z.of_nat n ->
  exists rest s' tr',
    failure_free rest
    /\ exec cfg v file rest s = Some (s', tr')
    /\ main_pc s' = MReturned Reported
    /\ Z.of_nat (length rest) <= measure s.
Proof.
  revert s tr. induction n as [|n IH]; intros s tr HG Hst Hm.
  { destruct HG as (HI & _ & _ & HL).
    pose proof (measure_nonneg s tr HI HL Hst). lia. }
  assert (main_pc s = MReturned Reported \/ main_pc s <> MReturned Reported)
    as [Hrep|Hnrep]
    by (destruct (main_pc s) as [| | | | | |[]]; (by left) || (by right)).
  { exists [], s, []. split_and!; [by constructor|done|done|].
    destruct HG as (HI & _ & _ & HL).
    cbn [length]. by apply (measure_nonneg s tr). }
  destruct (some_progress s tr HG Hst Hnrep) as (t & s1 & evs & Hstep & Hlt).
  destruct (IH s1 (tr ++ evs)) as (rest & s' & tr' & Hff & Hex & Hpc & Hlen).
  { by eapply step_good. }
  { by eapply step_started. }
  { lia. }
  exists ((t, env_ok) :: rest), s', (evs ++ tr'). split_and!.
  - by constructor.
  - by eapply exec_cons_eq.
  - done.
  - cbn [length]. lia.
Qed.

(** The first step of the orchestrator on a file that is not empty. *)
Lemma entry_step s tr :
  Good s tr -> main_pc s = MStart ->
  exists s1 evs,
    step cfg v file (Main, env_ok) s = Some (s1, evs) /\ started s1.
Proof.
  intros HG Hpc. cbn [step]. unfold main_step. rewrite Hpc.
  destruct (get_file_size v env_ok file) as [[fsize|] evs] eqn:Hsize.
  - eexists _, _. split; [done|]. by unfold started.
  - exfalso. unfold get_file_size in Hsize.
    cbn [fopen_ok env_ok negb] in Hsize. case_hyp Hsize; simplify_eq.
    reflect_bools.
    assert (Hz : u64 (Z.of_nat (length file)) = 0) by done.
    unfold u64 in Hz. rewrite Z.mod_small in Hz by lia.
    destruct file; [done|]. cbn [length] in Hz. lia.
Qed.

Lemma complete_run sched s tr :
  failure_free sched ->
  exec cfg v file sched (entry_state q0 h0 c0) = Some (s, tr) ->
  exists rest s' tr',
    failure_free rest
    /\ exec cfg v file rest s = Some (s', tr')
    /\ main_pc s' = MReturned Reported.
Proof.
  intros Hff Hex. pose proof (exec_good _ _ _ Hff Hex) as HG.
  assert (main_pc s = MStart \/ main_pc s <> MStart) as [Hpc|Hpc]
    by (destruct (main_pc s); (by left) || (by right)).
  - destruct (entry_step s tr HG Hpc) as (s1 & evs & Hstep & Hst).
    destruct (complete_from (S (Z.to_nat (measure s1))) s1 (tr ++ evs))
      as (rest & s' & tr' & Hff' & Hex' & Hrep & _);
      [exact (step_good Main s tr s1 evs HG Hstep)|done|lia|].
    exists ((Main, env_ok) :: rest), s', (evs ++ tr'). split_and!.
    + by constructor.
    + by eapply exec_cons_eq.
    + done.
  - assert (Hst : started s).
    { destruct HG as (_ & _ & _ & HL). unfold started.
      destruct (main_pc s) as [| | | | | |[]] eqn:E; try done.
      by apply (live_file _ _ _ HL) in E. }
    destruct (complete_from (S (Z.to_nat (measure s))) s tr)
      as (rest & s' & tr' & Hff' & Hex' & Hrep & _); [done|done|lia|].
    by exists rest, s', tr'.
Qed.

End Completion.

Section CompletionClaims.
Import Accounting Strategies.

(** X15.  A run without failures never gets stuck: on a file that is not
    empty, with at least one reader, one consumer and one slot in the queue,
    whatever the threads have done so far there are further steps, none of
    which fails, after which [async_sequential_read] has reported; the hash
    it reports is the XOR of the digests of all blocks. *)
Theorem failure_free_run_can_complete cfg v file q0 h0 c0 sched s tr :
  0 < BLOCK_SIZE cfg ->
  Z.of_nat (length file) + BLOCK_SIZE cfg <= 2 ^ 64 ->
  crc_wf c0 ->
  1 <= MAX_QUEUE_SIZE cfg ->
  (1 <= NUM_READERS cfg)%nat ->
  (1 <= NUM_CONSUMERS cfg)%nat ->
  file <> [] ->
  failure_free sched ->
  exec cfg v file sched (entry_state q0 h0 c0) = Some (s, tr) ->
  exists rest s' tr',
    failure_free rest
    /\ exec cfg v file rest s = Some (s', tr')
    /\ main_pc s' = MReturned Reported
    /\ global_hash_xor s' = blocks_digest cfg file (Z.to_nat (T cfg file))
    /\ reported_hashes (tr ++ tr')
       = if 1 <=? v then [blocks_digest cfg file (Z.to_nat (T cfg file))]
         else [].
Proof.
  intros HBS Hfit Hc0 Hcap Hnr Hnc Hfile Hff Hex.
  destruct (complete_run cfg v file q0 h0 c0 HBS Hfit Hc0 Hcap Hnr Hnc Hfile
              sched s tr Hff Hex) as (rest & s' & tr' & Hff' & Hex' & Hrep).
  exists rest, s', tr'. split_and!; try done.
  all: pose proof (exec_app_eq _ _ _ _ _ _ _ _ _ _ Hex Hex') as Hall;
    assert (Hffall : failure_free (sched ++ rest)) by (by apply Forall_app);
    by destruct (reported_state cfg v file q0 h0 c0 HBS Hfit Hc0
                   (sched ++ rest) s' (tr ++ tr') Hnc Hffall Hall Hrep)
      as (_ & _ & ? & ?).
Qed.

Lemma failure_free_run_can_complete_witness :
  exists s,
    exec small_config 1 check_bytes
      (replicate 7 (ok Main) ++ replicate 8 (ok (ReaderT 0)))
      (fresh_state small_config)
    = Some (s, [Reserved 0 (Some 0); Reserved 0 (Some 1)])
    /\ exists rest s' tr',
         failure_free rest
         /\ exec small_config 1 check_bytes rest s = Some (s', tr')
         /\ main_pc s' = MReturned Reported
         /\ global_hash_xor s'
            = blocks_digest small_config check_bytes
                (Z.to_nat (T small_config check_bytes))
         /\ reported_hashes
              ([Reserved 0 (Some 0); Reserved 0 (Some 1)] ++ tr')
            = if 1 <=? 1
              then [blocks_digest small_config check_bytes
                      (Z.to_nat (T small_config check_bytes))]
              else [].
Proof.
  eexists. split; [vm_compute; reflexivity|].
  refine (failure_free_run_can_complete small_config 1 check_bytes
            (init_buffer_queue small_config) 0 crc_static
            (replicate 7 (ok Main) ++ replicate 8 (ok (ReaderT 0)))
            _ [Reserved 0 (Some 0); Reserved 0 (Some 1)]
            _ _ _ _ _ _ _ _ _).
  - reflexivity.
  - vm_compute. discriminate.
  - apply crc_static_wf.
  - vm_compute. discriminate.
  - vm_compute. lia.
  - vm_compute. lia.
  - discriminate.
  - unfold failure_free. cbn [replicate app]. repeat constructor.
  - vm_compute. reflexivity.
Defined.

End CompletionClaims.

(** ** The pipeline: how it ends *)

Section PipelineEnd.
Import Accounting.

Lemma sum_with_gone {A} (f : A -> Z) (gone : A -> bool) l :
  (forall x, gone x = true -> f x = 0) ->
  Forall (fun x => gone x = true) l -> sum_with f l = 0.
Proof.
  intros Hf Hall. induction Hall as [|x l Hx _ IH]; [done|].
  by rewrite sum_with_cons, IH, (Hf x Hx).
Qed.

Lemma alive_none rs :
  sum_with alive rs = 0 -> Forall (fun r => reader_gone r = true) rs.
Proof.
  induction rs as [|r rs IH]; [by constructor|].
  rewrite sum_with_cons. intros Hsum.
  pose proof (sum_with_nonneg alive rs) as Hn.
  assert (Hr : forall r, 0 <= alive r)
    by (intros r'; unfold alive; destruct (reader_gone r'); lia).
  specialize (Hn Hr). specialize (Hr r).
  constructor; [|apply IH; lia].
  unfold alive in *. destruct (reader_gone r); [done|lia].
Qed.

(** X16.  In every run, with or without failed calls, a consumer has left
    its loop only when [reading_done] is set, the orchestrator has gone
    through all [NUM_READERS] creations, no reader is running any more, and
    the queue is empty; without failed calls every block has been claimed
    by then. *)
Theorem consumer_leaves_only_when_drained cfg v file q0 h0 c0 sched s tr cid :
  0 < BLOCK_SIZE cfg ->
  Z.of_nat (length file) + BLOCK_SIZE cfg <= 2 ^ 64 ->
  crc_wf c0 ->
  exec cfg v file sched (entry_state q0 h0 c0) = Some (s, tr) ->
  consumers s !! cid = Some CExited ->
  reading_done (queue s) = 1
  /\ active_readers (queue s) = 0
  /\ nodes (queue s) = []
  /\ length (readers s) = NUM_READERS cfg
  /\ Forall (fun r => reader_gone r = true) (readers s)
  /\ (failure_free sched -> next_block (queue s) = T cfg file).
Proof.
  intros HBS Hfit Hc0 Hex Hc.
  pose proof (exec_inv cfg v file q0 h0 c0 HBS Hfit Hc0 _ _ _ Hex) as HI.
  assert (Hst : started s).
  { assert (started s \/ ~ started s) as [?|Hn]; [|done|].
    { unfold started. destruct (main_pc s) as [| | | | | |[]]; tauto. }
    destruct (inv_idle _ _ _ _ _ _ _ _ HI Hn) as (_ & Hcs & _).
    by rewrite Hcs in Hc. }
  destruct (inv_exited _ _ _ _ _ _ _ _ HI Hst) as [Hrd Hcnt];
    [by exists cid|].
  destruct (inv_chain _ _ _ _ _ _ _ _ HI Hst) as [Hch _].
  assert (Hnodes : nodes (queue s) = []).
  { destruct (nodes (queue s)); [done|]. cbn [length] in Hch. lia. }
  destruct (readers_handled cfg (main_pc s)) as [i|] eqn:Hh.
  - destruct (inv_readers _ _ _ _ _ _ _ _ HI i Hh)
      as (Hlen & Hi & Hact & Hdone).
    assert (Ha : active_readers (queue s) = 0) by lia.
    pose proof (sum_with_nonneg alive (readers s)) as Hn.
    assert (Hr : forall r, 0 <= alive r)
      by (intros r'; unfold alive; destruct (reader_gone r'); lia).
    specialize (Hn Hr).
    split_and!; try done.
    + lia.
    + apply alive_none. lia.
    + intros Hff.
      destruct (exec_clean cfg v file q0 h0 c0 HBS Hfit Hc0 _ _ _ Hff Hex)
        as [_ HC].
      by apply (clean_done _ _ _ HC Hst).
  - destruct (inv_no_readers _ _ _ _ _ _ _ _ HI Hst Hh) as [_ H0]. lia.
Qed.

Lemma consumer_leaves_only_when_drained_witness :
  exists s tr,
    exec small_config 1 check_bytes
      (sequential_schedule small_config 3) (fresh_state small_config)
    = Some (s, tr)
    /\ consumers s !! 0%nat = Some CExited
    /\ reading_done (queue s) = 1
    /\ nodes (queue s) = [].
Proof.
  eexists _, _. split; [vm_compute; reflexivity|].
  split; [reflexivity|].
  refine ((fun H => conj (proj1 H) (proj1 (proj2 (proj2 H))))
            (consumer_leaves_only_when_drained small_config 1 check_bytes
               (init_buffer_queue small_config) 0 crc_static
               (sequential_schedule small_config 3) _ _ 0%nat _ _ _ _ _)).
  - reflexivity.
  - vm_compute. discriminate.
  - apply crc_static_wf.
  - vm_compute. reflexivity.
  - reflexivity.
Defined.

(** X17.  When [async_sequential_read] reports, in every run with at least
    one consumer, no node is left in the queue, so that the loop of
    [cleanup_buffer_queue] has nothing to free, and every slot of
    [empty_slots] has been given back. *)
Theorem report_leaves_queue_empty cfg v file q0 h0 c0 sched s tr :
  0 < BLOCK_SIZE cfg ->
  Z.of_nat (length file) + BLOCK_SIZE cfg <= 2 ^ 64 ->
  crc_wf c0 ->
  0 <= MAX_QUEUE_SIZE cfg ->
  (1 <= NUM_CONSUMERS cfg)%nat ->
  exec cfg v file sched (entry_state q0 h0 c0) = Some (s, tr) ->
  main_pc s = MReturned Reported ->
  nodes (queue s) = []
  /\ count (queue s) = 0
  /\ empty_slots (queue s) = MAX_QUEUE_SIZE cfg.
Proof.
  intros HBS Hfit Hc0 Hcap Hnc Hex Hpc.
  pose proof (exec_inv cfg v file q0 h0 c0 HBS Hfit Hc0 _ _ _ Hex) as HI.
  destruct (exec_acct cfg v file q0 h0 c0 HBS Hfit Hc0 Hcap _ _ _ Hex)
    as [_ _ Hslots _].
  assert (Hst : started s) by (unfold started; by rewrite Hpc).
  specialize (Hslots Hst).
  pose proof (inv_joined_consumers _ _ _ _ _ _ _ _ HI Hpc) as Hjc.
  pose proof (inv_joined_readers _ _ _ _ _ _ _ _ HI) as Hjr.
  rewrite Hpc in Hjr. specialize (Hjr I).
  destruct (inv_consumers _ _ _ _ _ _ _ _ HI (NUM_CONSUMERS cfg)) as [Hlen _];
    [by rewrite Hpc|].
  destruct (lookup_lt_is_Some_2 (consumers s) 0) as [c Hc]; [lia|].
  pose proof (Forall_lookup_1 _ _ _ _ Hjc Hc) as ->.
  destruct (inv_exited _ _ _ _ _ _ _ _ HI Hst) as [_ Hcnt]; [by exists 0%nat|].
  destruct (inv_chain _ _ _ _ _ _ _ _ HI Hst) as [Hch _].
  assert (Hrs : sum_with reader_slot (readers s) = 0).
  { apply (sum_with_gone _ reader_gone); [|done].
    intros r. unfold reader_gone, reader_slot. by destruct (r_pc r). }
  assert (Hcs : sum_with consumer_slot (consumers s) = 0).
  { apply (sum_with_gone _ consumer_gone).
    - intros c. by destruct c.
    - eapply Forall_impl; [exact Hjc|]. by intros c ->. }
  split_and!; [|done|lia].
  destruct (nodes (queue s)); [done|]. cbn [length] in Hch. lia.
Qed.

Lemma report_leaves_queue_empty_witness :
  exists s tr,
    exec small_config 1 check_bytes
      (sequential_schedule small_config 3) (fresh_state small_config)
    = Some (s, tr)
    /\ nodes (queue s) = []
    /\ count (queue s) = 0
    /\ empty_slots (queue s) = MAX_QUEUE_SIZE small_config.
Proof.
  eexists _, _. split; [vm_compute; reflexivity|].
  refine (report_leaves_queue_empty small_config 1 check_bytes
            (init_buffer_queue small_config) 0 crc_static
            (sequential_schedule small_config 3) _ _ _ _ _ _ _ _ _).
  - reflexivity.
  - vm_compute. discriminate.
  - apply crc_static_wf.
  - vm_compute. discriminate.
  - vm_compute. lia.
  - vm_compute. reflexivity.
  - reflexivity.
Defined.

End PipelineEnd.

(** ** The pipeline: every byte is read once *)

Section TotalsFacts.
Import Totals.
Context (cfg : Config) (v : Z) (file : list byte).
Context (q0 : BufferQueue) (h0 : Z) (c0 : crc_state).
Hypothesis HBS : 0 < BLOCK_SIZE cfg.
Hypothesis Hfit : Z.of_nat (length file) + BLOCK_SIZE cfg <= 2 ^ 64.
Hypothesis Hc0 : crc_wf c0.

Local Abbreviation Inv := (Inv cfg v file q0 h0 c0).
Local Abbreviation Clean := (Clean cfg file).
Local Abbreviation Bytes := (Bytes cfg v file).
Local Abbreviation T := (T cfg file).

Lemma completed_totals_app tr1 tr2 :
  completed_totals (tr1 ++ tr2) = completed_totals tr1 ++ completed_totals tr2.
Proof. apply omap_app. Qed.

Lemma main_step_no_totals e s s' evs :
  main_step cfg v file e s = Some (s', evs) -> completed_totals evs = [].
Proof.
  unfold main_step, get_file_size, say. intros Hstep.
  destruct (main_pc s); case_hyp Hstep; by simplify_eq.
Qed.

Lemma consumer_step_no_totals cid c q h cs c' q' h' cs' evs :
  consumer_step v cid c q h cs = Some (c', q', h', cs', evs) ->
  completed_totals evs = [] /\ next_block q' = next_block q.
Proof.
  unfold consumer_step, dequeue_locked, dequeue_post, process_buffer_data,
    sem_wait, say.
  intros Hstep. destruct c; case_hyp Hstep; simplify_eq; queue_simpl;
    try done.
Qed.

Lemma claimed_bytes_range q :
  0 <= next_block q -> 0 <= claimed_bytes cfg file q <= Z.of_nat (length file).
Proof. unfold claimed_bytes. nia. Qed.

Lemma read_so_far_nonneg rs :
  Forall (fun r => 0 <= total_bytes r) rs ->
  Forall (fun r => 0 <= read_so_far r) rs.
Proof.
  intros Hall. eapply Forall_impl; [exact Hall|]. intros r Hr. cbn beta in Hr.
  unfold read_so_far, counted_bytes, pending_bytes, bytes_read.
  destruct (r_pc r); lia.
Qed.

Lemma sum_with_part_nonneg {A} (f : A -> Z) l :
  Forall (fun y => 0 <= f y) l -> 0 <= sum_with f l.
Proof.
  induction 1 as [|z l Hz _ IH]; [done|]. rewrite sum_with_cons. lia.
Qed.

Lemma sum_with_lookup_part {A} (f : A -> Z) l i x :
  Forall (fun y => 0 <= f y) l -> l !! i = Some x -> f x <= sum_with f l.
Proof.
  intros Hf. revert i. induction Hf as [|z l Hz Hl IH]; intros i Hi; [done|].
  rewrite sum_with_cons. pose proof (sum_with_part_nonneg f l Hl).
  destruct i as [|i]; cbn in Hi.
  - simplify_eq. lia.
  - specialize (IH i Hi). lia.
Qed.

Lemma say_completed rid t :
  2 <= v ->
  completed_totals (say v 2 (L_reader_completed rid t)) = [t].
Proof.
  intros Hv. unfold say. by destruct (Z.leb_spec 2 v); [|lia].
Qed.

Lemma say_other lvl l :
  match l with L_reader_completed _ _ => False | _ => True end ->
  completed_totals (say v lvl l) = [].
Proof. unfold say. by destruct (lvl <=? v), l. Qed.

Lemma completed_totals_reserved rid b :
  completed_totals [Reserved rid b] = [].
Proof. done. Qed.

Lemma reader_step_bytes rid s tr r r' q' evs :
  Inv s tr -> Clean s -> Bytes s tr ->
  readers s !! rid = Some r ->
  reader_step cfg v file rid env_ok r (queue s) = Some (r', q', evs) ->
  Bytes (mk_state (main_pc s) q' (global_hash_xor s) (crc s)
           (<[rid := r']> (readers s)) (consumers s)) (tr ++ evs).
Proof.
  intros HI HC [Hnn Hcl Hpr] Hlook Hstep.
  assert (Hst : started s).
  { destruct (started_dec s) as [|Hn]; [done|].
    destruct (inv_idle _ _ _ _ _ _ _ _ HI Hn) as (Hr & _).
    by rewrite Hr in Hlook. }
  pose proof (inv_partition _ _ _ _ _ _ _ _ HI Hst) as (Hfs & Htb & Hnb).
  pose proof (F_length cfg file HBS Hfit) as HF.
  specialize (Hcl Hst).
  pose proof (Forall_lookup_1 _ _ _ _ Hnn Hlook) as Hr0.
  pose proof (sum_with_lookup_part read_so_far _ _ _
                (read_so_far_nonneg _ Hnn) Hlook) as Hle.
  pose proof (claimed_bytes_range (queue s) ltac:(lia)) as Hcr.
  pose proof (sum_with_insert read_so_far _ _ _ r' Hlook) as Hins1.
  pose proof (sum_with_insert completed_total _ _ _ r' Hlook) as Hins2.
  pose proof (sum_with_insert has_completed _ _ _ r' Hlook) as Hins3.
  clear HI HC.
  destruct s as [pc q h c rs cs].
  cbn [main_pc queue global_hash_xor crc readers consumers] in *.
  unfold reader_step, reserve_next_block, enqueue_locked, enqueue_post,
    mark_reader_done, sem_wait in Hstep.
  destruct r as [rpc tb]. cbn [r_pc total_bytes] in *.
  unfold started in *. cbn [main_pc] in *.
  cbn [fopen_ok malloc_ok malloc2_ok fseek_ok env_ok negb] in Hstep.
  destruct rpc; case_hyp Hstep; simplify_eq; reflect_bools.
  all: try (pose proof (fread_block cfg file HBS Hfit
                          (with_next_block q (u64 (next_block q + 1)))
                          (next_block q) Hfs ltac:(lia))
              as [Hfr Hne];
            pose proof (T_block cfg file HBS Hfit (next_block q) ltac:(lia))
              as Hin;
            rewrite Hfr in *).
  all: try (by destruct (file_block cfg file _)).
  all: constructor;
    cbn [main_pc queue global_hash_xor crc readers consumers]; queue_simpl.
  all: try (apply Forall_insert; [done|]; cbn [total_bytes];
            (done || lia || apply u64_range)).
  all: try (intros Hv; specialize (Hpr Hv);
            rewrite completed_totals_app, sum_with_app, length_app;
            rewrite ?say_completed by done; rewrite ?say_other by done;
            rewrite ?completed_totals_reserved;
            change (completed_totals []) with (@nil Z);
            rewrite Hins2, Hins3;
            cbn [completed_total has_completed r_pc total_bytes sum_with
                 foldr length id];
            lia).
  all: intros _; rewrite Hins1;
    unfold read_so_far, counted_bytes, pending_bytes, bytes_read,
      claimed_bytes in *;
    cbn [r_pc total_bytes p_buf] in *; queue_simpl;
    rewrite ?u64_small by lia; try lia.
  rewrite Hcl. unfold file_block. rewrite length_take, length_drop. nia.
Qed.

Lemma main_step_bytes s tr s' evs :
  Inv s tr -> Bytes s tr ->
  main_step cfg v file env_ok s = Some (s', evs) -> Bytes s' (tr ++ evs).
Proof.
  intros HI [Hnn Hcl Hpr] Hstep.
  pose proof (main_step_no_totals _ _ _ _ Hstep) as Hev.
  pose proof (inv_idle _ _ _ _ _ _ _ _ HI) as Hidle.
  clear HI.
  unfold main_step, get_file_size in Hstep.
  cbn [fopen_ok create_ok env_ok negb] in Hstep.
  destruct s as [pc q h c rs cs].
  cbn [main_pc queue global_hash_xor crc readers consumers] in *.
  unfold started in *. cbn [main_pc readers] in *.
  destruct pc as [|i|i| |i| |how]; case_hyp Hstep; simplify_eq;
    constructor; cbn [main_pc queue readers];
    try rewrite (completed_totals_app tr), Hev, app_nil_r;
    rewrite ?Forall_app, ?sum_with_app; try done.
  all: try (destruct Hidle as (-> & _); [tauto|]).
  all: try (intros _; unfold claimed_bytes; queue_simpl; cbn; lia).
  - split; [done|]. by constructor.
  - intros _. rewrite Hcl by done.
    change (sum_with read_so_far [mk_reader RStart 0]) with 0. lia.
  - intros Hv. destruct (Hpr Hv) as [-> ->].
    change (sum_with completed_total [mk_reader RStart 0]) with 0.
    change (sum_with has_completed [mk_reader RStart 0]) with 0. lia.
Qed.

Lemma consumer_step_bytes cid s tr c c' q' h' cs' evs :
  Bytes s tr ->
  consumer_step v cid c (queue s) (global_hash_xor s) (crc s)
  = Some (c', q', h', cs', evs) ->
  Bytes (mk_state (main_pc s) q' h' cs' (readers s)
           (<[cid := c']> (consumers s))) (tr ++ evs).
Proof.
  intros [Hnn Hcl Hpr] Hstep.
  apply consumer_step_no_totals in Hstep as [Hev Hnb].
  constructor; cbn [main_pc queue readers];
    rewrite ?completed_totals_app, ?Hev, ?app_nil_r; try done.
  unfold claimed_bytes in *. by rewrite Hnb.
Qed.

Lemma step_bytes t s tr s' evs :
  Inv s tr -> Clean s -> Bytes s tr ->
  step cfg v file (t, env_ok) s = Some (s', evs) -> Bytes s' (tr ++ evs).
Proof.
  intros HI HC HB Hstep. destruct t as [|rid|cid]; cbn [step] in Hstep.
  - by eapply main_step_bytes.
  - destruct (readers s !! rid) as [r|] eqn:Hr; [|done].
    destruct (reader_step cfg v file rid env_ok r (queue s))
      as [[[r' q'] evs']|] eqn:Hrs; [|done].
    simplify_eq. by eapply reader_step_bytes.
  - destruct (consumers s !! cid) as [c|] eqn:Hc; [|done].
    destruct (consumer_step v cid c (queue s) (global_hash_xor s) (crc s))
      as [[[[[c' q'] h'] cs'] evs']|] eqn:Hcs; [|done].
    simplify_eq. by eapply consumer_step_bytes.
Qed.

Lemma exec_bytes sched s tr :
  failure_free sched ->
  exec cfg v file sched (entry_state q0 h0 c0) = Some (s, tr) ->
  Bytes s tr.
Proof.
  revert s tr. induction sched as [|a sched IH] using rev_ind;
    intros s tr Hff Hex.
  - cbn in Hex. simplify_eq. constructor; [by constructor|by intros []|done].
  - apply Forall_app in Hff as [Hff Ha].
    apply exec_snoc in Hex as (s1 & tr1 & tr2 & Hex1 & Hs & ->).
    destruct a as [t e]. rewrite Forall_singleton in Ha.
    change (e = env_ok) in Ha. subst e.
    destruct (exec_clean cfg v file q0 h0 c0 HBS Hfit Hc0 _ _ _ Hff Hex1)
      as [HI HC].
    eapply step_bytes; [done|done| |done]. by apply IH.
Qed.

End TotalsFacts.

Section TotalsClaims.
Import Totals.

Lemma sum_with_ext {A} (f g : A -> Z) l :
  Forall (fun x => f x = g x) l -> sum_with f l = sum_with g l.
Proof.
  induction 1 as [|x l Hx _ IH]; [done|]. by rewrite !sum_with_cons, Hx, IH.
Qed.

Lemma sum_with_one {A} (f : A -> Z) l :
  Forall (fun x => f x = 1) l -> sum_with f l = Z.of_nat (length l).
Proof.
  induction 1 as [|x l Hx _ IH]; [done|].
  rewrite sum_with_cons, Hx, IH. cbn [length]. lia.
Qed.

(** X18.  In a run without failed calls the readers share the file without
    gap or overlap: once they are joined, their byte counts add up to the
    length of the file, and at verbosity 2 each of the [NUM_READERS] readers
    has printed one line "Completed, read ... bytes", the totals of which
    add up to the length of the file. *)
Theorem readers_read_every_byte_once cfg v file q0 h0 c0 sched s tr :
  0 < BLOCK_SIZE cfg ->
  Z.of_nat (length file) + BLOCK_SIZE cfg <= 2 ^ 64 ->
  crc_wf c0 ->
  (1 <= NUM_READERS cfg)%nat ->
  failure_free sched ->
  exec cfg v file sched (entry_state q0 h0 c0) = Some (s, tr) ->
  readers_joined (main_pc s) ->
  sum_with total_bytes (readers s) = Z.of_nat (length file)
  /\ (2 <= v ->
      length (completed_totals tr) = NUM_READERS cfg
      /\ sum_with id (completed_totals tr) = Z.of_nat (length file)).
Proof.
  intros HBS Hfit Hc0 Hnr Hff Hex Hj.
  destruct (exec_clean cfg v file q0 h0 c0 HBS Hfit Hc0 _ _ _ Hff Hex)
    as [HI HC].
  destruct (exec_bytes cfg v file q0 h0 c0 HBS Hfit Hc0 _ _ _ Hff Hex)
    as [_ Hcl Hpr].
  assert (Hst : started s).
  { unfold started. by destruct (main_pc s) as [| | | | | |[]]. }
  assert (Hh : readers_handled cfg (main_pc s) = Some (NUM_READERS cfg)).
  { by destruct (main_pc s) as [| | | | | |[]]. }
  destruct (inv_readers _ _ _ _ _ _ _ _ HI _ Hh) as (Hlen & _).
  pose proof (inv_joined_readers _ _ _ _ _ _ _ _ HI Hj) as Hgone.
  pose proof (clean_readers _ _ _ HC Hst) as Hok.
  assert (Hall : Forall (fun r => r_pc r = RExited
                                  /\ next_block (queue s) = T cfg file)
                   (readers s)).
  { apply Forall_forall. intros r Hr. rewrite Forall_forall in Hgone, Hok.
    specialize (Hgone r Hr). specialize (Hok r Hr).
    unfold reader_gone, reader_ok in *. by destruct (r_pc r). }
  assert (Hnb : next_block (queue s) = T cfg file).
  { destruct (lookup_lt_is_Some_2 (readers s) 0) as [r Hr]; [lia|].
    by destruct (Forall_lookup_1 _ _ _ _ Hall Hr). }
  assert (Hsum : sum_with total_bytes (readers s) = Z.of_nat (length file)).
  { rewrite <- (sum_with_ext read_so_far).
    - rewrite (Hcl Hst). unfold claimed_bytes. rewrite Hnb.
      pose proof (blocks_cover cfg file HBS Hfit). lia.
    - eapply Forall_impl; [exact Hall|]. intros r [Hr _].
      unfold read_so_far, counted_bytes, pending_bytes. rewrite Hr. lia. }
  split; [done|]. intros Hv. destruct (Hpr Hv) as [Hs Hn].
  split.
  - apply Nat2Z.inj. rewrite Hn, <- Hlen. apply sum_with_one.
    eapply Forall_impl; [exact Hall|]. intros r [Hr _].
    unfold has_completed. by rewrite Hr.
  - rewrite Hs, <- Hsum. apply sum_with_ext.
    eapply Forall_impl; [exact Hall|]. intros r [Hr _].
    unfold completed_total. by rewrite Hr.
Qed.

Lemma readers_read_every_byte_once_witness :
  exists s tr,
    exec small_config 2 check_bytes
      (sequential_schedule small_config 3) (fresh_state small_config)
    = Some (s, tr)
    /\ total_bytes <$> readers s = [9; 0]
    /\ completed_totals tr = [9; 0]
    /\ sum_with total_bytes (readers s) = Z.of_nat (length check_bytes)
    /\ (2 <= 2 ->
        length (completed_totals tr) = NUM_READERS small_config
        /\ sum_with id (completed_totals tr)
           = Z.of_nat (length check_bytes)).
Proof.
  eexists _, _. split; [vm_compute; reflexivity|].
  split; [reflexivity|]. split; [reflexivity|].
  refine (readers_read_every_byte_once small_config 2 check_bytes
            (init_buffer_queue small_config) 0 crc_static
            (sequential_schedule small_config 3) _ _ _ _ _ _ _ _ _).
  - reflexivity.
  - vm_compute. discriminate.
  - apply crc_static_wf.
  - vm_compute. lia.
  - apply sequential_schedule_failure_free.
  - vm_compute. reflexivity.
  - exact I.
Defined.

End TotalsClaims.

(** ** The pipeline: every block is folded once *)

Section TallyFacts.
Import Tally.
Context (cfg : Config) (v : Z) (file : list byte).
Context (q0 : BufferQueue) (h0 : Z) (c0 : crc_state).
Hypothesis HBS : 0 < BLOCK_SIZE cfg.
Hypothesis Hfit : Z.of_nat (length file) + BLOCK_SIZE cfg <= 2 ^ 64.
Hypothesis Hc0 : crc_wf c0.

Local Abbreviation Inv := (Inv cfg v file q0 h0 c0).
Local Abbreviation Clean := (Clean cfg file).
Local Abbreviation Tallied := (Tallied cfg file).
Local Abbreviation T := (T cfg file).

Lemma folded_digests_app tr1 tr2 :
  folded_digests (tr1 ++ tr2) = folded_digests tr1 ++ folded_digests tr2.
Proof. apply omap_app. Qed.

Lemma folded_digests_cons_folded cid h tr :
  folded_digests (Folded cid h :: tr) = h :: folded_digests tr.
Proof. done. Qed.

Lemma folded_digests_cons_print l tr :
  folded_digests (Print l :: tr) = folded_digests tr.
Proof. done. Qed.

Lemma block_digests_S n :
  block_digests cfg file (S n)
  = block_digests cfg file n ++ [spec_digest (file_block cfg file n)].
Proof. unfold block_digests. by rewrite seq_S, fmap_app. Qed.

Lemma main_step_no_fold e s s' evs :
  main_step cfg v file e s = Some (s', evs) -> folded_digests evs = [].
Proof.
  unfold main_step, get_file_size, say. intros Hstep.
  destruct (main_pc s); case_hyp Hstep; by simplify_eq.
Qed.

Lemma reader_step_no_fold rid e r q r' q' evs :
  reader_step cfg v file rid e r q = Some (r', q', evs) ->
  folded_digests evs = [].
Proof.
  unfold reader_step, reserve_next_block, enqueue_locked, enqueue_post,
    sem_wait, say.
  intros Hstep. destruct (r_pc r); case_hyp Hstep; by simplify_eq.
Qed.

Lemma main_step_tallied s tr s' evs :
  Inv s tr -> Tallied s tr ->
  main_step cfg v file env_ok s = Some (s', evs) -> Tallied s' (tr ++ evs).
Proof.
  intros HI Ht Hstep w.
  pose proof (main_step_no_fold _ _ _ _ Hstep) as Hev.
  pose proof (inv_idle _ _ _ _ _ _ _ _ HI) as Hidle.
  pose proof (inv_entry _ _ _ _ _ _ _ _ HI) as Hentry.
  specialize (Ht w). clear HI.
  rewrite folded_digests_app, Hev, app_nil_r.
  unfold main_step, get_file_size in Hstep.
  cbn [fopen_ok create_ok env_ok negb] in Hstep.
  destruct s as [pc q h c rs cs].
  unfold weigh_in_flight in *.
  destruct pc; state_simpl; case_hyp Hstep; simplify_eq; feed_all.
  all: try (destruct Hidle as (-> & -> & _)).
  all: try done.
  all: intros _; cbn [main_pc queue readers consumers] in *; queue_simpl.
  all: rewrite ?sum_with_app;
    cbn [sum_with foldr weigh_reader weigh_consumer r_pc] in *; try lia.
  by rewrite Hentry.
Qed.

Lemma reader_step_tallied rid s tr r r' q' evs :
  Inv s tr -> Clean s -> Tallied s tr ->
  readers s !! rid = Some r ->
  reader_step cfg v file rid env_ok r (queue s) = Some (r', q', evs) ->
  Tallied (mk_state (main_pc s) q' (global_hash_xor s) (crc s)
             (<[rid := r']> (readers s)) (consumers s)) (tr ++ evs).
Proof.
  intros HI HC Ht Hlook Hstep w.
  pose proof (reader_step_no_fold _ _ _ _ _ _ _ Hstep) as Hev.
  rewrite folded_digests_app, Hev, app_nil_r.
  assert (Hst : started s).
  { destruct (started_dec s) as [|Hn]; [done|].
    destruct (inv_idle _ _ _ _ _ _ _ _ HI Hn) as (Hr & _).
    by rewrite Hr in Hlook. }
  pose proof (inv_partition _ _ _ _ _ _ _ _ HI Hst) as (Hfs & Htb & Hnb).
  specialize (Ht w Hst).
  pose proof (Forall_lookup_1 _ _ _ _ (clean_readers _ _ _ HC Hst) Hlook)
    as Hrok.
  pose proof (sum_with_insert (weigh_reader w) _ _ _ r' Hlook) as Hins.
  clear HI HC Hev.
  destruct s as [pc q h c rs cs].
  cbn [main_pc queue global_hash_xor crc readers consumers] in *.
  unfold reader_step, reserve_next_block, enqueue_locked, enqueue_post,
    mark_reader_done, sem_wait in Hstep.
  destruct r as [rpc tb]. unfold reader_ok in Hrok. cbn [r_pc total_bytes] in *.
  unfold started in *. cbn [main_pc] in *.
  cbn [fopen_ok malloc_ok malloc2_ok fseek_ok env_ok negb] in Hstep.
  destruct rpc; case_hyp Hstep; simplify_eq; reflect_bools.
  all: try (pose proof (fread_block cfg file HBS Hfit
                          (with_next_block q (u64 (next_block q + 1)))
                          (next_block q) Hfs ltac:(lia))
              as [Hfr Hne];
            rewrite Hfr in *).
  all: try (by destruct (file_block cfg file _)).
  all: intros _; unfold weigh_in_flight in *;
    cbn [main_pc queue readers consumers] in *; queue_simpl;
    rewrite Hins, ?sum_with_app;
    cbn [weigh_reader r_pc p_buf sum_with foldr] in *;
    unfold bytes_read; rewrite ?node_digest_taken; try lia.
  rewrite (u64_next cfg file HBS Hfit) by lia.
  replace (Z.to_nat (next_block q + 1)) with (S (Z.to_nat (next_block q)))
    by lia.
  rewrite block_digests_S, sum_with_app. cbn [sum_with foldr]. lia.
Qed.

Lemma consumer_step_tallied cid s tr c c' q' h' cs' evs :
  Inv s tr -> Tallied s tr ->
  consumers s !! cid = Some c ->
  consumer_step v cid c (queue s) (global_hash_xor s) (crc s)
  = Some (c', q', h', cs', evs) ->
  Tallied (mk_state (main_pc s) q' h' cs' (readers s)
             (<[cid := c']> (consumers s))) (tr ++ evs).
Proof.
  intros HI Ht Hlook Hstep w.
  assert (Hst : started s).
  { destruct (started_dec s) as [|Hn]; [done|].
    destruct (inv_idle _ _ _ _ _ _ _ _ HI Hn) as (_ & Hr & _).
    by rewrite Hr in Hlook. }
  pose proof (inv_crc _ _ _ _ _ _ _ _ HI Hst) as [Hwf _].
  pose proof (Forall_lookup_1 _ _ _ _ (inv_held _ _ _ _ _ _ _ _ HI) Hlook)
    as Hnode.
  specialize (Ht w Hst).
  pose proof (sum_with_insert (weigh_consumer w) _ _ _ c' Hlook) as Hins.
  clear HI.
  destruct s as [pc q h cst rs cs].
  cbn [main_pc queue global_hash_xor crc readers consumers] in *.
  unfold consumer_step, dequeue_locked, dequeue_post, sem_wait, drained
    in Hstep.
  unfold started in *. cbn [main_pc] in *.
  destruct c; cbn [consumer_node_ok] in Hnode;
    try (rewrite Hnode, process_buffer_data_wf in Hstep by done);
    case_hyp Hstep; simplify_eq; cbn [fst snd] in *; queue_simpl.
  all: intros _; unfold weigh_in_flight in *;
    cbn [main_pc queue readers consumers] in *; queue_simpl;
    rewrite folded_digests_app, sum_with_app, Hins;
    try match goal with
        | H : nodes _ = _ :: _ |- _ => rewrite H, sum_with_cons in Ht
        end;
    unfold say; case_goal;
    rewrite ?folded_digests_cons_folded, ?folded_digests_cons_print;
    change (folded_digests []) with (@nil Z);
    cbn [weigh_consumer sum_with foldr] in *;
    unfold node_digest in *; lia.
Qed.

Lemma step_tallied t s tr s' evs :
  Inv s tr -> Clean s -> Tallied s tr ->
  step cfg v file (t, env_ok) s = Some (s', evs) -> Tallied s' (tr ++ evs).
Proof.
  intros HI HC HB Hstep. destruct t as [|rid|cid]; cbn [step] in Hstep.
  - by eapply main_step_tallied.
  - destruct (readers s !! rid) as [r|] eqn:Hr; [|done].
    destruct (reader_step cfg v file rid env_ok r (queue s))
      as [[[r' q'] evs']|] eqn:Hrs; [|done].
    simplify_eq. by eapply reader_step_tallied.
  - destruct (consumers s !! cid) as [c|] eqn:Hc; [|done].
    destruct (consumer_step v cid c (queue s) (global_hash_xor s) (crc s))
      as [[[[[c' q'] h'] cs'] evs']|] eqn:Hcs; [|done].
    simplify_eq. by eapply consumer_step_tallied.
Qed.

Lemma exec_tallied sched s tr :
  failure_free sched ->
  exec cfg v file sched (entry_state q0 h0 c0) = Some (s, tr) ->
  Tallied s tr.
Proof.
  revert s tr. induction sched as [|a sched IH] using rev_ind;
    intros s tr Hff Hex.
  - cbn in Hex. simplify_eq. by intros w [].
  - apply Forall_app in Hff as [Hff Ha].
    apply exec_snoc in Hex as (s1 & tr1 & tr2 & Hex1 & Hs & ->).
    destruct a as [t e]. rewrite Forall_singleton in Ha.
    change (e = env_ok) in Ha. subst e.
    destruct (exec_clean cfg v file q0 h0 c0 HBS Hfit Hc0 _ _ _ Hff Hex1)
      as [HI HC].
    eapply step_tallied; [done|done| |done]. by apply IH.
Qed.

End TallyFacts.

Section TallyClaims.
Import Tally.

Lemma sum_with_count_occ (d : Z) l :
  sum_with (fun x => if Z.eq_dec x d then 1 else 0) l
  = Z.of_nat (count_occ Z.eq_dec l d).
Proof.
  induction l as [|x l IH]; [done|].
  rewrite sum_with_cons, IH. cbn [count_occ].
  destruct (Z.eq_dec x d); lia.
Qed.

Lemma block_digests_digest cfg file n :
  (fun k => digest (file_block cfg file k)) <$> seq 0 n
  = block_digests cfg file n.
Proof.
  unfold block_digests. induction (seq 0 n) as [|k l IH]; [done|].
  by rewrite !fmap_cons, IH, digest_spec.
Qed.

(** X19.  In a run without failed calls every block is folded into
    [global_hash_xor] exactly once: when [async_sequential_read] reports,
    the checksums that the consumers have folded are, up to their order,
    the checksums of the blocks of the file, one for each block. *)
Theorem every_block_folded_once cfg v file q0 h0 c0 sched s tr :
  0 < BLOCK_SIZE cfg ->
  Z.of_nat (length file) + BLOCK_SIZE cfg <= 2 ^ 64 ->
  crc_wf c0 ->
  (1 <= NUM_CONSUMERS cfg)%nat ->
  failure_free sched ->
  exec cfg v file sched (entry_state q0 h0 c0) = Some (s, tr) ->
  main_pc s = MReturned Reported ->
  Permutation (folded_digests tr)
    ((fun k => digest (file_block cfg file k))
       <$> seq 0 (Z.to_nat (T cfg file))).
Proof.
  intros HBS Hfit Hc0 Hnc Hff Hex Hpc.
  destruct (exec_clean cfg v file q0 h0 c0 HBS Hfit Hc0 _ _ _ Hff Hex)
    as [HI HC].
  pose proof (exec_tallied cfg v file q0 h0 c0 HBS Hfit Hc0 _ _ _ Hff Hex)
    as Ht.
  destruct (reported_state cfg v file q0 h0 c0 HBS Hfit Hc0 _ _ _ Hnc Hff
              Hex Hpc) as (Hnb & Hnodes & _).
  assert (Hst : started s) by (unfold started; by rewrite Hpc).
  pose proof (inv_joined_consumers _ _ _ _ _ _ _ _ HI Hpc) as Hjc.
  pose proof (inv_joined_readers _ _ _ _ _ _ _ _ HI) as Hjr.
  rewrite Hpc in Hjr. specialize (Hjr I).
  rewrite block_digests_digest.
  apply (Permutation_count_occ Z.eq_dec). intros d.
  apply Nat2Z.inj. rewrite <- !sum_with_count_occ.
  specialize (Ht (fun x => if Z.eq_dec x d then 1 else 0) Hst).
  rewrite Hnb in Ht. rewrite <- Ht.
  unfold weigh_in_flight. rewrite Hnodes.
  rewrite (sum_with_gone (weigh_reader _) reader_gone), 
    (sum_with_gone (weigh_consumer _) consumer_gone).
  - cbn [sum_with foldr]. lia.
  - by intros [].
  - eapply Forall_impl; [exact Hjc|]. by intros c ->.
  - intros r. unfold reader_gone, weigh_reader. by destruct (r_pc r).
  - done.
Qed.

Lemma every_block_folded_once_witness :
  exists s tr,
    exec small_config 1 check_bytes
      (sequential_schedule small_config 3) (fresh_state small_config)
    = Some (s, tr)
    /\ Permutation (folded_digests tr)
         ((fun k => digest (file_block small_config check_bytes k))
            <$> seq 0 (Z.to_nat (T small_config check_bytes))).
Proof.
  eexists _, _. split; [vm_compute; reflexivity|].
  refine (every_block_folded_once small_config 1 check_bytes
            (init_buffer_queue small_config) 0 crc_static
            (sequential_schedule small_config 3) _ _ _ _ _ _ _ _ _).
  - reflexivity.
  - vm_compute. discriminate.
  - apply crc_static_wf.
  - vm_compute. lia.
  - apply sequential_schedule_failure_free.
  - vm_compute. reflexivity.
  - reflexivity.
Defined.

End TallyClaims.
